(** * NPI-effect models of epimodel: masks, index lists and deterministic nodes

    Shallow embedding of [epimodel/pymc3_models/cm_effect/models.py].

    - NumPy arrays that the constructors read and overwrite in place (the
      masks of [NewCases] / [NewDeaths], the [ActiveCMs] tensor) are lists,
      read with [!!] and written with [<[_:=_]>]; an access outside the
      array raises, as NumPy does.
    - The dataset object is shared between the caller and every model built
      from it ([self.d = data]), so a constructor takes the dataset and
      returns it again next to the model.
    - Theano tensors are expression graphs without mutation; a tensor of a
      draw is denoted by the real-valued function of its indices. *)

From Stdlib Require Import Reals Lra Lia ZArith QArith Qreals.
From stdpp Require Import base list strings numbers.

(** ** Python exceptions *)

Inductive exn := IndexError | ValueError | AttributeError.

Inductive result (A : Type) : Type :=
  | Ok (a : A)
  | Raise (e : exn).
Arguments Ok {A} a.
Arguments Raise {A} e.

#[global] Instance result_ret : MRet result := @Ok.
#[global] Instance result_bind : MBind result := λ A B k m,
  match m with Ok a => k a | Raise e => Raise e end.

(** [for i in l: s = body(i, s)] *)
Fixpoint for_each {S : Type} (l : list nat) (body : nat → S → result S) (s : S)
  : result S :=
  match l with
  | [] => Ok s
  | i :: l' => s' ← body i s; for_each l' body s'
  end.

(** [for i in range(n)] *)
Definition for_range {S : Type} (n : nat) (body : nat → S → result S) (s : S)
  : result S :=
  for_each (seq 0 n) body s.

(** ** NumPy arrays *)

(** A float64 entry of a data array: NaN or a number. *)
Inductive float64 := NaN | Fin (q : Q).

Definition isnan (x : float64) : bool :=
  match x with NaN => true | Fin _ => false end.

(** [a[r, d]] for non-negative [r], [d] *)
Definition get2 {A : Type} (a : list (list A)) (r d : nat) : result A :=
  match a !! r with
  | Some row => match row !! d with Some x => Ok x | None => Raise IndexError end
  | None => Raise IndexError
  end.

(** [a[r, d] = x] *)
Definition set2 {A : Type} (a : list (list A)) (r d : nat) (x : A)
  : result (list (list A)) :=
  match a !! r with
  | Some row =>
      if decide (d < length row) then Ok (<[r := <[d := x]> row]> a)
      else Raise IndexError
  | None => Raise IndexError
  end.

(** The same cell as an option, for specifications. *)
Definition cell {A : Type} (a : list (list A)) (r d : nat) : option A :=
  a !! r ≫= λ row, row !! d.

(** A cell of a three-dimensional array. *)
Definition cell3 {A : Type} (a : list (list (list A))) (r i d : nat) : option A :=
  a !! r ≫= λ reg, cell reg i d.

Inductive dtype := int64 | float64_t.

(** A one-dimensional array used as an index array. *)
Record IndexArray := mkIndexArray { dt : dtype; elems : list nat }.

(** [np.array(l)] of a Python list of ints: an integer array, except that
    [np.array([])] has nothing to infer a dtype from and is a float64
    array. *)
Definition np_array (l : list nat) : IndexArray :=
  {| dt := match l with [] => float64_t | _ => int64 end; elems := l |}.

(** [a.reshape((n,))] of a two-dimensional array *)
Definition reshape_flat {A : Type} (a : list (list A)) (n : nat) : result (list A) :=
  if decide (length (concat a) = n) then Ok (concat a) else Raise ValueError.

(** [flat[idx]] with an index array.  NumPy takes integer index arrays
    only and raises [IndexError] for a float one, also when it is empty. *)
Definition take_idx {A : Type} (flat : list A) (idx : IndexArray) : result (list A) :=
  match dt idx with
  | float64_t => Raise IndexError
  | int64 =>
      mapM (λ i, match flat !! i with Some x => Ok x | None => Raise IndexError end)
           (elems idx)
  end.

(** [a[:, k:]] *)
Definition drop_cols {A : Type} (k : nat) (a : list (list A)) : list (list A) :=
  drop k <$> a.

(** [np.nonzero(b)[0]] of a one-dimensional boolean array *)
Definition nonzero (b : list bool) : list nat :=
  filter (λ i, b !! i = Some true) (seq 0 (length b)).

(** [l.index(x)] of a Python list *)
Fixpoint index (x : string) (l : list string) : result nat :=
  match l with
  | [] => Raise ValueError
  | y :: l' => if decide (y = x) then Ok 0 else n ← index x l'; Ok (S n)
  end.

(** ** The dataset *)

Record MaskedArray := mkMaskedArray {
  data : list (list float64);
  mask : list (list bool)
}.

Record Dataset := mkDataset {
  Rs : list string;
  Ds : list string;
  CMs : list string;
  ActiveCMs : list (list (list Q));
  NewCases : MaskedArray;
  NewDeaths : MaskedArray;
  Confirmed : MaskedArray;
  Deaths : MaskedArray
}.

Definition nRs (ds : Dataset) : nat := length (Rs ds).
Definition nDs (ds : Dataset) : nat := length (Ds ds).
Definition nCMs (ds : Dataset) : nat := length (CMs ds).

Inductive channel := cases | deaths.

(** The daily series of a channel and the cumulative count tested for NaN. *)
Definition New (ch : channel) (ds : Dataset) : MaskedArray :=
  match ch with cases => NewCases ds | deaths => NewDeaths ds end.

Definition Cumulative (ch : channel) (ds : Dataset) : MaskedArray :=
  match ch with cases => Confirmed ds | deaths => Deaths ds end.

(** [self.d.NewCases.mask = mk] resp. [self.d.NewDeaths.mask = mk]: the
    dataset with one mask replaced. *)
Definition set_mask (ch : channel) (ds : Dataset) (mk : list (list bool)) : Dataset :=
  match ch with
  | cases =>
      mkDataset (Rs ds) (Ds ds) (CMs ds) (ActiveCMs ds)
        (mkMaskedArray (data (NewCases ds)) mk) (NewDeaths ds)
        (Confirmed ds) (Deaths ds)
  | deaths =>
      mkDataset (Rs ds) (Ds ds) (CMs ds) (ActiveCMs ds)
        (NewCases ds) (mkMaskedArray (data (NewDeaths ds)) mk)
        (Confirmed ds) (Deaths ds)
  end.

Definition set_ActiveCMs (ds : Dataset) (a : list (list (list Q))) : Dataset :=
  mkDataset (Rs ds) (Ds ds) (CMs ds) a
    (NewCases ds) (NewDeaths ds) (Confirmed ds) (Deaths ds).

Arguments set_mask : simpl never.
Arguments set_ActiveCMs : simpl never.

(** ** Constructors: the observed-index loops *)

Definition CMDelayCut : nat := 30.

(** One pass of the loop body of [__init__]:
<<
    if self.d.New.mask[r, d] == False and d > self.CMDelayCut and not np.isnan(
            self.d.Cumulative.data[r, d]) [and d < (self.nDs - 7)]:
        observed.append(r * self.nDs + d)
    else:
        [self.d.New.mask[r, d] = True]
>>
    [trail] says whether the conjunct [d < nDs - 7] is present, [remask]
    whether the else branch writes the mask.  [and] evaluates left to
    right and stops at the first false conjunct. *)
Definition observe_cell (ch : channel) (trail remask : bool) (r d : nat)
    (st : list nat * Dataset) : result (list nat * Dataset) :=
  let '(observed, ds) := st in
  m ← get2 (mask (New ch ds)) r d;
  c ← (if bool_decide (m = false) && bool_decide (CMDelayCut < d)
       then x ← get2 (data (Cumulative ch ds)) r d;
            Ok (negb (isnan x)
                && (negb trail || bool_decide (Z.of_nat d < Z.of_nat (nDs ds) - 7)%Z))
       else Ok false);
  if c : bool then Ok (observed ++ [r * nDs ds + d], ds)
  else if remask then
    mk ← set2 (mask (New ch ds)) r d true; Ok (observed, set_mask ch ds mk)
  else Ok (observed, ds).

(** [observed = []; for r in range(self.nRs): for d in range(self.nDs): ...] *)
Definition observe_loop (ch : channel) (trail remask : bool) (ds : Dataset)
  : result (list nat * Dataset) :=
  for_range (nRs ds) (λ r st,
    for_range (nDs (st.2)) (λ d st', observe_cell ch trail remask r d st') st)
    ([], ds).

(** The loop of [CMCombined_Final_ICL.__init__], over the observed days
    only, both channels in one pass, indices into an [nRs * nODs] array. *)
Definition ICL_cell (ch : channel) (nODs r d actual_day : nat)
    (st : list nat * Dataset) : result (list nat * Dataset) :=
  let '(observed, ds) := st in
  m ← get2 (mask (New ch ds)) r actual_day;
  c ← (if bool_decide (m = false)
       then x ← get2 (data (Cumulative ch ds)) r actual_day; Ok (negb (isnan x))
       else Ok false);
  if c : bool then Ok (observed ++ [r * nODs + d], ds)
  else mk ← set2 (mask (New ch ds)) r actual_day true; Ok (observed, set_mask ch ds mk).

Definition ICL_loop (ObservedDaysIndx : list nat) (ds : Dataset)
  : result (list nat * list nat * Dataset) :=
  let nODs := length ObservedDaysIndx in
  for_range (nRs ds) (λ r st,
    for_range nODs (λ d st',
      let '(observed_active, observed_deaths, ds1) := st' in
      match ObservedDaysIndx !! d with
      | None => Raise IndexError
      | Some actual_day =>
          '(observed_active', ds2) ←
            ICL_cell cases nODs r d actual_day (observed_active, ds1);
          '(observed_deaths', ds3) ←
            ICL_cell deaths nODs r d actual_day (observed_deaths, ds2);
          Ok (observed_active', observed_deaths', ds3)
      end) st)
    ([], [], ds).

(** ** Model instances *)

Inductive Variant :=
  | CMDeath_Final
  | CMActive_Final
  | CMCombined_Final
  | CMCombined_Final_DifDelays
  | CMCombined_Final_V3
  | CMCombined_Final_NoNoise
  | CMCombined_Additive
  | CMCombined_Final_DifEffects
  | CMCombined_Final_ICL.

#[global] Instance Variant_eq_dec : EqDecision Variant.
Proof. solve_decision. Defined.

(** The attributes a constructor sets; [None] is an attribute the class
    does not define. *)
Record Model := mkModel {
  variant : Variant;
  ObservedDaysIndx : list nat;
  OR_indxs : list nat;
  nORs : nat;
  nODs : nat;
  observed_days : option IndexArray;
  all_observed_active : option IndexArray;
  all_observed_deaths : option IndexArray;
  short_rs : option (list nat);
  long_rs : option (list nat)
}.

(** [np.arange(self.CMDelayCut, len(self.d.Ds))] *)
Definition observed_days_indx (ds : Dataset) : list nat :=
  seq CMDelayCut (nDs ds - CMDelayCut).

Definition new_model (v : Variant) (ds : Dataset)
    (days active dths : option IndexArray) (srs lrs : option (list nat)) : Model :=
  {| variant := v;
     ObservedDaysIndx := observed_days_indx ds;
     OR_indxs := seq 0 (nRs ds);
     nORs := nRs ds;
     nODs := length (observed_days_indx ds);
     observed_days := days;
     all_observed_active := active;
     all_observed_deaths := dths;
     short_rs := srs;
     long_rs := lrs |}.

(** [CMDeath_Final.__init__]: skipped days are only recorded. *)
Definition CMDeath_Final_init (ds : Dataset) : result (Model * Dataset) :=
  '(observed, ds1) ← observe_loop deaths false false ds;
  Ok (new_model CMDeath_Final ds1 (Some (np_array observed)) None None None None, ds1).

(** [CMActive_Final.__init__] *)
Definition CMActive_Final_init (ds : Dataset) : result (Model * Dataset) :=
  '(observed, ds1) ← observe_loop cases true true ds;
  Ok (new_model CMActive_Final ds1 (Some (np_array observed)) None None None None, ds1).

(** [__init__] of [CMCombined_Final], [_V3], [_NoNoise], [_Additive] and
    [_DifEffects], which share it line by line. *)
Definition CMCombined_init (v : Variant) (ds : Dataset) : result (Model * Dataset) :=
  '(observed_active, ds1) ← observe_loop cases true true ds;
  '(observed_deaths, ds2) ← observe_loop deaths false true ds1;
  Ok (new_model v ds2 None (Some (np_array observed_active))
        (Some (np_array observed_deaths)) None None, ds2).

(** [a[:, i, :]] of a three-dimensional array *)
Definition plane {A : Type} (a : list (list (list A))) (i : nat)
  : result (list (list A)) :=
  mapM (λ reg, match reg !! i with Some row => Ok row | None => Raise IndexError end) a.

(** [np.sum(_, axis=-1)] of a two-dimensional array.  The sum is taken
    exactly; the float64 sum of the code is the same number on rows whose
    entries are 0 or 1, where it is a count, and that is where the
    statements about [short_rs] and [long_rs] use it. *)
Definition sum_last (a : list (list Q)) : list Q :=
  (λ row, foldr Qplus 0%Q row) <$> a.

(** [a[:, i, :] = 0] *)
Definition zero_plane (a : list (list (list Q))) (i : nat) : list (list (list Q)) :=
  (λ reg, alter (λ row, (λ _, 0%Q) <$> row) i reg) <$> a.

(** [CMCombined_Final_DifDelays.__init__] *)
Definition CMCombined_Final_DifDelays_init (ds : Dataset) : result (Model * Dataset) :=
  testing_indx ← index "Symptomatic Testing" (CMs ds);
  testing ← plane (ActiveCMs ds) testing_indx;
  let srs := nonzero ((λ s, QMicromega.Qlt_bool 1 s) <$> sum_last testing) in
  let lrs := nonzero ((λ s, QMicromega.Qlt_bool s 1) <$> sum_last testing) in
  let ds0 := set_ActiveCMs ds (zero_plane (ActiveCMs ds) testing_indx) in
  '(observed_active, ds1) ← observe_loop cases true true ds0;
  '(observed_deaths, ds2) ← observe_loop deaths false true ds1;
  Ok (new_model CMCombined_Final_DifDelays ds2 None (Some (np_array observed_active))
        (Some (np_array observed_deaths)) (Some srs) (Some lrs), ds2).

(** [CMCombined_Final_ICL.__init__] *)
Definition CMCombined_Final_ICL_init (ds : Dataset) : result (Model * Dataset) :=
  '(observed_active, observed_deaths, ds1) ← ICL_loop (observed_days_indx ds) ds;
  Ok (new_model CMCombined_Final_ICL ds1 None (Some (np_array observed_active))
        (Some (np_array observed_deaths)) None None, ds1).

(** Constructing a model of a given class from a dataset object. *)
Definition init (v : Variant) (ds : Dataset) : result (Model * Dataset) :=
  match v with
  | CMDeath_Final => CMDeath_Final_init ds
  | CMActive_Final => CMActive_Final_init ds
  | CMCombined_Final_DifDelays => CMCombined_Final_DifDelays_init ds
  | CMCombined_Final_ICL => CMCombined_Final_ICL_init ds
  | _ => CMCombined_init v ds
  end.

(** The index list a model holds for a channel, if its class builds one. *)
Definition observed_index (m : Model) (ch : channel) : option IndexArray :=
  match variant m, ch with
  | CMDeath_Final, deaths => observed_days m
  | CMDeath_Final, cases => None
  | CMActive_Final, cases => observed_days m
  | CMActive_Final, deaths => None
  | _, cases => all_observed_active m
  | _, deaths => all_observed_deaths m
  end.

(** ** Well-formed datasets and the inclusion test *)

(** An [n × m] array. *)
Definition shape2 {A : Type} (n m : nat) (a : list (list A)) : Prop :=
  length a = n ∧ Forall (λ row, length row = m) a.

(** An [n × k × m] array. *)
Definition shape3 {A : Type} (n k m : nat) (a : list (list (list A))) : Prop :=
  length a = n ∧ Forall (shape2 k m) a.

Definition shape_ma (n m : nat) (a : MaskedArray) : Prop :=
  shape2 n m (data a) ∧ shape2 n m (mask a).

(** The dataset provider's contract: every array is rectangular and
    aligned with the lists of regions, days and NPIs. *)
Definition wf_dataset (ds : Dataset) : Prop :=
  shape3 (nRs ds) (nCMs ds) (nDs ds) (ActiveCMs ds)
  ∧ shape_ma (nRs ds) (nDs ds) (NewCases ds)
  ∧ shape_ma (nRs ds) (nDs ds) (NewDeaths ds)
  ∧ shape_ma (nRs ds) (nDs ds) (Confirmed ds)
  ∧ shape_ma (nRs ds) (nDs ds) (Deaths ds).

#[global] Instance shape2_dec {A : Type} n m (a : list (list A)) :
  Decision (shape2 n m a).
Proof. unfold shape2. apply _. Defined.

#[global] Instance shape3_dec {A : Type} n k m (a : list (list (list A))) :
  Decision (shape3 n k m a).
Proof. unfold shape3. apply _. Defined.

#[global] Instance shape_ma_dec n m a : Decision (shape_ma n m a).
Proof. unfold shape_ma. apply _. Defined.

#[global] Instance wf_dataset_dec ds : Decision (wf_dataset ds).
Proof. unfold wf_dataset. apply _. Defined.

(** The test of the loop body on the cell [(r, d)] of a dataset. *)
Definition included (ch : channel) (trail : bool) (ds : Dataset) (r d : nat) : bool :=
  match cell (mask (New ch ds)) r d, cell (data (Cumulative ch ds)) r d with
  | Some m, Some x =>
      bool_decide (m = false) && bool_decide (CMDelayCut < d) && negb (isnan x)
      && (negb trail || bool_decide (Z.of_nat d < Z.of_nat (nDs ds) - 7)%Z)
  | _, _ => false
  end.

(** The flat indices below [k] whose cell passes the test, in increasing
    order. *)
Definition observed_upto (ch : channel) (trail : bool) (ds : Dataset) (k : nat)
  : list nat :=
  filter (λ i, included ch trail ds (i / nDs ds) (i mod nDs ds) = true) (seq 0 k).

(** The mask flag of [(r, d)] once the cells of flat index below [k] have
    been visited. *)
Definition masked_upto (ch : channel) (trail remask : bool) (ds : Dataset)
    (k r d : nat) : option bool :=
  (λ b : bool, if decide (r * nDs ds + d < k)
               then b || (remask && negb (included ch trail ds r d)) else b)
    <$> cell (mask (New ch ds)) r d.

(** State of the loops over [ds0] before the cell of flat index [k]. *)
Definition loop_inv (ch : channel) (trail remask : bool) (ds0 : Dataset) (k : nat)
    (st : list nat * Dataset) : Prop :=
  ∃ mk, st.2 = set_mask ch ds0 mk
    ∧ shape2 (nRs ds0) (nDs ds0) mk
    ∧ st.1 = observed_upto ch trail ds0 k
    ∧ ∀ r d, r < nRs ds0 → d < nDs ds0 →
        cell mk r d = masked_upto ch trail remask ds0 k r d.

(** ** Statements about the constructors *)

(** The inclusion rule in words: not masked upstream, after the warm-up,
    cumulative count not NaN and, for cases, before the trailing week. *)
Definition in_likelihood (ch : channel) (ds : Dataset) (r d : nat) : Prop :=
  cell (mask (New ch ds)) r d = Some false
  ∧ CMDelayCut < d
  ∧ (∃ q, cell (data (Cumulative ch ds)) r d = Some (Fin q))
  ∧ (ch = cases → (Z.of_nat d < Z.of_nat (nDs ds) - 7)%Z).

(** The conjunct [d < nDs - 7] is in the cases loops only. *)
Definition trailing (ch : channel) : bool :=
  match ch with cases => true | deaths => false end.

(** Constructing [v] from [ds] yields index lists that hold [r * nDs + d]
    exactly for the cells passing the rule, and masks every other cell. *)
Definition index_rule (v : Variant) (ds : Dataset) : Prop :=
  ∃ m ds', init v ds = Ok (m, ds')
    ∧ ∀ ch idx, observed_index m ch = Some idx →
        ∀ r d, r < nRs ds → d < nDs ds →
          (r * nDs ds + d ∈ elems idx ↔ in_likelihood ch ds r d)
          ∧ (¬ in_likelihood ch ds r d → cell (mask (New ch ds')) r d = Some true).

(** Constructing [v] from [ds] leaves both masks of the dataset as they
    were. *)
Definition masks_untouched (v : Variant) (ds : Dataset) : Prop :=
  ∃ m ds', init v ds = Ok (m, ds')
    ∧ mask (NewCases ds') = mask (NewCases ds)
    ∧ mask (NewDeaths ds') = mask (NewDeaths ds).

(** The classes whose loops are the ones of [CMCombined_Final]. *)
Definition combined (v : Variant) : bool :=
  match v with
  | CMCombined_Final | CMCombined_Final_V3 | CMCombined_Final_NoNoise
  | CMCombined_Additive | CMCombined_Final_DifEffects => true
  | _ => false
  end.

(** The arrays the loop of a channel reads are [nRs × nDs]. *)
Definition channel_shaped (ch : channel) (ds : Dataset) : Prop :=
  shape2 (nRs ds) (nDs ds) (data (Cumulative ch ds))
  ∧ shape2 (nRs ds) (nDs ds) (mask (New ch ds)).

(** Two states of a dataset object that agree on the regions, days, NPIs
    and on every count; they may differ in the two masks and in
    [ActiveCMs]. *)
Definition same_but_masks (ds ds' : Dataset) : Prop :=
  Rs ds' = Rs ds ∧ Ds ds' = Ds ds ∧ CMs ds' = CMs ds
  ∧ data (NewCases ds') = data (NewCases ds)
  ∧ data (NewDeaths ds') = data (NewDeaths ds)
  ∧ Confirmed ds' = Confirmed ds ∧ Deaths ds' = Deaths ds.

(** The classes whose constructor writes the masks over all days. *)
Definition remasking (v : Variant) : bool :=
  match v with
  | CMDeath_Final | CMCombined_Final_ICL => false
  | _ => true
  end.

(** Whether a class builds an index list for a channel. *)
Definition builds (v : Variant) (ch : channel) : bool :=
  match v, ch with
  | CMDeath_Final, cases | CMActive_Final, deaths => false
  | _, _ => true
  end.

(** [mk] is the mask of channel [ch] of [ds] with every failing cell set. *)
Definition remasked (ch : channel) (ds : Dataset) (mk : list (list bool)) : Prop :=
  shape2 (nRs ds) (nDs ds) mk
  ∧ ∀ r d, r < nRs ds → d < nDs ds →
      cell mk r d =
      (λ b : bool, b || negb (included ch (trailing ch) ds r d))
        <$> cell (mask (New ch ds)) r d.

(** The deaths index list of [CMCombined_Final] holds no day of region
    [r]. *)
Definition region_unobserved (ds : Dataset) (r : nat) : Prop :=
  ∃ m ds' idx, init CMCombined_Final ds = Ok (m, ds')
    ∧ all_observed_deaths m = Some idx
    ∧ ∀ d, d < nDs ds → r * nDs ds + d ∉ elems idx.

(** Every entry of the plane of NPI [i] is 0 or 1. *)
Definition binary_plane (ds : Dataset) (i : nat) : Prop :=
  ∀ r d q, cell3 (ActiveCMs ds) r i d = Some q → q = 0%Q ∨ q = 1%Q.

(** The number of days on which NPI [i] is on in region [r]. *)
Definition active_days (ds : Dataset) (r i : nat) : nat :=
  match ActiveCMs ds !! r ≫= λ reg, reg !! i with
  | Some row => length (filter (λ q, Qeq_bool q 1 = true) row)
  | None => 0
  end.

(** *** The ICL constructor *)

(** [self.nODs] *)
Definition nODs_of (ds : Dataset) : nat := length (observed_days_indx ds).

(** The test of the ICL loop body on a cell. *)
Definition included_ICL (ch : channel) (ds : Dataset) (r day : nat) : bool :=
  match cell (mask (New ch ds)) r day, cell (data (Cumulative ch ds)) r day with
  | Some m, Some x => bool_decide (m = false) && negb (isnan x)
  | _, _ => false
  end.

(** The same in words: not masked upstream and cumulative count not NaN. *)
Definition in_likelihood_ICL (ch : channel) (ds : Dataset) (r day : nat) : Prop :=
  cell (mask (New ch ds)) r day = Some false
  ∧ ∃ q, cell (data (Cumulative ch ds)) r day = Some (Fin q).

(** The indices below [k] into the [nRs × nODs] window whose cell passes,
    in increasing order. *)
Definition observed_upto_ICL (ch : channel) (ds : Dataset) (k : nat) : list nat :=
  filter (λ i, included_ICL ch ds (i / nODs_of ds)
                 (CMDelayCut + i mod nODs_of ds) = true)
         (seq 0 k).

(** The mask flag of [(r, day)] once the window cells of index below [k]
    have been visited. *)
Definition masked_upto_ICL (ch : channel) (ds : Dataset) (k r day : nat)
  : option bool :=
  (λ b : bool,
     if decide (CMDelayCut ≤ day ∧ r * nODs_of ds + (day - CMDelayCut) < k)
     then b || negb (included_ICL ch ds r day) else b)
    <$> cell (mask (New ch ds)) r day.

(** State of the ICL loop over [ds0] before the window cell of index [k]. *)
Definition ICL_inv (ds0 : Dataset) (k : nat) (st : list nat * list nat * Dataset)
  : Prop :=
  ∃ mkc mkd,
    st.2 = set_mask deaths (set_mask cases ds0 mkc) mkd
    ∧ st.1.1 = observed_upto_ICL cases ds0 k
    ∧ st.1.2 = observed_upto_ICL deaths ds0 k
    ∧ shape2 (nRs ds0) (nDs ds0) mkc
    ∧ shape2 (nRs ds0) (nDs ds0) mkd
    ∧ (∀ r day, r < nRs ds0 → day < nDs ds0 →
         cell mkc r day = masked_upto_ICL cases ds0 k r day)
    ∧ (∀ r day, r < nRs ds0 → day < nDs ds0 →
         cell mkd r day = masked_upto_ICL deaths ds0 k r day).

(** What the ICL constructor does: an index [r * nODs + d] is listed
    exactly when the cell of day [CMDelayCut + d] passes; failing cells of
    the window are masked; the days before the window are not touched. *)
Definition ICL_rule (ds : Dataset) : Prop :=
  ∃ m ds', init CMCombined_Final_ICL ds = Ok (m, ds')
    ∧ ∀ ch idx, observed_index m ch = Some idx →
        (∀ r d, r < nRs ds → d < nODs_of ds →
           (r * nODs_of ds + d ∈ elems idx
            ↔ in_likelihood_ICL ch ds r (CMDelayCut + d))
           ∧ (¬ in_likelihood_ICL ch ds r (CMDelayCut + d) →
              cell (mask (New ch ds')) r (CMDelayCut + d) = Some true))
        ∧ (∀ r day, r < nRs ds → day < nDs ds → day < CMDelayCut →
             cell (mask (New ch ds')) r day = cell (mask (New ch ds)) r day).

(** What the ICL constructor does to the masks: inside the window every
    failing cell is set, outside nothing changes. *)
Definition ICL_masks_rule (ds : Dataset) : Prop :=
  ∃ m ds', init CMCombined_Final_ICL ds = Ok (m, ds')
    ∧ same_but_masks ds ds'
    ∧ ∀ ch r day, r < nRs ds → day < nDs ds →
        cell (mask (New ch ds')) r day =
        (λ b : bool, if decide (CMDelayCut ≤ day)
                     then b || negb (included_ICL ch ds r day) else b)
          <$> cell (mask (New ch ds)) r day.

(** ** Example datasets *)

Definition names (n : nat) : list string := replicate n ""%string.
Definition full {A : Type} (n m : nat) (x : A) : list (list A) :=
  replicate n (replicate m x).

(** [R] regions and [D] days, one NPI that is never active, every count 1,
    nothing masked. *)
Definition plain_dataset (R D : nat) : Dataset :=
  {| Rs := names R; Ds := names D; CMs := ["Symptomatic Testing"%string];
     ActiveCMs := replicate R [replicate D 0%Q];
     NewCases := mkMaskedArray (full R D (Fin 1)) (full R D false);
     NewDeaths := mkMaskedArray (full R D (Fin 1)) (full R D false);
     Confirmed := mkMaskedArray (full R D (Fin 1)) (full R D false);
     Deaths := mkMaskedArray (full R D (Fin 1)) (full R D false) |}.

(** One region, forty days, all deaths masked. *)
Definition all_masked_dataset : Dataset :=
  {| Rs := names 1; Ds := names 40; CMs := ["Symptomatic Testing"%string];
     ActiveCMs := replicate 1 [replicate 40 0%Q];
     NewCases := mkMaskedArray (full 1 40 (Fin 1)) (full 1 40 false);
     NewDeaths := mkMaskedArray (full 1 40 NaN) (full 1 40 true);
     Confirmed := mkMaskedArray (full 1 40 (Fin 1)) (full 1 40 false);
     Deaths := mkMaskedArray (full 1 40 NaN) (full 1 40 false) |}.

(** Three regions, forty days: "Symptomatic Testing" is active on five
    days in region 0, on one day in region 1 and never in region 2. *)
Definition testing_dataset : Dataset :=
  {| Rs := names 3; Ds := names 40;
     CMs := ["Mask Wearing"; "Symptomatic Testing"]%string;
     ActiveCMs :=
       [ [replicate 40 1%Q; replicate 35 0%Q ++ replicate 5 1%Q];
         [replicate 40 0%Q; replicate 35 0%Q ++ [1%Q] ++ replicate 4 0%Q];
         [replicate 40 1%Q; replicate 40 0%Q] ];
     NewCases := mkMaskedArray (full 3 40 (Fin 1)) (full 3 40 false);
     NewDeaths := mkMaskedArray (full 3 40 (Fin 1)) (full 3 40 false);
     Confirmed := mkMaskedArray (full 3 40 (Fin 1)) (full 3 40 false);
     Deaths := mkMaskedArray (full 3 40 (Fin 1)) (full 3 40 false) |}.

(** ** Deterministic nodes of [build_model] *)

Module Build.
Local Open Scope R_scope.

(** cereda mean, eurosurveilance SI *)
Definition SI_ALPHA : R := 7.935.
Definition SI_BETA : R := 1.188.

(** infection --> confirmed delay *)
Definition DelayProbCases : list R :=
  [0; 0.0252817; 0.03717965; 0.05181224; 0.06274125; 0.06961334;
   0.07277174; 0.07292397; 0.07077184; 0.06694868; 0.06209945; 0.05659917;
   0.0508999; 0.0452042; 0.03976573; 0.03470891; 0.0299895; 0.02577721;
   0.02199923; 0.01871723; 0.01577148; 0.01326564; 0.01110783; 0.00928827;
   0.0077231; 0.00641162; 0.00530572; 0.00437895; 0.00358801; 0.00295791;
   0.0024217; 0.00197484].

Definition DelayProbDeaths : list R :=
  [0.00000000; 2.24600347e-06; 3.90382088e-05; 2.34307085e-04;
   7.83555003e-04; 1.91221622e-03; 3.78718437e-03; 6.45923913e-03;
   9.94265709e-03; 1.40610714e-02; 1.86527920e-02; 2.34311421e-02;
   2.81965055e-02; 3.27668001e-02; 3.68031574e-02; 4.03026198e-02;
   4.30521951e-02; 4.50637136e-02; 4.63315047e-02; 4.68794406e-02;
   4.67334059e-02; 4.59561441e-02; 4.47164503e-02; 4.29327455e-02;
   4.08614522e-02; 3.85082076e-02; 3.60294203e-02; 3.34601703e-02;
   3.08064505e-02; 2.81766028e-02; 2.56165924e-02; 2.31354369e-02;
   2.07837267e-02; 1.86074383e-02; 1.65505661e-02; 1.46527043e-02;
   1.29409383e-02; 1.13695920e-02; 9.93233881e-03; 8.66063386e-03;
   7.53805464e-03; 6.51560047e-03; 5.63512264e-03; 4.84296166e-03;
   4.14793478e-03; 3.56267297e-03; 3.03480656e-03; 2.59406730e-03;
   2.19519042e-03; 1.85454286e-03; 1.58333238e-03; 1.33002321e-03;
   1.11716435e-03; 9.35360376e-04; 7.87780158e-04; 6.58601602e-04;
   5.48147154e-04; 4.58151351e-04; 3.85878963e-04; 3.21623249e-04;
   2.66129174e-04; 2.21364768e-04; 1.80736566e-04; 1.52350196e-04].

(** A draw: one value for every free random variable of a model.  A
    vector, matrix or rank-3 tensor is the function of its indices.
    [CM_Alpha] is the value of the node of that name (a free variable under
    the normal and half-normal priors, [CM_Alpha_t - log(1.05) / 6] under
    the icl prior); [AllBeta] belongs to [CMCombined_Additive], [AllCMAlpha]
    to [CMCombined_Final_DifEffects], [LogR] and [InitialSize_log] to
    [CMCombined_Final_ICL]. *)
Record Draw := mkDraw {
  CM_Alpha : nat → R;
  AllBeta : nat → R;
  HyperRVar : R;
  RegionLogR_noise : nat → R;
  GrowthCasesNoise : nat → nat → R;
  GrowthDeathsNoise : nat → nat → R;
  InitialSizeCases_log : nat → R;
  InitialSizeDeaths_log : nat → R;
  Phi : R;
  LogR : nat → nat → nat → R;
  InitialSize_log : nat → nat → R;
  AllCMAlpha : nat → nat → R
}.

(** Keyword arguments of [CMCombined_Final.build_model]. *)
Record Args := mkArgs {
  R_hyperprior_mean : R;
  serial_interval_mean : R;
  serial_interval_sigma : R;
  conf_noise : option R;
  deaths_noise : option R
}.

Definition default_args : Args :=
  {| R_hyperprior_mean := 3.25;
     serial_interval_mean := SI_ALPHA / SI_BETA;
     serial_interval_sigma := sqrt (SI_ALPHA / SI_BETA ^ 2);
     conf_noise := None;
     deaths_noise := None |}.

(** The defaults with a fixed dispersion for the deaths likelihood. *)
Definition fixed_deaths_noise (x : R) : Args :=
  {| R_hyperprior_mean := 3.25;
     serial_interval_mean := SI_ALPHA / SI_BETA;
     serial_interval_sigma := sqrt (SI_ALPHA / SI_BETA ^ 2);
     conf_noise := None;
     deaths_noise := Some x |}.

(** [T.sum(_, axis)] over an axis of length [n] *)
Fixpoint big_sum (n : nat) (f : nat → R) : R :=
  match n with
  | O => 0
  | S k => big_sum k f + f k
  end.

(** [x.cumsum(axis=1)] at column [d] *)
Definition cumsum (x : nat → R) (d : nat) : R := big_sum (S d) x.

(** [C.conv2d(x, k, border_mode="full")[:, :n]] at a column [t < n] of one
    row: the terms [x[t - j] * k[j]] with [0 <= j <= t]. *)
Definition conv_full (x : nat → R) (k : list R) (t : nat) : R :=
  big_sum (S t) (λ j, x (t - j)%nat * nth j k 0).

(** [CM_Beta = AllBeta[1:]], [Beta_hat = AllBeta[0]] *)
Definition CM_Beta (θ : Draw) (i : nat) : R := AllBeta θ (S i).
Definition Beta_hat (θ : Draw) : R := AllBeta θ 0%nat.

(** The node [CMReduction] of each class. *)
Definition CMReduction (v : Variant) (θ : Draw) (i : nat) : R :=
  match v with
  | CMCombined_Additive => CM_Beta θ i
  | _ => exp ((-1) * CM_Alpha θ i)
  end.

Definition RegionR (a : Args) (θ : Draw) (r : nat) : R :=
  R_hyperprior_mean a + RegionLogR_noise θ r * HyperRVar θ.

(** [pm.Data("ActiveCMs", self.d.ActiveCMs)]: the array as it is in the
    dataset object when the model is built. *)
Definition ActiveCMs_t (ds : Dataset) (r i d : nat) : R :=
  match cell3 (ActiveCMs ds) r i d with
  | Some q => Q2R q
  | None => 0
  end.

(** [ActiveCMReduction] and [GrowthReduction] of [CMCombined_Final]:
<<
    self.ActiveCMReduction = (T.reshape(self.CM_Alpha, (1, self.nCMs, 1))
                              * self.ActiveCMs[self.OR_indxs, :, :])
    self.Det("GrowthReduction", T.sum(self.ActiveCMReduction, axis=1), ...)
>>
    [CMDeath_Final], [CMActive_Final], [CMCombined_Final_DifDelays], [_V3]
    and [_NoNoise] have the same two lines. *)
Definition ActiveCMReduction (θ : Draw) (ds : Dataset) (r i d : nat) : R :=
  CM_Alpha θ i * ActiveCMs_t ds r i d.

Definition GrowthReduction (θ : Draw) (ds : Dataset) (r d : nat) : R :=
  big_sum (nCMs ds) (λ i, ActiveCMReduction θ ds r i d).

(** The tensor [ActiveCMReduction] of each class.  [CMCombined_Additive]
    has [CM_Beta * (ones - ActiveCMs)], [CMCombined_Final_DifEffects] the
    region's own coefficients [AllCMAlpha[r, i]], and
    [CMCombined_Final_ICL] reads [ActiveCMs[:, :, CMDelayCut:]], so that its
    day [d] is the day [CMDelayCut + d] of the dataset. *)
Definition ActiveCMReduction_of (v : Variant) (θ : Draw) (ds : Dataset)
    (r i d : nat) : R :=
  match v with
  | CMCombined_Additive => CM_Beta θ i * (1 - ActiveCMs_t ds r i d)
  | CMCombined_Final_DifEffects => AllCMAlpha θ r i * ActiveCMs_t ds r i d
  | CMCombined_Final_ICL => CM_Alpha θ i * ActiveCMs_t ds r i (CMDelayCut + d)
  | _ => ActiveCMReduction θ ds r i d
  end.

(** The node [GrowthReduction] of each class: the sum over the NPIs, plus
    [Beta_hat] in [CMCombined_Additive]. *)
Definition GrowthReduction_of (v : Variant) (θ : Draw) (ds : Dataset)
    (r d : nat) : R :=
  match v with
  | CMCombined_Additive =>
      big_sum (nCMs ds) (λ i, ActiveCMReduction_of v θ ds r i d) + Beta_hat θ
  | _ => big_sum (nCMs ds) (λ i, ActiveCMReduction_of v θ ds r i d)
  end.

(** Two draws that agree on every coefficient of every NPI but [ti]. *)
Definition same_but_NPI (ti : nat) (θ θ' : Draw) : Prop :=
  (∀ i, i ≠ ti → CM_Alpha θ' i = CM_Alpha θ i)
  ∧ (∀ r i, i ≠ ti → AllCMAlpha θ' r i = AllCMAlpha θ r i)
  ∧ (∀ i, i ≠ S ti → AllBeta θ' i = AllBeta θ i).

(** The NPI [ti] adds nothing to [GrowthReduction] in a model of class
    [v] over [ds]: its term is zero and the sum does not depend on its
    coefficient. *)
Definition silent_in (v : Variant) (ti : nat) (ds : Dataset) : Prop :=
  ∀ θ r d,
    ActiveCMReduction_of v θ ds r ti d = 0
    ∧ ∀ θ', same_but_NPI ti θ θ' →
        GrowthReduction_of v θ' ds r d = GrowthReduction_of v θ ds r d.

(** The NPI "Symptomatic Testing" is silent in every model built from the
    dataset object after a [CMCombined_Final_DifDelays] model was built
    from [ds]. *)
Definition silent_in_later_models (ds : Dataset) : Prop :=
  ∃ m ds' ti,
    init CMCombined_Final_DifDelays ds = Ok (m, ds')
    ∧ index "Symptomatic Testing" (CMs ds) = Ok ti
    ∧ ∀ v m2 ds2, init v ds' = Ok (m2, ds2) → silent_in v ti ds2.

Definition ExpectedLogR (a : Args) (θ : Draw) (ds : Dataset) (r d : nat) : R :=
  ln (RegionR a θ r) - GrowthReduction θ ds r d.

Definition si_beta (a : Args) : R :=
  serial_interval_mean a / serial_interval_sigma a ^ 2.
Definition si_alpha (a : Args) : R :=
  serial_interval_mean a ^ 2 / serial_interval_sigma a ^ 2.

Definition ExpectedGrowth (a : Args) (θ : Draw) (ds : Dataset) (r d : nat) : R :=
  si_beta a * (exp (ExpectedLogR a θ ds r d / si_alpha a) - 1).

Definition GrowthCases (a : Args) (θ : Draw) (ds : Dataset) (r d : nat) : R :=
  ExpectedGrowth a θ ds r d + GrowthCasesNoise θ r d.
Definition GrowthDeaths (a : Args) (θ : Draw) (ds : Dataset) (r d : nat) : R :=
  ExpectedGrowth a θ ds r d + GrowthDeathsNoise θ r d.

Definition InfectedCases (a : Args) (θ : Draw) (ds : Dataset) (r d : nat) : R :=
  exp (InitialSizeCases_log θ r + cumsum (GrowthCases a θ ds r) d).
Definition InfectedDeaths (a : Args) (θ : Draw) (ds : Dataset) (r d : nat) : R :=
  exp (InitialSizeDeaths_log θ r + cumsum (GrowthDeaths a θ ds r) d).

Definition ExpectedCases (a : Args) (θ : Draw) (ds : Dataset) (r d : nat) : R :=
  conv_full (InfectedCases a θ ds r) DelayProbCases d.
Definition ExpectedDeaths (a : Args) (θ : Draw) (ds : Dataset) (r d : nat) : R :=
  conv_full (InfectedDeaths a θ ds r) DelayProbDeaths d.

(** [CMReduction = exp(-CM_Alpha)] in class [v]. *)
Definition CMReduction_rule (v : Variant) : Prop :=
  ∀ θ i, CMReduction v θ i = exp (- CM_Alpha θ i).

(** A draw with every free variable at zero, and [Phi] at one. *)
Definition zero_draw : Draw :=
  {| CM_Alpha := λ _, 0; AllBeta := λ _, 0; HyperRVar := 0;
     RegionLogR_noise := λ _, 0;
     GrowthCasesNoise := λ _ _, 0; GrowthDeathsNoise := λ _ _, 0;
     InitialSizeCases_log := λ _, 0; InitialSizeDeaths_log := λ _, 0;
     Phi := 1; LogR := λ _ _ _, 0; InitialSize_log := λ _ _, 0;
     AllCMAlpha := λ _ _, 0 |}.

(** A draw of [CMCombined_Additive] for two NPIs: the three Dirichlet
    weights are one third each. *)
Definition thirds_draw : Draw :=
  {| CM_Alpha := λ _, 0;
     AllBeta := λ i, if decide (i < 3)%nat then / 3 else 0;
     HyperRVar := 0; RegionLogR_noise := λ _, 0;
     GrowthCasesNoise := λ _ _, 0; GrowthDeathsNoise := λ _ _, 0;
     InitialSizeCases_log := λ _, 0; InitialSizeDeaths_log := λ _, 0;
     Phi := 1; LogR := λ _ _ _, 0; InitialSize_log := λ _ _, 0;
     AllCMAlpha := λ _ _, 0 |}.

(** A declared negative-binomial likelihood node. *)
Record Likelihood := mkLikelihood {
  mu : list R;
  alpha : R;
  shape : nat;
  observed : list float64
}.

(** [x.reshape((nORs * nDs,))[idx]] of a symbolic matrix *)
Definition select (x : nat → nat → R) (n : nat) (idx : IndexArray) : list R :=
  (λ i, x (i / n)%nat (i mod n)%nat) <$> elems idx.

(** The argument [observed=] of [ObservedDeaths]: a NumPy expression,
    evaluated when the node is declared.  The learned-noise branch reads
    [self.d.NewDeaths.data], the fixed-noise branch
    [self.d.NewDeaths.data[:, self.CMDelayCut:]]. *)
Definition ObservedDeaths_observed (a : Args) (m : Model) (ds : Dataset)
  : result (list float64) :=
  match all_observed_deaths m with
  | None => Raise AttributeError
  | Some idx =>
      match deaths_noise a with
      | None =>
          flat ← reshape_flat (data (NewDeaths ds)) (nORs m * nDs ds);
          take_idx flat idx
      | Some _ =>
          flat ← reshape_flat (drop_cols CMDelayCut (data (NewDeaths ds)))
                   (nORs m * nDs ds);
          take_idx flat idx
      end
  end.

(** The declaration of the node [ObservedDeaths] of
    [CMCombined_Final.build_model], once the code has got there
    ([build_model] below puts [ObservedCases] before it).  [mu] is
    symbolic; the node exists once [observed=] has been evaluated. *)
Definition ObservedDeaths (a : Args) (θ : Draw) (m : Model) (ds : Dataset)
  : result Likelihood :=
  match all_observed_deaths m with
  | None => Raise AttributeError
  | Some idx =>
      obs ← ObservedDeaths_observed a m ds;
      Ok {| mu := select (ExpectedDeaths a θ ds) (nDs ds) idx;
            alpha := match deaths_noise a with None => Phi θ | Some x => x end;
            shape := length (elems idx);
            observed := obs |}
  end.

(** The argument [observed=] of [ObservedCases]: both branches, learned
    and fixed [conf_noise], read [self.d.NewCases.data]. *)
Definition ObservedCases_observed (a : Args) (m : Model) (ds : Dataset)
  : result (list float64) :=
  match all_observed_active m with
  | None => Raise AttributeError
  | Some idx =>
      match conf_noise a with
      | None =>
          flat ← reshape_flat (data (NewCases ds)) (nORs m * nDs ds);
          take_idx flat idx
      | Some _ =>
          flat ← reshape_flat (data (NewCases ds)) (nORs m * nDs ds);
          take_idx flat idx
      end
  end.

(** The node [ObservedCases] of [CMCombined_Final.build_model]. *)
Definition ObservedCases (a : Args) (θ : Draw) (m : Model) (ds : Dataset)
  : result Likelihood :=
  match all_observed_active m with
  | None => Raise AttributeError
  | Some idx =>
      obs ← ObservedCases_observed a m ds;
      Ok {| mu := select (ExpectedCases a θ ds) (nDs ds) idx;
            alpha := match conf_noise a with None => Phi θ | Some x => x end;
            shape := length (elems idx);
            observed := obs |}
  end.

(** The two likelihoods of [CMCombined_Final.build_model] in the order of
    the code: [ObservedCases] is declared first, and an exception there
    leaves [ObservedDeaths] undeclared. *)
Definition build_model (a : Args) (θ : Draw) (m : Model) (ds : Dataset)
  : result (Likelihood * Likelihood) :=
  oc ← ObservedCases a θ m ds;
  od ← ObservedDeaths a θ m ds;
  Ok (oc, od).

(** *** The renewal loop of [CMCombined_Final_ICL.build_model] *)









(** A draw whose [RegionR] is 1 under the default arguments. *)
Definition unit_R_draw : Draw :=
  {| CM_Alpha := λ _, 0; AllBeta := λ _, 0; HyperRVar := 1;
     RegionLogR_noise := λ _, -2.25;
     GrowthCasesNoise := λ _ _, 0; GrowthDeathsNoise := λ _ _, 0;
     InitialSizeCases_log := λ _, 0; InitialSizeDeaths_log := λ _, 0;
     Phi := 1; LogR := λ _ _ _, 0; InitialSize_log := λ _ _, 0;
     AllCMAlpha := λ _ _, 0 |}.

End Build.

(** ** The infection curves in float64 *)

(** The nodes above are functions over the reals.  What follows is the
    part of [CMCombined_Final.build_model] from the exponentiation to the
    likelihood means with the range of float64: a result beyond the
    largest finite float64 is an infinity, a result below half the
    smallest positive one is zero, and infinities and NaN propagate as IEEE
    754 says.  The rounding of a finite result to 53 bits is left out, and
    so is the sign of zero. *)

Module Float64.
Import Build.
Local Open Scope R_scope.

Inductive f64 := finite (x : R) | pos_inf | neg_inf | nan.

Definition is_finite (a : f64) : Prop := ∃ x, a = finite x.

(** The largest finite float64, and half the smallest positive one. *)
Definition max_float : R := (2 - / 2 ^ 52) * 2 ^ 1023.
Definition min_half : R := / 2 ^ 1075.

(** The float64 for an exact result [x]. *)
Definition round (x : R) : f64 :=
  if Rlt_dec max_float x then pos_inf
  else if Rlt_dec x (- max_float) then neg_inf
  else if Rlt_dec (Rabs x) min_half then finite 0
  else finite x.

(** [a + b] *)
Definition add (a b : f64) : f64 :=
  match a, b with
  | nan, _ | _, nan => nan
  | pos_inf, neg_inf | neg_inf, pos_inf => nan
  | pos_inf, _ | _, pos_inf => pos_inf
  | neg_inf, _ | _, neg_inf => neg_inf
  | finite x, finite y => round (x + y)
  end.

(** The product of an infinity of sign [s] with the finite [x]: NaN when
    [x] is zero. *)
Definition inf_times (positive : bool) (x : R) : f64 :=
  if Rlt_dec 0 x then (if positive then pos_inf else neg_inf)
  else if Rlt_dec x 0 then (if positive then neg_inf else pos_inf)
  else nan.

(** [a * b] *)
Definition mul (a b : f64) : f64 :=
  match a, b with
  | nan, _ | _, nan => nan
  | finite x, finite y => round (x * y)
  | pos_inf, finite x | finite x, pos_inf => inf_times true x
  | neg_inf, finite x | finite x, neg_inf => inf_times false x
  | pos_inf, pos_inf | neg_inf, neg_inf => pos_inf
  | pos_inf, neg_inf | neg_inf, pos_inf => neg_inf
  end.

(** [exp(a)] *)
Definition exp64 (a : f64) : f64 :=
  match a with
  | nan => nan
  | pos_inf => pos_inf
  | neg_inf => finite 0
  | finite x => round (exp x)
  end.

(** The sum of the first [n] entries, from the first on. *)
Fixpoint sum (n : nat) (f : nat → f64) : f64 :=
  match n with
  | O => finite 0
  | S k => add (sum k f) (f k)
  end.

(** [x.cumsum(axis=1)] at column [d] *)
Definition cumsum (x : nat → f64) (d : nat) : f64 := sum (S d) x.

(** [C.conv2d(x, k, border_mode="full")[:, :n]] at a column [t < n] of one
    row: the products [x[t - j] * k[j]] with [j <= t] and [j] inside the
    kernel.  The order of the additions is the implementation's; a sum with
    a NaN term is NaN in every order. *)
Definition conv_full (x : nat → f64) (k : list R) (t : nat) : f64 :=
  sum (S t `min` length k) (λ j, mul (x (t - j)%nat) (finite (nth j k 0))).

(** [pm.math.exp(self.InitialSizeCases_log + self.GrowthCases.cumsum(axis=1))]
    for values of the two parent nodes, and the same for deaths. *)
Definition InfectedCases (InitialSizeCases_log : nat → f64)
    (GrowthCases : nat → nat → f64) (r d : nat) : f64 :=
  exp64 (add (InitialSizeCases_log r) (cumsum (GrowthCases r) d)).

Definition InfectedDeaths (InitialSizeDeaths_log : nat → f64)
    (GrowthDeaths : nat → nat → f64) (r d : nat) : f64 :=
  exp64 (add (InitialSizeDeaths_log r) (cumsum (GrowthDeaths r) d)).

Definition ExpectedCases (InitialSizeCases_log : nat → f64)
    (GrowthCases : nat → nat → f64) (r d : nat) : f64 :=
  conv_full (InfectedCases InitialSizeCases_log GrowthCases r) DelayProbCases d.

Definition ExpectedDeaths (InitialSizeDeaths_log : nat → f64)
    (GrowthDeaths : nat → nat → f64) (r d : nat) : f64 :=
  conv_full (InfectedDeaths InitialSizeDeaths_log GrowthDeaths r) DelayProbDeaths d.

(** The argument [mu=] of a likelihood:
    [x.reshape((self.nORs * self.nDs,))[idx]]. *)
Definition mu_of (x : nat → nat → f64) (n : nat) (idx : IndexArray) : list f64 :=
  (λ i, x (i / n)%nat (i mod n)%nat) <$> elems idx.

(** What a clamp before use would give on [ds]: whatever finite values the
    initial sizes and the growth rates take, every mean of the two
    likelihoods of [CMCombined_Final] is a finite number. *)
Definition means_finite (ds : Dataset) : Prop :=
  ∀ m ds' (isl : nat → R) (growth : nat → nat → R),
    init CMCombined_Final ds = Ok (m, ds') →
    (∀ idx, all_observed_active m = Some idx →
       Forall is_finite
         (mu_of (ExpectedCases (λ r, finite (isl r)) (λ r d, finite (growth r d)))
                (nDs ds') idx))
    ∧ (∀ idx, all_observed_deaths m = Some idx →
         Forall is_finite
           (mu_of (ExpectedDeaths (λ r, finite (isl r)) (λ r d, finite (growth r d)))
                  (nDs ds') idx)).

End Float64.

Import Build.

(** * Further parts of the module *)

(** ** The observed counts handed to the likelihoods *)

(** [self.d.New.data.reshape((self.nORs * self.nDs,))[idx]]: the
    expression for [observed=] in every class but the ICL one, where [idx]
    is the index list of the channel.  The array is reshaped before the
    index list is looked up. *)
Definition observed_counts (ch : channel) (m : Model) (ds : Dataset)
  : result (list float64) :=
  flat ← reshape_flat (data (New ch ds)) (nORs m * nDs ds);
  match observed_index m ch with
  | None => Raise AttributeError
  | Some idx => take_idx flat idx
  end.

(** [self.d.New.data[:, self.CMDelayCut:].reshape((self.nORs * self.nODs,))[idx]],
    the two [pm.Data] nodes of [CMCombined_Final_ICL.build_model]. *)
Definition ICL_observed_counts (ch : channel) (m : Model) (ds : Dataset)
  : result (list float64) :=
  flat ← reshape_flat (drop_cols CMDelayCut (data (New ch ds))) (nORs m * nODs m);
  match observed_index m ch with
  | None => Raise AttributeError
  | Some idx => take_idx flat idx
  end.

(** The index list a constructor of class [v] builds for a channel, as a
    filter of the flat indices of the array it indexes. *)
Definition index_list (v : Variant) (ch : channel) (ds : Dataset) : list nat :=
  if decide (v = CMCombined_Final_ICL)
  then observed_upto_ICL ch ds (nRs ds * nODs_of ds)
  else observed_upto ch (trailing ch) ds (nRs ds * nDs ds).

(** The number of columns of the array the index list of class [v] refers
    to: the observed days in the ICL class, all days otherwise. *)
Definition index_width (v : Variant) (ds : Dataset) : nat :=
  if decide (v = CMCombined_Final_ICL) then nODs_of ds else nDs ds.

(** ** More nodes of [build_model] *)

Section more_nodes.
Local Open Scope R_scope.

(** The product over an axis of length [n]. *)
Fixpoint big_prod (n : nat) (f : nat → R) : R :=
  match n with
  | O => 1
  | S k => big_prod k f * f k
  end.

End more_nodes.

(** *** [CMCombined_Final_DifDelays.build_model] *)

Module DifDelays.
Local Open Scope R_scope.

Definition DelayProbCasesShort : list R :=
  [0; 0.04086903; 0.05623389; 0.07404812; 0.08464692;
   0.08861931; 0.08750149; 0.08273123; 0.07575679; 0.06766597;
   0.05910415; 0.05093048; 0.04321916; 0.03622008; 0.03000523;
   0.02472037; 0.02016809; 0.01637281; 0.01318903; 0.01057912;
   0.00844349; 0.0067064; 0.00529629; 0.00416558; 0.00327265;
   0.00255511; 0.00200011; 0.00155583; 0.00120648; 0.00093964;
   0.00072111; 0.00055606].

Definition DelayProbCasesLong : list R :=
  [0; 0.01690821; 0.02602795; 0.03772294; 0.0474657;
   0.05484009; 0.05969648; 0.06231737; 0.06292536; 0.0619761;
   0.05983904; 0.05677383; 0.05311211; 0.04914501; 0.04502909;
   0.04085248; 0.03682251; 0.03290895; 0.02924259; 0.02585378;
   0.02274018; 0.01993739; 0.01739687; 0.01511531; 0.01309569;
   0.01130081; 0.00972391; 0.00832998; 0.00716289; 0.00610338;
   0.00520349; 0.00443053].

(** [C.conv2d(self.InfectedCases, self.DelayProbCases,
     border_mode="full")[:, :, :self.nDs]] with the stacked filters: plane 0
    is the convolution with the short delay, plane 1 with the long one. *)
Definition expected_cases (InfectedCases : nat → nat → R) (c r t : nat) : R :=
  conv_full (InfectedCases r)
    (match c with O => DelayProbCasesShort | _ => DelayProbCasesLong end) t.

(** [x[rs, :]]: row [k] of the result is row [rs[k]] of [x]. *)
Definition take_rows (x : nat → nat → R) (rs : list nat) : nat → nat → R :=
  λ k d, match rs !! k with Some r => x r d | None => 0 end.

(** [T.set_subtensor(x[rs, :], y)]: row [rs[k]] becomes row [k] of [y], for
    [k] from [k0] on; a row written twice keeps the last value. *)
Fixpoint set_rows_from (k0 : nat) (x : nat → nat → R) (rs : list nat)
    (y : nat → nat → R) : nat → nat → R :=
  match rs with
  | [] => x
  | r :: rs' =>
      set_rows_from (S k0) (λ r' d, if decide (r' = r) then y k0 d else x r' d) rs' y
  end.

Definition set_subtensor_rows (x : nat → nat → R) (rs : list nat)
    (y : nat → nat → R) : nat → nat → R :=
  set_rows_from 0 x rs y.

(** The node [ExpectedCases], for a value of the node [InfectedCases]:
<<
    expected_cases_temp = T.zeros_like(self.InfectedCases)
    expected_cases_temp = T.set_subtensor(expected_cases_temp[self.short_rs, :],
                                          expected_cases[0, self.short_rs, :]...)
    expected_cases_temp = T.set_subtensor(expected_cases_temp[self.long_rs, :],
                                          expected_cases[1, self.long_rs, :]...)
>> *)
Definition ExpectedCases (short_rs long_rs : list nat)
    (InfectedCases : nat → nat → R) : nat → nat → R :=
  let expected_cases_temp := λ _ _ : nat, 0 in
  let expected_cases_temp :=
    set_subtensor_rows expected_cases_temp short_rs
      (take_rows (expected_cases InfectedCases 0) short_rs) in
  set_subtensor_rows expected_cases_temp long_rs
    (take_rows (expected_cases InfectedCases 1) long_rs).

End DifDelays.

(** ** More example data *)



(** * Proofs *)

(** ** The exception monad *)

Lemma bind_Ok {A B : Type} (a : A) (k : A → result B) : (Ok a ≫= k) = k a.
Proof. reflexivity. Qed.


(** A loop that starts in an invariant and whose body maintains it runs to
    completion and ends in it. *)
Lemma for_each_inv {S : Type} (I : nat → S → Prop) (body : nat → S → result S)
    (len a : nat) (s : S) :
  I a s →
  (∀ i t, a ≤ i < a + len → I i t → ∃ t', body i t = Ok t' ∧ I (Datatypes.S i) t') →
  ∃ s', for_each (seq a len) body s = Ok s' ∧ I (a + len) s'.
Proof.
  revert a s. induction len as [|len IH]; intros a s Ha Hstep; simpl.
  - exists s. by rewrite Nat.add_0_r.
  - destruct (Hstep a s) as (t & -> & Ht); [lia | done |].
    rewrite bind_Ok.
    destruct (IH (Datatypes.S a) t) as (s' & Hs' & HI); [done | |].
    + intros i u Hi. apply Hstep. lia.
    + exists s'. split; [done |]. by replace (a + Datatypes.S len) with (Datatypes.S a + len) by lia.
Qed.

(** ** Cells of rectangular arrays *)

Section cells.
Context {A : Type}.
Implicit Types (a : list (list A)) (row : list A).

Lemma cell_Some_shape n m a r d :
  shape2 n m a → r < n → d < m → ∃ x, cell a r d = Some x.
Proof.
  intros [Hn Hrows] Hr Hd. unfold cell.
  destruct (lookup_lt_is_Some_2 a r) as [row Hrow]; [lia |].
  rewrite Hrow. simpl.
  apply lookup_lt_is_Some_2.
  rewrite Forall_lookup in Hrows. rewrite (Hrows _ _ Hrow). done.
Qed.

Lemma get2_cell a r d x : cell a r d = Some x → get2 a r d = Ok x.
Proof.
  unfold cell, get2. destruct (a !! r) as [row|]; simpl; [|done].
  by intros ->.
Qed.

Lemma set2_cell a r d x y :
  cell a r d = Some y →
  ∃ a', set2 a r d x = Ok a'
    ∧ (∀ n m, shape2 n m a → shape2 n m a')
    ∧ ∀ r' d', cell a' r' d' =
        if decide (r' = r ∧ d' = d) then Some x else cell a r' d'.
Proof.
  unfold cell, set2. destruct (a !! r) as [row|] eqn:Hrow; simpl; [|done].
  intros Hd. apply lookup_lt_Some in Hd as Hlt.
  rewrite decide_True by done. eexists. split; [done |]. split.
  - intros n m [Hn Hrows]. split; [by rewrite length_insert |].
    apply Forall_insert; [done |]. rewrite length_insert.
    rewrite Forall_lookup in Hrows. by apply (Hrows _ _ Hrow).
  - intros r' d'. apply lookup_lt_Some in Hrow as Hr.
    destruct (decide (r' = r)) as [-> | Hne].
    + rewrite list_lookup_insert_eq by done. simpl.
      destruct (decide (d' = d)) as [-> | Hne'].
      * rewrite decide_True by done. by rewrite list_lookup_insert_eq.
      * rewrite decide_False by (intros [_ ?]; done).
        rewrite list_lookup_insert_ne by done. by rewrite Hrow.
    + rewrite decide_False by (intros [? _]; done).
      by rewrite list_lookup_insert_ne.
Qed.

(** Arrays of one shape with the same cells are equal. *)
Lemma shape2_ext n m a b :
  shape2 n m a → shape2 n m b →
  (∀ r d, r < n → d < m → cell a r d = cell b r d) → a = b.
Proof.
  intros [Ha Hra] [Hb Hrb] Heq. apply (list_eq_same_length _ _ n); [done..|].
  intros r x y Hr Hx Hy.
  rewrite Forall_lookup in Hra. rewrite Forall_lookup in Hrb.
  apply (list_eq_same_length _ _ m); [by eapply Hrb | by eapply Hra |].
  intros d u v Hd Hu Hv.
  specialize (Heq r d Hr Hd). unfold cell in Heq.
  rewrite Hx, Hy in Heq. simpl in Heq. congruence.
Qed.

Lemma length_concat_shape n m a : shape2 n m a → length (concat a) = n * m.
Proof.
  intros [<- Hrows]. induction Hrows as [|row a Hrow _ IH]; [done |].
  simpl. rewrite length_app. lia.
Qed.
End cells.

(** ** Replacing a mask *)

Lemma New_set_mask ch ds mk :
  New ch (set_mask ch ds mk) = mkMaskedArray (data (New ch ds)) mk.
Proof. by destruct ch. Qed.

Lemma Cumulative_set_mask ch ch' ds mk :
  Cumulative ch' (set_mask ch ds mk) = Cumulative ch' ds.
Proof. by destruct ch, ch'. Qed.

Lemma nDs_set_mask ch ds mk : nDs (set_mask ch ds mk) = nDs ds.
Proof. by destruct ch. Qed.

Lemma nRs_set_mask ch ds mk : nRs (set_mask ch ds mk) = nRs ds.
Proof. by destruct ch. Qed.

Lemma set_mask_set_mask ch ds mk mk' :
  set_mask ch (set_mask ch ds mk) mk' = set_mask ch ds mk'.
Proof. by destruct ch. Qed.

Lemma set_mask_id ch ds : set_mask ch ds (mask (New ch ds)) = ds.
Proof. destruct ch, ds as [? ? ? ? [] [] ? ?]; reflexivity. Qed.

Lemma New_set_mask_other ch ch' ds mk : ch ≠ ch' → New ch' (set_mask ch ds mk) = New ch' ds.
Proof. by destruct ch, ch'. Qed.

(** ** Flat indices *)

Lemma flat_div n r d : d < n → (r * n + d) / n = r.
Proof. intros. rewrite Nat.div_add_l by lia. rewrite Nat.div_small by done. lia. Qed.

Lemma flat_mod n r d : d < n → (r * n + d) mod n = d.
Proof.
  intros. rewrite Nat.add_comm, Nat.Div0.mod_add. by apply Nat.mod_small.
Qed.

Lemma flat_lt_S n r d r' d' :
  d < n → d' < n →
  r' * n + d' < S (r * n + d) ↔ r' * n + d' < r * n + d ∨ (r' = r ∧ d' = d).
Proof.
  intros Hd Hd'. split; [|intros [?|[-> ->]]; lia]. intros Hlt.
  destruct (Nat.lt_trichotomy r' r) as [Hr | [-> | Hr]].
  - left. assert (S r' * n ≤ r * n) by (apply Nat.mul_le_mono_r; lia). lia.
  - lia.
  - assert (S r * n ≤ r' * n) by (apply Nat.mul_le_mono_r; lia). lia.
Qed.

Lemma observed_upto_S ch trail ds k :
  observed_upto ch trail ds (S k) =
  observed_upto ch trail ds k
  ++ (if included ch trail ds (k / nDs ds) (k mod nDs ds) then [k] else []).
Proof.
  unfold observed_upto. rewrite seq_S, list.filter_app. f_equal. simpl.
  destruct (included _ _ _ _ _) eqn:E.
  - rewrite filter_cons_True by done. done.
  - rewrite filter_cons_False by (rewrite E; done). done.
Qed.

(** ** One cell *)

Lemma observe_cell_inv ch trail remask ds0 r d st :
  shape2 (nRs ds0) (nDs ds0) (data (Cumulative ch ds0)) →
  shape2 (nRs ds0) (nDs ds0) (mask (New ch ds0)) →
  r < nRs ds0 → d < nDs ds0 →
  loop_inv ch trail remask ds0 (r * nDs ds0 + d) st →
  ∃ st', observe_cell ch trail remask r d st = Ok st'
    ∧ loop_inv ch trail remask ds0 (S (r * nDs ds0 + d)) st'.
Proof.
  intros Hcum Hmask Hr Hd (mk & Hds & Hshape & Hobs & Hcells).
  destruct st as [obs ds]. simpl in Hds, Hobs. subst ds.
  destruct (cell_Some_shape _ _ _ r d Hmask Hr Hd) as [m Hm].
  destruct (cell_Some_shape _ _ _ r d Hcum Hr Hd) as [x Hx].
  assert (Hinc : included ch trail ds0 r d
    = bool_decide (m = false) && bool_decide (CMDelayCut < d) && negb (isnan x)
      && (negb trail || bool_decide (Z.of_nat d < Z.of_nat (nDs ds0) - 7)%Z)).
  { unfold included. by rewrite Hm, Hx. }
  assert (Hmk : cell mk r d = Some m).
  { rewrite Hcells by done. unfold masked_upto. rewrite Hm. simpl.
    by rewrite decide_False by lia. }
  unfold observe_cell.
  rewrite New_set_mask, Cumulative_set_mask, nDs_set_mask. simpl.
  rewrite (get2_cell _ _ _ _ Hmk), bind_Ok.
  rewrite (get2_cell _ _ _ _ Hx).
  remember (included ch trail ds0 r d) as c eqn:Ec.
  assert (Hc : (if bool_decide (m = false) && bool_decide (CMDelayCut < d)
            then Ok x ≫= λ x0, Ok (negb (isnan x0)
                  && (negb trail || bool_decide (Z.of_nat d < Z.of_nat (nDs ds0) - 7)%Z))
            else Ok false) = Ok c).
  { rewrite Hinc.
    by destruct (bool_decide (m = false)), (bool_decide (CMDelayCut < d)). }
  rewrite Hc, bind_Ok.
  assert (Hupto : observed_upto ch trail ds0 (S (r * nDs ds0 + d))
            = obs ++ (if c then [r * nDs ds0 + d] else [])).
  { rewrite observed_upto_S, flat_div, flat_mod by done. by rewrite Hobs, Ec. }
  destruct c.
  - (* the index is appended, the mask is left alone *)
    eexists. split; [done |]. exists mk. simpl.
    split; [done |]. split; [done |]. split; [by rewrite Hupto |].
    intros r' d' Hr' Hd'. rewrite Hcells by done. unfold masked_upto.
    destruct (cell (mask (New ch ds0)) r' d') as [b|]; simpl; [|done]. f_equal.
    destruct (decide (r' * nDs ds0 + d' < r * nDs ds0 + d)).
    + rewrite decide_True by lia. done.
    + destruct (decide (r' * nDs ds0 + d' < S (r * nDs ds0 + d))) as [Hlt|]; [|done].
      destruct (proj1 (flat_lt_S _ _ _ _ _ Hd Hd') Hlt) as [? | [-> ->]]; [lia |].
      rewrite <- Ec. simpl. by rewrite andb_false_r, orb_false_r.
  - destruct remask.
    + (* the cell is masked *)
      destruct (set2_cell mk r d true m Hmk) as (mk' & -> & Hshape' & Hcells').
      rewrite bind_Ok. eexists. split; [done |]. exists mk'. simpl.
      rewrite set_mask_set_mask.
      split; [done |]. split; [by apply Hshape' |].
      split; [rewrite Hupto; by rewrite app_nil_r |].
      intros r' d' Hr' Hd'. rewrite Hcells'. unfold masked_upto.
      destruct (decide (r' = r ∧ d' = d)) as [[-> ->] | Hne].
      * rewrite Hm. simpl. rewrite decide_True by lia. rewrite <- Ec. simpl.
        by rewrite orb_true_r.
      * rewrite Hcells by done. unfold masked_upto.
        destruct (cell (mask (New ch ds0)) r' d') as [b|]; simpl; [|done]. f_equal.
        destruct (decide (r' * nDs ds0 + d' < r * nDs ds0 + d)).
        -- rewrite decide_True by lia. done.
        -- rewrite decide_False; [done |]. rewrite flat_lt_S by done. tauto.
    + (* the day is only skipped *)
      eexists. split; [done |]. exists mk. simpl.
      split; [done |]. split; [done |].
      split; [rewrite Hupto; by rewrite app_nil_r |].
      intros r' d' Hr' Hd'. rewrite Hcells by done. unfold masked_upto.
      destruct (cell (mask (New ch ds0)) r' d') as [b|]; simpl; [|done]. f_equal.
      repeat case_decide; try done; by rewrite ?orb_false_r.
Qed.

(** ** The two nested loops *)

Lemma loop_inv_start ch trail remask ds0 :
  shape2 (nRs ds0) (nDs ds0) (mask (New ch ds0)) →
  loop_inv ch trail remask ds0 0 ([], ds0).
Proof.
  intros Hmask. exists (mask (New ch ds0)). simpl.
  split; [by rewrite set_mask_id |]. split; [done |]. split; [done |].
  intros r d _ _. unfold masked_upto.
  destruct (cell (mask (New ch ds0)) r d); [|done].
  reflexivity.
Qed.

Lemma loop_inv_nDs ch trail remask ds0 k st :
  loop_inv ch trail remask ds0 k st → nDs (st.2) = nDs ds0.
Proof. intros (mk & -> & _). apply nDs_set_mask. Qed.

Lemma observe_loop_inv ch trail remask ds0 :
  shape2 (nRs ds0) (nDs ds0) (data (Cumulative ch ds0)) →
  shape2 (nRs ds0) (nDs ds0) (mask (New ch ds0)) →
  ∃ st, observe_loop ch trail remask ds0 = Ok st
    ∧ loop_inv ch trail remask ds0 (nRs ds0 * nDs ds0) st.
Proof.
  intros Hcum Hmask. unfold observe_loop, for_range.
  apply (for_each_inv (λ r st, loop_inv ch trail remask ds0 (r * nDs ds0) st)
           _ (nRs ds0) 0).
  - by apply loop_inv_start.
  - intros r st [_ Hr] Hinv. simpl in Hr.
    rewrite (loop_inv_nDs _ _ _ _ _ _ Hinv).
    replace (S r * nDs ds0) with (r * nDs ds0 + nDs ds0) by lia.
    destruct (for_each_inv
      (λ d st', loop_inv ch trail remask ds0 (r * nDs ds0 + d) st')
      (λ d st', observe_cell ch trail remask r d st') (nDs ds0) 0 st)
      as (st' & Hst' & Hinv').
    + by rewrite Nat.add_0_r.
    + intros d t [_ Hd] Ht. simpl in Hd.
      replace (r * nDs ds0 + S d) with (S (r * nDs ds0 + d)) by lia.
      by apply observe_cell_inv.
    + exists st'. split; [done |]. by rewrite Nat.add_0_l in Hinv'.
Qed.

(** What the loops leave behind: the list of passing flat indices, in
    order, and the mask with every failing cell set where the class
    re-masks. *)
Lemma observe_loop_spec ch trail remask ds0 :
  shape2 (nRs ds0) (nDs ds0) (data (Cumulative ch ds0)) →
  shape2 (nRs ds0) (nDs ds0) (mask (New ch ds0)) →
  ∃ mk, observe_loop ch trail remask ds0
        = Ok (observed_upto ch trail ds0 (nRs ds0 * nDs ds0), set_mask ch ds0 mk)
    ∧ shape2 (nRs ds0) (nDs ds0) mk
    ∧ ∀ r d, r < nRs ds0 → d < nDs ds0 →
        cell mk r d =
        (λ b : bool, b || (remask && negb (included ch trail ds0 r d)))
          <$> cell (mask (New ch ds0)) r d.
Proof.
  intros Hcum Hmask.
  destruct (observe_loop_inv ch trail remask ds0 Hcum Hmask)
    as ([obs ds] & Hrun & mk & Hds & Hshape & Hobs & Hcells).
  simpl in Hds, Hobs. subst. exists mk. split; [done |]. split; [done |].
  intros r d Hr Hd. rewrite Hcells by done. unfold masked_upto.
  destruct (cell (mask (New ch ds0)) r d); simpl; [|done].
  rewrite decide_True; [done |].
  assert (S r * nDs ds0 ≤ nRs ds0 * nDs ds0) by (apply Nat.mul_le_mono_r; lia). lia.
Qed.

Lemma elem_of_observed_upto ch trail ds k i :
  i ∈ observed_upto ch trail ds k
  ↔ i < k ∧ included ch trail ds (i / nDs ds) (i mod nDs ds) = true.
Proof.
  unfold observed_upto. rewrite list_elem_of_filter, elem_of_seq.
  split; intros [? ?]; (split; [done || lia | done || lia]).
Qed.

Lemma elem_of_observed_cell ch trail ds r d :
  r < nRs ds → d < nDs ds →
  r * nDs ds + d ∈ observed_upto ch trail ds (nRs ds * nDs ds)
  ↔ included ch trail ds r d = true.
Proof.
  intros Hr Hd. rewrite elem_of_observed_upto, flat_div, flat_mod by done.
  split; [by intros [_ ?] |]. intros Hinc. split; [|done].
  assert (S r * nDs ds ≤ nRs ds * nDs ds) by (apply Nat.mul_le_mono_r; lia). lia.
Qed.

(** ** The inclusion rule *)

Lemma in_likelihood_included ch ds r d :
  in_likelihood ch ds r d ↔ included ch (trailing ch) ds r d = true.
Proof.
  unfold in_likelihood, included. split.
  - intros (-> & Hcut & [q ->] & Htrail). simpl.
    rewrite (bool_decide_eq_true_2 (CMDelayCut < d)) by done.
    simpl. destruct ch; simpl; [|done]. by rewrite bool_decide_eq_true_2 by auto.
  - destruct (cell (mask (New ch ds)) r d) as [m|]; [|done].
    destruct (cell (data (Cumulative ch ds)) r d) as [x|]; [|done].
    rewrite !andb_true_iff, !bool_decide_eq_true. intros [[[-> Hcut] Hx] Htrail].
    split; [done |]. split; [done |]. split.
    + destruct x; [done | by eexists].
    + intros ->. simpl in Htrail. by rewrite bool_decide_eq_true in Htrail.
Qed.

Lemma included_set_mask_other ch ch' trail ds mk r d :
  ch ≠ ch' →
  included ch' trail (set_mask ch ds mk) r d = included ch' trail ds r d.
Proof.
  intros Hne. unfold included.
  by rewrite New_set_mask_other, Cumulative_set_mask, nDs_set_mask.
Qed.

Lemma observed_upto_set_mask_other ch ch' trail ds mk k :
  ch ≠ ch' →
  observed_upto ch' trail (set_mask ch ds mk) k = observed_upto ch' trail ds k.
Proof.
  intros Hne. unfold observed_upto. rewrite nDs_set_mask.
  apply list_filter_iff. intros i. by rewrite included_set_mask_other.
Qed.

Lemma channel_shaped_wf ch ds : wf_dataset ds → channel_shaped ch ds.
Proof.
  intros (_ & [_ ?] & [_ ?] & [? _] & [? _]). by destruct ch.
Qed.

Lemma channel_shaped_set_mask_other ch ch' ds mk :
  ch ≠ ch' → channel_shaped ch' ds → channel_shaped ch' (set_mask ch ds mk).
Proof.
  intros Hne [? ?]. unfold channel_shaped.
  by rewrite New_set_mask_other, Cumulative_set_mask, nDs_set_mask, nRs_set_mask.
Qed.

Lemma channel_shaped_set_mask ch ds mk :
  shape2 (nRs ds) (nDs ds) mk → channel_shaped ch ds →
  channel_shaped ch (set_mask ch ds mk).
Proof.
  intros Hmk [? ?]. unfold channel_shaped.
  by rewrite New_set_mask, Cumulative_set_mask, nDs_set_mask, nRs_set_mask.
Qed.

Lemma channel_shaped_set_ActiveCMs ch ds a :
  channel_shaped ch ds → channel_shaped ch (set_ActiveCMs ds a).
Proof. by destruct ch. Qed.

(** ** The loops of one constructor, run on a well-formed dataset *)

(** What [observe_loop] computes, in terms of the rule. *)
Lemma observe_loop_rule ch remask ds :
  channel_shaped ch ds →
  ∃ mk, observe_loop ch (trailing ch) remask ds
        = Ok (observed_upto ch (trailing ch) ds (nRs ds * nDs ds), set_mask ch ds mk)
    ∧ shape2 (nRs ds) (nDs ds) mk
    ∧ (∀ r d, r < nRs ds → d < nDs ds →
         (r * nDs ds + d ∈ observed_upto ch (trailing ch) ds (nRs ds * nDs ds)
          ↔ in_likelihood ch ds r d)
         ∧ cell mk r d =
           (λ b : bool, b || (remask && negb (included ch (trailing ch) ds r d)))
             <$> cell (mask (New ch ds)) r d).
Proof.
  intros [Hcum Hmask].
  destruct (observe_loop_spec ch (trailing ch) remask ds Hcum Hmask)
    as (mk & Hrun & Hshape & Hcells).
  exists mk. split; [done |]. split; [done |].
  intros r d Hr Hd. split; [|by apply Hcells].
  by rewrite elem_of_observed_cell, in_likelihood_included.
Qed.

(** A loop that does not write the mask returns the dataset as it got it. *)
Lemma observe_loop_keep ch ds :
  channel_shaped ch ds →
  observe_loop ch (trailing ch) false ds
  = Ok (observed_upto ch (trailing ch) ds (nRs ds * nDs ds), ds).
Proof.
  intros Hsh. pose proof Hsh as [_ Hmask].
  destruct (observe_loop_rule ch false ds Hsh) as (mk & -> & Hshape & Hcells).
  do 2 f_equal. rewrite <- (set_mask_id ch ds) at 2. f_equal.
  apply (shape2_ext (nRs ds) (nDs ds)); [done.. |].
  intros r d Hr Hd. destruct (Hcells r d Hr Hd) as [_ ->].
  destruct (cell (mask (New ch ds)) r d) as [b|]; [|done].
  simpl. by rewrite orb_false_r.
Qed.

(** The test of a cell is the same before and after the loop has written
    the mask. *)
Lemma included_remasked ch trail ds mk r d :
  cell mk r d =
    (λ b : bool, b || (true && negb (included ch trail ds r d)))
      <$> cell (mask (New ch ds)) r d →
  included ch trail (set_mask ch ds mk) r d = included ch trail ds r d.
Proof.
  intros Hmk. remember (included ch trail ds r d) as inc eqn:Hinc.
  unfold included in *.
  rewrite New_set_mask, Cumulative_set_mask, nDs_set_mask. simpl. rewrite Hmk.
  destruct (cell (mask (New ch ds)) r d) as [b|]; [|by subst].
  simpl. destruct (cell (data (Cumulative ch ds)) r d) as [x|]; [|by subst].
  subst inc. destruct b; [done |]. simpl.
  by destruct (bool_decide (CMDelayCut < d)), (isnan x),
       (negb trail || bool_decide (Z.of_nat d < Z.of_nat (nDs ds) - 7)%Z).
Qed.

Lemma list_filter_iff_elem {A : Type} (P Q : A → Prop)
    `{!∀ x, Decision (P x), !∀ x, Decision (Q x)} (l : list A) :
  (∀ x, x ∈ l → P x ↔ Q x) → filter P l = filter Q l.
Proof.
  induction l as [|x l IH]; intros Heq; [done |].
  assert (Htl : filter P l = filter Q l) by (apply IH; intros; apply Heq; by right).
  destruct (decide (P x)) as [HP | HP].
  - rewrite !filter_cons_True; [by f_equal | | done]. apply Heq; [by left | done].
  - rewrite !filter_cons_False; [done | | done]. rewrite <- Heq; [done | by left].
Qed.

(** Running the loop again on the dataset it has written changes nothing. *)
Lemma observe_loop_again ch ds mk :
  channel_shaped ch ds →
  shape2 (nRs ds) (nDs ds) mk →
  (∀ r d, r < nRs ds → d < nDs ds →
     cell mk r d =
       (λ b : bool, b || (true && negb (included ch (trailing ch) ds r d)))
         <$> cell (mask (New ch ds)) r d) →
  observe_loop ch (trailing ch) true (set_mask ch ds mk)
  = Ok (observed_upto ch (trailing ch) ds (nRs ds * nDs ds), set_mask ch ds mk).
Proof.
  intros Hsh Hmk Hcells.
  destruct (observe_loop_rule ch true (set_mask ch ds mk)) as (mk2 & -> & Hshape2 & Hcells2);
    [by apply channel_shaped_set_mask |].
  rewrite nRs_set_mask, nDs_set_mask in *. rewrite set_mask_set_mask.
  assert (Hinc : ∀ r d, r < nRs ds → d < nDs ds →
            included ch (trailing ch) (set_mask ch ds mk) r d
            = included ch (trailing ch) ds r d).
  { intros r d Hr Hd. apply included_remasked. by apply Hcells. }
  f_equal. f_equal.
  - unfold observed_upto. rewrite nDs_set_mask. apply list_filter_iff_elem.
    intros i Hi. apply elem_of_seq in Hi. rewrite Hinc; [done | |].
    + apply Nat.Div0.div_lt_upper_bound. lia.
    + apply Nat.mod_upper_bound. destruct (nDs ds); lia.
  - f_equal. apply (shape2_ext (nRs ds) (nDs ds)); [done.. |].
    intros r d Hr Hd. destruct (Hcells2 r d Hr Hd) as [_ ->].
    rewrite New_set_mask. simpl. rewrite Hinc by done. rewrite (Hcells r d) by done.
    destruct (cell (mask (New ch ds)) r d) as [b|]; [|done]. simpl. f_equal.
    by destruct b, (included ch (trailing ch) ds r d).
Qed.

(** ** NumPy helpers that can raise *)

Lemma mapM_Ok {A B : Type} (f : A → result B) (l : list A) :
  (∀ x, x ∈ l → ∃ y, f x = Ok y) →
  ∃ k, mapM f l = Ok k ∧ Forall2 (λ x y, f x = Ok y) l k.
Proof.
  induction l as [|x l IH]; intros Hf; simpl.
  - exists []. by split.
  - destruct (Hf x) as [y Hy]; [by left |].
    destruct IH as (k & Hk & Hall); [intros; apply Hf; by right |].
    exists (y :: k). rewrite Hy, bind_Ok, Hk, bind_Ok. split; [done |].
    by constructor.
Qed.

Lemma index_Ok (x : string) (l : list string) :
  x ∈ l → ∃ i, index x l = Ok i ∧ i < length l.
Proof.
  induction l as [|y l IH]; intros Hin; [by apply elem_of_nil in Hin |].
  simpl. destruct (decide (y = x)) as [-> | Hne].
  - exists 0. split; [done | lia].
  - apply elem_of_cons in Hin as [-> | Hin]; [done |].
    destruct (IH Hin) as (i & -> & Hi). exists (S i). split; [done | lia].
Qed.

Lemma plane_Ok {A : Type} n k m (a : list (list (list A))) i :
  shape3 n k m a → i < k →
  ∃ p, plane a i = Ok p
    ∧ Forall2 (λ (reg : list (list A)) row, reg !! i = Some row) a p.
Proof.
  intros [Hn Hregs] Hi. unfold plane.
  destruct (mapM_Ok
    (λ reg : list (list A),
       match reg !! i with Some row => Ok row | None => Raise IndexError end) a)
    as (p & Hp & Hall).
  - intros reg Hreg. rewrite Forall_forall in Hregs. apply list_elem_of_In in Hreg.
    destruct (Hregs reg Hreg) as [Hlen _].
    destruct (lookup_lt_is_Some_2 reg i) as [row Hrow]; [lia |].
    exists row. by rewrite Hrow.
  - exists p. split; [done |].
    eapply Forall2_impl; [|exact Hall]. intros reg row. simpl.
    destruct (reg !! i); [|done]. by intros [= ->].
Qed.

(** ** The constructors on a well-formed dataset *)

Lemma remasked_of_rule ch ds mk :
  shape2 (nRs ds) (nDs ds) mk →
  (∀ r d, r < nRs ds → d < nDs ds →
     (r * nDs ds + d ∈ observed_upto ch (trailing ch) ds (nRs ds * nDs ds)
      ↔ in_likelihood ch ds r d)
     ∧ cell mk r d =
       (λ b : bool, b || (true && negb (included ch (trailing ch) ds r d)))
         <$> cell (mask (New ch ds)) r d) →
  remasked ch ds mk.
Proof. intros Hsh Hcells. split; [done |]. intros r d Hr Hd. by apply Hcells. Qed.

Lemma remasked_other ch ch' ds mk mk' :
  ch ≠ ch' → remasked ch' (set_mask ch ds mk) mk' → remasked ch' ds mk'.
Proof.
  intros Hne [Hsh Hcells]. rewrite nRs_set_mask, nDs_set_mask in *.
  split; [done |]. intros r d Hr Hd. rewrite Hcells by done.
  by rewrite New_set_mask_other, included_set_mask_other.
Qed.

(** The loop of a channel, with the mask written. *)
Lemma observe_loop_remask ch ds :
  channel_shaped ch ds →
  ∃ mk, remasked ch ds mk
    ∧ observe_loop ch (trailing ch) true ds
      = Ok (observed_upto ch (trailing ch) ds (nRs ds * nDs ds), set_mask ch ds mk).
Proof.
  intros Hsh. destruct (observe_loop_rule ch true ds Hsh) as (mk & Hrun & Hshape & Hcells).
  exists mk. split; [by apply remasked_of_rule | done].
Qed.

(** The cases loop followed by the deaths loop. *)
Lemma both_loops ds :
  channel_shaped cases ds → channel_shaped deaths ds →
  ∃ mkc mkd, remasked cases ds mkc ∧ remasked deaths ds mkd
    ∧ observe_loop cases true true ds
      = Ok (observed_upto cases true ds (nRs ds * nDs ds), set_mask cases ds mkc)
    ∧ observe_loop deaths false true (set_mask cases ds mkc)
      = Ok (observed_upto deaths false ds (nRs ds * nDs ds),
            set_mask deaths (set_mask cases ds mkc) mkd).
Proof.
  intros Hc Hd.
  destruct (observe_loop_remask cases ds Hc) as (mkc & Hmkc & Hrunc).
  destruct (observe_loop_remask deaths (set_mask cases ds mkc)) as (mkd & Hmkd & Hrund);
    [by apply channel_shaped_set_mask_other |].
  exists mkc, mkd. split; [done |].
  split; [by apply (remasked_other cases deaths ds mkc mkd) |].
  split; [done |]. change (trailing deaths) with false in Hrund. rewrite Hrund.
  rewrite nRs_set_mask, nDs_set_mask. by rewrite observed_upto_set_mask_other.
Qed.

Lemma CMCombined_init_spec v ds :
  channel_shaped cases ds → channel_shaped deaths ds →
  ∃ mkc mkd, remasked cases ds mkc ∧ remasked deaths ds mkd
    ∧ CMCombined_init v ds
      = Ok (new_model v (set_mask deaths (set_mask cases ds mkc) mkd) None
              (Some (np_array (observed_upto cases true ds (nRs ds * nDs ds))))
              (Some (np_array (observed_upto deaths false ds (nRs ds * nDs ds))))
              None None,
            set_mask deaths (set_mask cases ds mkc) mkd).
Proof.
  intros Hc Hd. destruct (both_loops ds Hc Hd) as (mkc & mkd & ? & ? & Hrc & Hrd).
  exists mkc, mkd. split; [done |]. split; [done |].
  unfold CMCombined_init. rewrite Hrc, bind_Ok. simpl. by rewrite Hrd, bind_Ok.
Qed.

Lemma CMActive_Final_init_spec ds :
  channel_shaped cases ds →
  ∃ mkc, remasked cases ds mkc
    ∧ CMActive_Final_init ds
      = Ok (new_model CMActive_Final (set_mask cases ds mkc)
              (Some (np_array (observed_upto cases true ds (nRs ds * nDs ds))))
              None None None None,
            set_mask cases ds mkc).
Proof.
  intros Hc. destruct (observe_loop_remask cases ds Hc) as (mkc & Hmkc & Hrunc).
  exists mkc. split; [done |]. unfold CMActive_Final_init.
  change (trailing cases) with true in Hrunc. by rewrite Hrunc, bind_Ok.
Qed.

Lemma CMDeath_Final_init_spec ds :
  channel_shaped deaths ds →
  CMDeath_Final_init ds
  = Ok (new_model CMDeath_Final ds
          (Some (np_array (observed_upto deaths false ds (nRs ds * nDs ds))))
          None None None None, ds).
Proof.
  intros Hd. unfold CMDeath_Final_init.
  pose proof (observe_loop_keep deaths ds Hd) as Hrun.
  change (trailing deaths) with false in Hrun.
  by rewrite Hrun, bind_Ok.
Qed.

Lemma CMCombined_Final_DifDelays_init_spec ds :
  wf_dataset ds → "Symptomatic Testing"%string ∈ CMs ds →
  ∃ ti testing mkc mkd,
    index "Symptomatic Testing" (CMs ds) = Ok ti
    ∧ plane (ActiveCMs ds) ti = Ok testing
    ∧ remasked cases ds mkc ∧ remasked deaths ds mkd
    ∧ CMCombined_Final_DifDelays_init ds
      = Ok (new_model CMCombined_Final_DifDelays
              (set_mask deaths (set_mask cases
                 (set_ActiveCMs ds (zero_plane (ActiveCMs ds) ti)) mkc) mkd)
              None
              (Some (np_array (observed_upto cases true ds (nRs ds * nDs ds))))
              (Some (np_array (observed_upto deaths false ds (nRs ds * nDs ds))))
              (Some (nonzero ((λ s, QMicromega.Qlt_bool 1 s) <$> sum_last testing)))
              (Some (nonzero ((λ s, QMicromega.Qlt_bool s 1) <$> sum_last testing))),
            set_mask deaths (set_mask cases
              (set_ActiveCMs ds (zero_plane (ActiveCMs ds) ti)) mkc) mkd).
Proof.
  intros Hwf Hin. destruct (index_Ok _ _ Hin) as (ti & Hti & Hlt).
  pose proof Hwf as (HA & _).
  destruct (plane_Ok _ _ _ _ ti HA Hlt) as (testing & Htesting & _).
  set (ds0 := set_ActiveCMs ds (zero_plane (ActiveCMs ds) ti)).
  destruct (both_loops ds0) as (mkc & mkd & Hmkc & Hmkd & Hrc & Hrd);
    [by apply channel_shaped_set_ActiveCMs, channel_shaped_wf
    |by apply channel_shaped_set_ActiveCMs, channel_shaped_wf |].
  exists ti, testing, mkc, mkd. split; [done |]. split; [done |].
  split; [exact Hmkc |]. split; [exact Hmkd |].
  unfold CMCombined_Final_DifDelays_init.
  rewrite Hti, bind_Ok, Htesting, bind_Ok. fold ds0.
  rewrite Hrc, bind_Ok. simpl. by rewrite Hrd, bind_Ok.
Qed.

Lemma set_mask_comm ds mkc mkd :
  set_mask deaths (set_mask cases ds mkc) mkd
  = set_mask cases (set_mask deaths ds mkd) mkc.
Proof. reflexivity. Qed.

Lemma remasked_other_2 ch ch' ds mk mk' :
  ch ≠ ch' → remasked ch' ds mk' → remasked ch' (set_mask ch ds mk) mk'.
Proof.
  intros Hne [Hsh Hcells]. split; [by rewrite nRs_set_mask, nDs_set_mask |].
  rewrite nRs_set_mask, nDs_set_mask. intros r d Hr Hd. rewrite Hcells by done.
  by rewrite New_set_mask_other, included_set_mask_other.
Qed.

Lemma observe_loop_remasked ch ds mk :
  channel_shaped ch ds → remasked ch ds mk →
  observe_loop ch (trailing ch) true (set_mask ch ds mk)
  = Ok (observed_upto ch (trailing ch) ds (nRs ds * nDs ds), set_mask ch ds mk).
Proof.
  intros Hsh [Hshape Hcells]. apply observe_loop_again; [done.. |].
  intros r d Hr Hd. by rewrite Hcells.
Qed.

(** Both loops, run on the dataset they have already written. *)
Lemma both_loops_again ds mkc mkd :
  channel_shaped cases ds → channel_shaped deaths ds →
  remasked cases ds mkc → remasked deaths ds mkd →
  observe_loop cases true true (set_mask deaths (set_mask cases ds mkc) mkd)
  = Ok (observed_upto cases true ds (nRs ds * nDs ds),
        set_mask deaths (set_mask cases ds mkc) mkd)
  ∧ observe_loop deaths false true (set_mask deaths (set_mask cases ds mkc) mkd)
  = Ok (observed_upto deaths false ds (nRs ds * nDs ds),
        set_mask deaths (set_mask cases ds mkc) mkd).
Proof.
  intros Hc Hd Hmkc Hmkd. split.
  - rewrite set_mask_comm.
    pose proof (observe_loop_remasked cases (set_mask deaths ds mkd) mkc) as Hrun.
    change (trailing cases) with true in Hrun. rewrite Hrun.
    + rewrite nRs_set_mask, nDs_set_mask. by rewrite observed_upto_set_mask_other.
    + by apply channel_shaped_set_mask_other.
    + by apply remasked_other_2.
  - pose proof (observe_loop_remasked deaths (set_mask cases ds mkc) mkd) as Hrun.
    change (trailing deaths) with false in Hrun. rewrite Hrun.
    + rewrite nRs_set_mask, nDs_set_mask. by rewrite observed_upto_set_mask_other.
    + by apply channel_shaped_set_mask_other.
    + by apply remasked_other_2.
Qed.

(** The rule of a channel, from what its loop leaves behind. *)
Lemma rule_of_remasked ch ds mk r d :
  channel_shaped ch ds → remasked ch ds mk → r < nRs ds → d < nDs ds →
  (r * nDs ds + d ∈ observed_upto ch (trailing ch) ds (nRs ds * nDs ds)
   ↔ in_likelihood ch ds r d)
  ∧ (¬ in_likelihood ch ds r d → cell mk r d = Some true).
Proof.
  intros [_ Hmask] [_ Hcells] Hr Hd. split.
  - by rewrite elem_of_observed_cell, in_likelihood_included.
  - intros Hnot. rewrite Hcells by done.
    destruct (cell_Some_shape _ _ _ r d Hmask Hr Hd) as [b ->]. simpl. f_equal.
    rewrite in_likelihood_included in Hnot.
    destruct (included ch (trailing ch) ds r d); [done |]. by rewrite orb_true_r.
Qed.

Lemma index_rule_combined v ds :
  wf_dataset ds → combined v = true → index_rule v ds.
Proof.
  intros Hwf Hv.
  pose proof (channel_shaped_wf cases ds Hwf) as Hc.
  pose proof (channel_shaped_wf deaths ds Hwf) as Hd.
  destruct (CMCombined_init_spec v ds Hc Hd) as (mkc & mkd & Hmkc & Hmkd & Hinit).
  eexists _, _. split.
  { destruct v; try discriminate Hv; exact Hinit. }
  intros ch idx Hidx r d Hr Hdd.
  destruct ch.
  - assert (idx = np_array (observed_upto cases true ds (nRs ds * nDs ds))) as ->
      by (destruct v; try discriminate Hv; by injection Hidx as <-).
    exact (rule_of_remasked cases ds mkc r d Hc Hmkc Hr Hdd).
  - assert (idx = np_array (observed_upto deaths false ds (nRs ds * nDs ds))) as ->
      by (destruct v; try discriminate Hv; by injection Hidx as <-).
    exact (rule_of_remasked deaths ds mkd r d Hd Hmkd Hr Hdd).
Qed.

Lemma index_rule_CMActive_Final ds :
  wf_dataset ds → index_rule CMActive_Final ds.
Proof.
  intros Hwf. pose proof (channel_shaped_wf cases ds Hwf) as Hc.
  destruct (CMActive_Final_init_spec ds Hc) as (mkc & Hmkc & Hinit).
  eexists _, _. split; [exact Hinit |].
  intros ch idx Hidx r d Hr Hd. destruct ch; [|discriminate Hidx].
  injection Hidx as <-.
  exact (rule_of_remasked cases ds mkc r d Hc Hmkc Hr Hd).
Qed.

Lemma index_rule_DifDelays ds :
  wf_dataset ds → "Symptomatic Testing"%string ∈ CMs ds →
  index_rule CMCombined_Final_DifDelays ds.
Proof.
  intros Hwf Hin.
  pose proof (channel_shaped_wf cases ds Hwf) as Hc.
  pose proof (channel_shaped_wf deaths ds Hwf) as Hd.
  destruct (CMCombined_Final_DifDelays_init_spec ds Hwf Hin)
    as (ti & testing & mkc & mkd & _ & _ & Hmkc & Hmkd & Hinit).
  eexists _, _. split; [exact Hinit |].
  intros ch idx Hidx r d Hr Hdd. destruct ch; injection Hidx as <-.
  - exact (rule_of_remasked cases ds mkc r d Hc Hmkc Hr Hdd).
  - exact (rule_of_remasked deaths ds mkd r d Hd Hmkd Hr Hdd).
Qed.

(** ** The loop of the ICL constructor *)

Lemma nODs_of_eq ds : nODs_of ds = nDs ds - CMDelayCut.
Proof. unfold nODs_of, observed_days_indx. by rewrite length_seq. Qed.

Lemma observed_days_indx_lookup ds d :
  d < nODs_of ds → observed_days_indx ds !! d = Some (CMDelayCut + d).
Proof.
  rewrite nODs_of_eq. intros Hd. unfold observed_days_indx.
  by apply lookup_seq_lt.
Qed.

Lemma observed_upto_ICL_S ch ds k :
  observed_upto_ICL ch ds (S k) =
  observed_upto_ICL ch ds k
  ++ (if included_ICL ch ds (k / nODs_of ds) (CMDelayCut + k mod nODs_of ds)
      then [k] else []).
Proof.
  unfold observed_upto_ICL. rewrite seq_S, list.filter_app. f_equal. simpl.
  destruct (included_ICL _ _ _ _) eqn:E.
  - by rewrite filter_cons_True.
  - by rewrite filter_cons_False by (rewrite E; done).
Qed.

(** One channel of the loop body, in terms of the dataset it meets. *)
Lemma ICL_cell_run ch n r d day obs ds m x :
  cell (mask (New ch ds)) r day = Some m →
  cell (data (Cumulative ch ds)) r day = Some x →
  ∃ mk,
    ICL_cell ch n r d day (obs, ds)
    = Ok (obs ++ (if bool_decide (m = false) && negb (isnan x)
                  then [r * n + d] else []),
          set_mask ch ds mk)
    ∧ (∀ a b, shape2 a b (mask (New ch ds)) → shape2 a b mk)
    ∧ ∀ r' d', cell mk r' d' =
        if decide (r' = r ∧ d' = day)
        then Some (m || negb (bool_decide (m = false) && negb (isnan x)))
        else cell (mask (New ch ds)) r' d'.
Proof.
  intros Hm Hx. unfold ICL_cell.
  rewrite (get2_cell _ _ _ _ Hm), bind_Ok, (get2_cell _ _ _ _ Hx).
  destruct (set2_cell (mask (New ch ds)) r day true m Hm)
    as (mk & Hset & Hshape & Hcells).
  destruct m; simpl.
  - (* already masked: the flag is written again *)
    exists mk. rewrite Hset. simpl. rewrite app_nil_r. by split.
  - destruct (isnan x); simpl.
    + exists mk. rewrite Hset. simpl. rewrite app_nil_r. by split.
    + exists (mask (New ch ds)). rewrite set_mask_id. split; [done |].
      split; [done |]. intros r' d'. case_decide as Heq; [|done].
      by destruct Heq as [-> ->].
Qed.

Lemma masked_upto_ICL_step ch ds r d mk mk' m x :
  d < nODs_of ds →
  cell (mask (New ch ds)) r (CMDelayCut + d) = Some m →
  cell (data (Cumulative ch ds)) r (CMDelayCut + d) = Some x →
  (∀ r' d', r' < nRs ds → d' < nDs ds →
     cell mk r' d' = masked_upto_ICL ch ds (r * nODs_of ds + d) r' d') →
  (∀ r' d', cell mk' r' d' =
     if decide (r' = r ∧ d' = CMDelayCut + d)
     then Some (m || negb (bool_decide (m = false) && negb (isnan x)))
     else cell mk r' d') →
  ∀ r' d', r' < nRs ds → d' < nDs ds →
    cell mk' r' d' = masked_upto_ICL ch ds (S (r * nODs_of ds + d)) r' d'.
Proof.
  intros Hd Hm Hx Hcells Hcells' r' d' Hr' Hd'. rewrite Hcells'.
  assert (Hinc : included_ICL ch ds r (CMDelayCut + d)
                 = bool_decide (m = false) && negb (isnan x)).
  { unfold included_ICL. by rewrite Hm, Hx. }
  destruct (decide (r' = r ∧ d' = CMDelayCut + d)) as [[-> ->] | Hne].
  - unfold masked_upto_ICL. rewrite Hm. cbv [fmap option_fmap option_map].
    rewrite decide_True by lia. by rewrite Hinc.
  - rewrite Hcells by done. unfold masked_upto_ICL.
    destruct (cell (mask (New ch ds)) r' d') as [b|]; [|done].
    cbv [fmap option_fmap option_map]. f_equal.
    pose proof (nODs_of_eq ds) as Hn.
    destruct (decide (CMDelayCut ≤ d')) as [Hcut | Hcut].
    + assert (Hiff : r' * nODs_of ds + (d' - CMDelayCut) < S (r * nODs_of ds + d)
                     ↔ r' * nODs_of ds + (d' - CMDelayCut) < r * nODs_of ds + d).
      { rewrite flat_lt_S by lia. split; [|tauto].
        intros [? | [? ?]]; [done |]. exfalso. apply Hne. split; [done | lia]. }
      repeat case_decide; try done; tauto.
    + repeat case_decide; try done; tauto.
Qed.

(** The body of the loop on one window cell. *)
Lemma ICL_body_inv ds0 r d st :
  wf_dataset ds0 → r < nRs ds0 → d < nODs_of ds0 →
  ICL_inv ds0 (r * nODs_of ds0 + d) st →
  ∃ st',
    (let '(observed_active, observed_deaths, ds1) := st in
     match observed_days_indx ds0 !! d with
     | None => Raise IndexError
     | Some actual_day =>
         '(observed_active', ds2) ←
           ICL_cell cases (nODs_of ds0) r d actual_day (observed_active, ds1);
         '(observed_deaths', ds3) ←
           ICL_cell deaths (nODs_of ds0) r d actual_day (observed_deaths, ds2);
         Ok (observed_active', observed_deaths', ds3)
     end) = Ok st'
    ∧ ICL_inv ds0 (S (r * nODs_of ds0 + d)) st'.
Proof.
  intros Hwf Hr Hd (mkc & mkd & Hds & Hoa & Hod & Hsc & Hsd & Hcc & Hcd).
  destruct st as [[oa od] ds]. simpl in Hds, Hoa, Hod. subst ds oa od.
  pose proof (nODs_of_eq ds0) as Hn.
  assert (Hday : CMDelayCut + d < nDs ds0) by lia.
  rewrite (observed_days_indx_lookup ds0 d Hd).
  destruct (channel_shaped_wf cases ds0 Hwf) as [Hcumc Hmaskc].
  destruct (channel_shaped_wf deaths ds0 Hwf) as [Hcumd Hmaskd].
  destruct (cell_Some_shape _ _ _ r _ Hmaskc Hr Hday) as [mc Hmc].
  destruct (cell_Some_shape _ _ _ r _ Hcumc Hr Hday) as [xc Hxc].
  destruct (cell_Some_shape _ _ _ r _ Hmaskd Hr Hday) as [md Hmd].
  destruct (cell_Some_shape _ _ _ r _ Hcumd Hr Hday) as [xd Hxd].
  (* cases *)
  destruct (ICL_cell_run cases (nODs_of ds0) r d (CMDelayCut + d)
              (observed_upto_ICL cases ds0 (r * nODs_of ds0 + d))
              (set_mask deaths (set_mask cases ds0 mkc) mkd) mc xc)
    as (mkc' & Hrunc & Hsc' & Hcc').
  { change (cell mkc r (CMDelayCut + d) = Some mc). rewrite Hcc by done.
    unfold masked_upto_ICL. rewrite Hmc. cbv [fmap option_fmap option_map].
    by rewrite decide_False by lia. }
  { exact Hxc. }
  rewrite Hrunc, bind_Ok. cbv beta iota.
  change (set_mask cases (set_mask deaths (set_mask cases ds0 mkc) mkd) mkc')
    with (set_mask deaths (set_mask cases ds0 mkc') mkd).
  (* deaths *)
  destruct (ICL_cell_run deaths (nODs_of ds0) r d (CMDelayCut + d)
              (observed_upto_ICL deaths ds0 (r * nODs_of ds0 + d))
              (set_mask deaths (set_mask cases ds0 mkc') mkd) md xd)
    as (mkd' & Hrund & Hsd' & Hcd').
  { change (cell mkd r (CMDelayCut + d) = Some md). rewrite Hcd by done.
    unfold masked_upto_ICL. rewrite Hmd. cbv [fmap option_fmap option_map].
    by rewrite decide_False by lia. }
  { exact Hxd. }
  rewrite Hrund, bind_Ok. cbv beta iota.
  change (set_mask deaths (set_mask deaths (set_mask cases ds0 mkc') mkd) mkd')
    with (set_mask deaths (set_mask cases ds0 mkc') mkd').
  eexists. split; [reflexivity |].
  exists mkc', mkd'. simpl. split; [done |].
  assert (Hincc : included_ICL cases ds0 r (CMDelayCut + d)
                  = bool_decide (mc = false) && negb (isnan xc)).
  { unfold included_ICL. by rewrite Hmc, Hxc. }
  assert (Hincd : included_ICL deaths ds0 r (CMDelayCut + d)
                  = bool_decide (md = false) && negb (isnan xd)).
  { unfold included_ICL. by rewrite Hmd, Hxd. }
  split; [by rewrite observed_upto_ICL_S, flat_div, flat_mod, Hincc by lia |].
  split; [by rewrite observed_upto_ICL_S, flat_div, flat_mod, Hincd by lia |].
  split; [by apply Hsc' |]. split; [by apply Hsd' |]. split.
  - by apply (masked_upto_ICL_step cases ds0 r d mkc mkc' mc xc).
  - by apply (masked_upto_ICL_step deaths ds0 r d mkd mkd' md xd).
Qed.

Lemma ICL_inv_start ds0 : wf_dataset ds0 → ICL_inv ds0 0 ([], [], ds0).
Proof.
  intros Hwf. exists (mask (NewCases ds0)), (mask (NewDeaths ds0)). simpl.
  split; [by destruct ds0 as [? ? ? ? [] [] ? ?] |].
  split; [done |]. split; [done |].
  split; [apply (channel_shaped_wf cases ds0 Hwf) |].
  split; [apply (channel_shaped_wf deaths ds0 Hwf) |].
  split; intros r day _ _; unfold masked_upto_ICL;
    (destruct (cell _ r day); [|done]); cbv [fmap option_fmap option_map];
    f_equal; case_decide; lia || done.
Qed.

Lemma ICL_loop_inv ds0 :
  wf_dataset ds0 →
  ∃ st, ICL_loop (observed_days_indx ds0) ds0 = Ok st
    ∧ ICL_inv ds0 (nRs ds0 * nODs_of ds0) st.
Proof.
  intros Hwf. unfold ICL_loop, for_range. fold (nODs_of ds0).
  apply (for_each_inv (λ r st, ICL_inv ds0 (r * nODs_of ds0) st) _ (nRs ds0) 0).
  - by apply ICL_inv_start.
  - intros r st [_ Hr] Hinv. simpl in Hr.
    replace (S r * nODs_of ds0) with (r * nODs_of ds0 + (0 + nODs_of ds0)) by lia.
    apply (for_each_inv (λ d st', ICL_inv ds0 (r * nODs_of ds0 + d) st')
             _ (nODs_of ds0) 0 st).
    + by rewrite Nat.add_0_r.
    + intros d t [_ Hd] Ht. simpl in Hd.
      replace (r * nODs_of ds0 + S d) with (S (r * nODs_of ds0 + d)) by lia.
      by apply ICL_body_inv.
Qed.

Lemma in_likelihood_ICL_included ch ds r day :
  in_likelihood_ICL ch ds r day ↔ included_ICL ch ds r day = true.
Proof.
  unfold in_likelihood_ICL, included_ICL. split.
  - by intros (-> & [q ->]).
  - destruct (cell (mask (New ch ds)) r day) as [m|]; [|done].
    destruct (cell (data (Cumulative ch ds)) r day) as [x|]; [|done].
    rewrite andb_true_iff, bool_decide_eq_true. intros [-> Hx].
    split; [done |]. destruct x; [done | by eexists].
Qed.

Lemma elem_of_observed_ICL ch ds r d :
  r < nRs ds → d < nODs_of ds →
  r * nODs_of ds + d ∈ observed_upto_ICL ch ds (nRs ds * nODs_of ds)
  ↔ included_ICL ch ds r (CMDelayCut + d) = true.
Proof.
  intros Hr Hd. unfold observed_upto_ICL.
  rewrite list_elem_of_filter, elem_of_seq, flat_div, flat_mod by done.
  split; [by intros [? _] |]. intros Hinc. split; [done |].
  assert (S r * nODs_of ds ≤ nRs ds * nODs_of ds) by (apply Nat.mul_le_mono_r; lia).
  lia.
Qed.

(** The rule of one channel, from the final state of the loop. *)
Lemma ICL_rule_channel ch ds mk r :
  channel_shaped ch ds → r < nRs ds →
  (∀ r day, r < nRs ds → day < nDs ds →
     cell mk r day = masked_upto_ICL ch ds (nRs ds * nODs_of ds) r day) →
  (∀ d, d < nODs_of ds →
     (r * nODs_of ds + d ∈ observed_upto_ICL ch ds (nRs ds * nODs_of ds)
      ↔ in_likelihood_ICL ch ds r (CMDelayCut + d))
     ∧ (¬ in_likelihood_ICL ch ds r (CMDelayCut + d) →
        cell mk r (CMDelayCut + d) = Some true))
  ∧ (∀ day, day < nDs ds → day < CMDelayCut →
       cell mk r day = cell (mask (New ch ds)) r day).
Proof.
  intros [_ Hmask] Hr Hcells. pose proof (nODs_of_eq ds) as Hn. split.
  - intros d Hd. split.
    + by rewrite elem_of_observed_ICL, in_likelihood_ICL_included.
    + intros Hnot. rewrite Hcells by lia. unfold masked_upto_ICL.
      destruct (cell_Some_shape _ _ _ r (CMDelayCut + d) Hmask Hr) as [b ->]; [lia |].
      cbv [fmap option_fmap option_map]. f_equal.
      rewrite in_likelihood_ICL_included in Hnot.
      assert (S r * nODs_of ds ≤ nRs ds * nODs_of ds)
        by (apply Nat.mul_le_mono_r; lia).
      rewrite decide_True by lia.
      destruct (included_ICL ch ds r (CMDelayCut + d)); [done |].
      by rewrite orb_true_r.
  - intros day Hday Hcut. rewrite Hcells by done. unfold masked_upto_ICL.
    destruct (cell (mask (New ch ds)) r day); [|done].
    cbv [fmap option_fmap option_map]. by rewrite decide_False by lia.
Qed.

Lemma ICL_rule_holds ds : wf_dataset ds → ICL_rule ds.
Proof.
  intros Hwf.
  destruct (ICL_loop_inv ds Hwf)
    as ([[oa od] ds'] & Hrun & mkc & mkd & Hds & Hoa & Hod & _ & _ & Hcc & Hcd).
  simpl in Hds, Hoa, Hod. subst ds' oa od.
  eexists _, _. split.
  { simpl. unfold CMCombined_Final_ICL_init. rewrite Hrun, bind_Ok. reflexivity. }
  intros ch idx Hidx. destruct ch; injection Hidx as <-.
  - split.
    + intros r d Hr Hd.
      by apply (ICL_rule_channel cases ds mkc r (channel_shaped_wf cases ds Hwf) Hr Hcc).
    + intros r day Hr Hday Hcut.
      by apply (ICL_rule_channel cases ds mkc r (channel_shaped_wf cases ds Hwf) Hr Hcc).
  - split.
    + intros r d Hr Hd.
      by apply (ICL_rule_channel deaths ds mkd r (channel_shaped_wf deaths ds Hwf) Hr Hcd).
    + intros r day Hr Hday Hcut.
      by apply (ICL_rule_channel deaths ds mkd r (channel_shaped_wf deaths ds Hwf) Hr Hcd).
Qed.

(** The masks the ICL constructor leaves in the dataset object. *)
Lemma ICL_masks ds : wf_dataset ds → ICL_masks_rule ds.
Proof.
  intros Hwf.
  destruct (ICL_loop_inv ds Hwf)
    as ([[oa od] ds'] & Hrun & mkc & mkd & Hds & Hoa & Hod & _ & _ & Hcc & Hcd).
  simpl in Hds, Hoa, Hod. subst ds' oa od.
  eexists _, _. split.
  { simpl. unfold CMCombined_Final_ICL_init. rewrite Hrun, bind_Ok. reflexivity. }
  split; [by repeat split |].
  pose proof (nODs_of_eq ds) as Hn.
  assert (Hfinal : ∀ ch r day, r < nRs ds → day < nDs ds →
            masked_upto_ICL ch ds (nRs ds * nODs_of ds) r day =
            (λ b : bool, if decide (CMDelayCut ≤ day)
                         then b || negb (included_ICL ch ds r day) else b)
              <$> cell (mask (New ch ds)) r day).
  { intros ch r day Hr Hday. unfold masked_upto_ICL.
    destruct (cell (mask (New ch ds)) r day); [|done].
    cbv [fmap option_fmap option_map]. f_equal.
    assert (S r * nODs_of ds ≤ nRs ds * nODs_of ds)
      by (apply Nat.mul_le_mono_r; lia).
    repeat case_decide; try done; lia. }
  intros ch r day Hr Hday. rewrite <- Hfinal by done.
  destruct ch; [by apply Hcc | by apply Hcd].
Qed.

(** ** The [ActiveCMs] plane of one NPI *)

Lemma zero_plane_idem a i : zero_plane (zero_plane a i) i = zero_plane a i.
Proof.
  unfold zero_plane. rewrite <- list_fmap_compose. apply list_fmap_ext.
  intros _ reg _. simpl. rewrite list_alter_alter_eq. apply list_alter_ext; [|done].
  intros row _. simpl. by rewrite <- list_fmap_compose.
Qed.

Lemma shape3_zero_plane n k m a i : shape3 n k m a → shape3 n k m (zero_plane a i).
Proof.
  intros [Hn Hregs]. unfold zero_plane. split; [by rewrite length_fmap |].
  apply Forall_fmap. eapply Forall_impl; [|exact Hregs].
  intros reg [Hk Hrows]. simpl. split; [by rewrite length_alter |].
  apply Forall_lookup. intros j row. rewrite list_lookup_alter.
  rewrite Forall_lookup in Hrows. case_decide as Hij.
  - subst j. destruct (reg !! i) as [row0|] eqn:E; [|done]. simpl.
    intros [= <-]. rewrite length_fmap. by eapply Hrows.
  - by apply Hrows.
Qed.

(** ** C1: which cells enter the likelihood *)

(** On one region and forty days with nothing masked and nothing NaN, the
    ICL constructor lists the ten days from day 30 on, numbered from 0, for
    both channels, and writes no mask. *)
Example ICL_plain :
  init CMCombined_Final_ICL (plain_dataset 1 40)
  = Ok (new_model CMCombined_Final_ICL (plain_dataset 1 40) None
          (Some (mkIndexArray int64 (seq 0 10)))
          (Some (mkIndexArray int64 (seq 0 10))) None None,
        plain_dataset 1 40).
Proof. vm_compute. reflexivity. Qed.

(** C1 as stated fails for the ICL class: day 30 of the plain dataset does
    not pass the test ([d > CMDelayCut] fails), yet its mask flag stays
    [False]; the index list holds [0 .. 9], not [31 .. 32]. *)
Lemma C1_counterexample : ¬ index_rule CMCombined_Final_ICL (plain_dataset 1 40).
Proof.
  intros (m & ds' & Hinit & Hrule).
  rewrite ICL_plain in Hinit. injection Hinit as <- <-.
  destruct (Hrule cases _ eq_refl 0 30) as [_ Hmask];
    [vm_compute; lia | vm_compute; lia |].
  assert (Hnot : ¬ in_likelihood cases (plain_dataset 1 40) 0 30).
  { intros (_ & Hcut & _). unfold CMDelayCut in Hcut. lia. }
  specialize (Hmask Hnot). vm_compute in Hmask. discriminate Hmask.
Qed.

(** C1, amended: for every class that re-masks over all days, the index
    list of each channel it builds holds [r * nDs + d] exactly when the
    cell is unmasked upstream, [d > CMDelayCut], the cumulative count is
    not NaN and, for cases, [d < nDs - 7]; every other cell gets its mask
    flag set.  [CMDeath_Final] builds the same list for deaths and leaves
    the dataset as it is.  [CMCombined_Final_ICL] lists [r * nODs + d] for
    the cells of day [CMDelayCut + d] that are unmasked upstream with a
    cumulative count that is not NaN, masks the other cells of these days
    and leaves the days before [CMDelayCut] alone. *)
Theorem C1_index_rule v ds :
  wf_dataset ds →
  (v = CMCombined_Final_DifDelays → "Symptomatic Testing"%string ∈ CMs ds) →
  (remasking v = true → index_rule v ds)
  ∧ (v = CMDeath_Final →
     ∃ m, init v ds = Ok (m, ds)
       ∧ ∀ idx, observed_index m deaths = Some idx →
           ∀ r d, r < nRs ds → d < nDs ds →
             (r * nDs ds + d ∈ elems idx ↔ in_likelihood deaths ds r d))
  ∧ (v = CMCombined_Final_ICL → ICL_rule ds).
Proof.
  intros Hwf HST. split; [|split].
  - intros Hv. destruct v; try discriminate Hv.
    + by apply index_rule_CMActive_Final.
    + by apply index_rule_combined.
    + apply index_rule_DifDelays; [done | by apply HST].
    + by apply index_rule_combined.
    + by apply index_rule_combined.
    + by apply index_rule_combined.
    + by apply index_rule_combined.
  - intros ->. simpl.
    pose proof (channel_shaped_wf deaths ds Hwf) as Hd.
    rewrite (CMDeath_Final_init_spec ds Hd). eexists. split; [done |].
    intros idx [= <-] r d Hr Hdd. simpl.
    by rewrite (elem_of_observed_cell deaths false), (in_likelihood_included deaths).
  - intros _. by apply ICL_rule_holds.
Qed.

Lemma C1_witness : index_rule CMCombined_Final (plain_dataset 1 40).
Proof.
  refine (proj1 (C1_index_rule CMCombined_Final (plain_dataset 1 40) _ _) eq_refl).
  - apply (bool_decide_unpack _). vm_compute. exact I.
  - discriminate.
Defined.

(** ** C9: the masks of the caller's dataset *)

Example CMCombined_Final_plain :
  init CMCombined_Final (plain_dataset 1 40)
  = Ok (new_model CMCombined_Final (plain_dataset 1 40) None
          (Some (mkIndexArray int64 [31; 32]))
          (Some (mkIndexArray int64 (seq 31 9))) None None,
        set_mask deaths
          (set_mask cases (plain_dataset 1 40)
             [replicate 31 true ++ [false; false] ++ replicate 7 true])
          [replicate 31 true ++ replicate 9 false]).
Proof. vm_compute. reflexivity. Qed.

(** C9 as stated fails: constructing [CMCombined_Final] from the plain
    dataset turns the flag of day 0 from [False] to [True] in the mask of
    the caller's [NewCases]. *)
Lemma C9_counterexample : ¬ masks_untouched CMCombined_Final (plain_dataset 1 40).
Proof.
  intros (m & ds' & Hinit & Hcases & _).
  rewrite CMCombined_Final_plain in Hinit. injection Hinit as <- <-.
  vm_compute in Hcases. discriminate Hcases.
Qed.

Lemma masks_overwritten_combined v ds :
  wf_dataset ds → combined v = true →
  ∃ m ds', init v ds = Ok (m, ds')
    ∧ same_but_masks ds ds'
    ∧ ActiveCMs ds' = ActiveCMs ds
    ∧ (∀ ch, if builds v ch then remasked ch ds (mask (New ch ds'))
              else mask (New ch ds') = mask (New ch ds))
    ∧ ∃ m', init v ds' = Ok (m', ds')
        ∧ ∀ ch, observed_index m' ch = observed_index m ch.
Proof.
  intros Hwf Hv.
  pose proof (channel_shaped_wf cases ds Hwf) as Hc.
  pose proof (channel_shaped_wf deaths ds Hwf) as Hd.
  destruct (CMCombined_init_spec v ds Hc Hd) as (mkc & mkd & Hmkc & Hmkd & Hinit).
  destruct (both_loops_again ds mkc mkd Hc Hd Hmkc Hmkd) as [Hrc Hrd].
  assert (Hinit_v : ∀ ds0, init v ds0 = CMCombined_init v ds0)
    by (intros; destruct v; try discriminate Hv; reflexivity).
  eexists _, _. split; [rewrite Hinit_v; exact Hinit |].
  split; [by repeat split |]. split; [done |]. split.
  { intros [|]; (replace (builds v _) with true
      by (destruct v; try discriminate Hv; reflexivity)); done. }
  eexists. split; [|reflexivity]. rewrite Hinit_v. unfold CMCombined_init.
  rewrite Hrc, bind_Ok. simpl. by rewrite Hrd, bind_Ok.
Qed.

Lemma masks_overwritten_CMActive_Final ds :
  wf_dataset ds →
  ∃ m ds', init CMActive_Final ds = Ok (m, ds')
    ∧ same_but_masks ds ds'
    ∧ ActiveCMs ds' = ActiveCMs ds
    ∧ (∀ ch, if builds CMActive_Final ch then remasked ch ds (mask (New ch ds'))
              else mask (New ch ds') = mask (New ch ds))
    ∧ ∃ m', init CMActive_Final ds' = Ok (m', ds')
        ∧ ∀ ch, observed_index m' ch = observed_index m ch.
Proof.
  intros Hwf. pose proof (channel_shaped_wf cases ds Hwf) as Hc.
  destruct (CMActive_Final_init_spec ds Hc) as (mkc & Hmkc & Hinit).
  pose proof (observe_loop_remasked cases ds mkc Hc Hmkc) as Hrun.
  change (trailing cases) with true in Hrun.
  eexists _, _. split; [exact Hinit |].
  split; [by repeat split |]. split; [done |]. split; [by intros [|] |].
  eexists. split; [|reflexivity]. simpl. unfold CMActive_Final_init.
  by rewrite Hrun, bind_Ok.
Qed.

Lemma masks_overwritten_DifDelays ds :
  wf_dataset ds → "Symptomatic Testing"%string ∈ CMs ds →
  ∃ m ds', init CMCombined_Final_DifDelays ds = Ok (m, ds')
    ∧ same_but_masks ds ds'
    ∧ (∀ ch, if builds CMCombined_Final_DifDelays ch
              then remasked ch ds (mask (New ch ds'))
              else mask (New ch ds') = mask (New ch ds))
    ∧ ∃ m', init CMCombined_Final_DifDelays ds' = Ok (m', ds')
        ∧ ∀ ch, observed_index m' ch = observed_index m ch.
Proof.
  intros Hwf Hin.
  pose proof (channel_shaped_wf cases ds Hwf) as Hc.
  pose proof (channel_shaped_wf deaths ds Hwf) as Hd.
  destruct (CMCombined_Final_DifDelays_init_spec ds Hwf Hin)
    as (ti & testing & mkc & mkd & Hti & Htesting & Hmkc & Hmkd & Hinit).
  set (ds0 := set_ActiveCMs ds (zero_plane (ActiveCMs ds) ti)) in *.
  destruct (both_loops_again ds0 mkc mkd) as [Hrc Hrd]; [done.. |].
  pose proof Hwf as (HA & _).
  assert (Hlt : ti < nCMs ds).
  { destruct (index_Ok _ _ Hin) as (i & Hi & ?). rewrite Hti in Hi.
    by injection Hi as <-. }
  destruct (plane_Ok _ _ _ _ ti (shape3_zero_plane _ _ _ _ ti HA) Hlt)
    as (testing' & Htesting' & _).
  eexists _, _. split; [exact Hinit |].
  split; [by repeat split |]. split; [by intros [|] |].
  eexists. split.
  - simpl. unfold CMCombined_Final_DifDelays_init.
    change (CMs (set_mask deaths (set_mask cases ds0 mkc) mkd)) with (CMs ds).
    rewrite Hti, bind_Ok.
    change (ActiveCMs (set_mask deaths (set_mask cases ds0 mkc) mkd))
      with (zero_plane (ActiveCMs ds) ti).
    rewrite Htesting', bind_Ok, zero_plane_idem.
    change (set_ActiveCMs (set_mask deaths (set_mask cases ds0 mkc) mkd)
              (zero_plane (ActiveCMs ds) ti))
      with (set_mask deaths (set_mask cases ds0 mkc) mkd).
    rewrite Hrc, bind_Ok. simpl. rewrite Hrd, bind_Ok. reflexivity.
  - by intros [|].
Qed.

(** C9, amended: a constructor that re-masks writes the masks of the
    caller's dataset in place.  Regions, days, NPIs and all counts stay as
    they were; the mask of every channel the class builds ends up [True] in
    exactly the cells that were masked before or fail the test, the other
    mask is not touched; and a second model of the same class built from the
    same dataset object finds these masks, leaves the dataset as it is and
    gets the same index lists.  [CMDeath_Final] leaves both masks as they
    were.  [CMCombined_Final_ICL] sets the flag of every failing cell from
    day [CMDelayCut] on, in both masks, and changes nothing else. *)
Theorem C9_masks_overwritten v ds :
  wf_dataset ds →
  (v = CMCombined_Final_DifDelays → "Symptomatic Testing"%string ∈ CMs ds) →
  (remasking v = true →
   ∃ m ds', init v ds = Ok (m, ds')
     ∧ same_but_masks ds ds'
     ∧ (∀ ch, if builds v ch then remasked ch ds (mask (New ch ds'))
               else mask (New ch ds') = mask (New ch ds))
     ∧ ∃ m', init v ds' = Ok (m', ds')
         ∧ ∀ ch, observed_index m' ch = observed_index m ch)
  ∧ (v = CMDeath_Final → masks_untouched v ds)
  ∧ (v = CMCombined_Final_ICL → ICL_masks_rule ds).
Proof.
  intros Hwf HST. split; [|split].
  - intros Hv.
    assert (Hcomb : combined v = true →
      ∃ m ds', init v ds = Ok (m, ds') ∧ same_but_masks ds ds'
        ∧ (∀ ch, if builds v ch then remasked ch ds (mask (New ch ds'))
                  else mask (New ch ds') = mask (New ch ds))
        ∧ ∃ m', init v ds' = Ok (m', ds')
            ∧ ∀ ch, observed_index m' ch = observed_index m ch).
    { intros Hc. destruct (masks_overwritten_combined v ds Hwf Hc)
        as (m & ds' & ? & ? & _ & ? & ?). by exists m, ds'. }
    destruct v; try discriminate Hv; try (by apply Hcomb).
    + destruct (masks_overwritten_CMActive_Final ds Hwf)
        as (m & ds' & ? & ? & _ & ? & ?). by exists m, ds'.
    + apply masks_overwritten_DifDelays; [done | by apply HST].
  - intros ->. eexists _, ds. split; [|by split].
    simpl. apply CMDeath_Final_init_spec. by apply channel_shaped_wf.
  - intros _. by apply ICL_masks.
Qed.

Lemma C9_witness :
  ∃ m ds', init CMCombined_Final (plain_dataset 1 40) = Ok (m, ds')
    ∧ same_but_masks (plain_dataset 1 40) ds'
    ∧ (∀ ch, if builds CMCombined_Final ch
              then remasked ch (plain_dataset 1 40) (mask (New ch ds'))
              else mask (New ch ds') = mask (New ch (plain_dataset 1 40)))
    ∧ ∃ m', init CMCombined_Final ds' = Ok (m', ds')
        ∧ ∀ ch, observed_index m' ch = observed_index m ch.
Proof.
  refine (proj1 (C9_masks_overwritten CMCombined_Final (plain_dataset 1 40) _ _)
            eq_refl).
  - apply (bool_decide_unpack _). vm_compute. exact I.
  - discriminate.
Defined.

(** ** Selecting the observed counts *)

Lemma take_idx_Ok {A : Type} (flat : list A) (obs : list nat) :
  obs ≠ [] → (∀ i, i ∈ obs → i < length flat) →
  ∃ vals, take_idx flat (np_array obs) = Ok vals
    ∧ Forall2 (λ i x, flat !! i = Some x) obs vals.
Proof.
  intros Hne Hlt. unfold take_idx, np_array. simpl.
  destruct obs as [|i0 obs0] eqn:E; [done |]. rewrite <- E in *. clear E.
  destruct (mapM_Ok
    (λ i, match flat !! i with Some x => Ok x | None => Raise IndexError end) obs)
    as (vals & Hvals & Hall).
  - intros i Hi. destruct (lookup_lt_is_Some_2 flat i (Hlt i Hi)) as [x Hx].
    exists x. by rewrite Hx.
  - exists vals. split; [done |]. eapply Forall2_impl; [|exact Hall].
    intros i x. simpl. destruct (flat !! i); [|done]. by intros [= ->].
Qed.

Lemma shape2_drop_cols {A : Type} n m k (a : list (list A)) :
  shape2 n m a → shape2 n (m - k) (drop_cols k a).
Proof.
  intros [Hn Hrows]. unfold drop_cols. split; [by rewrite length_fmap |].
  apply Forall_fmap. eapply Forall_impl; [|exact Hrows].
  intros row Hrow. simpl in *. rewrite length_drop. lia.
Qed.

Lemma observed_upto_lt ch trail ds k i : i ∈ observed_upto ch trail ds k → i < k.
Proof. rewrite elem_of_observed_upto. by intros [? _]. Qed.

(** The learned-noise branch selects the counts of the listed cells,
    unless the list is empty. *)
Lemma ObservedDeaths_observed_learned a m ds obs :
  deaths_noise a = None →
  all_observed_deaths m = Some (np_array obs) →
  shape2 (nORs m) (nDs ds) (data (NewDeaths ds)) →
  obs ≠ [] → (∀ i, i ∈ obs → i < nORs m * nDs ds) →
  ∃ vals, ObservedDeaths_observed a m ds = Ok vals
    ∧ Forall2 (λ i x, concat (data (NewDeaths ds)) !! i = Some x) obs vals.
Proof.
  intros Ha Hidx Hshape Hne Hlt. unfold ObservedDeaths_observed.
  rewrite Hidx, Ha. unfold reshape_flat.
  rewrite decide_True by by apply length_concat_shape. rewrite bind_Ok.
  apply take_idx_Ok; [done |]. intros i Hi.
  rewrite (length_concat_shape _ _ _ Hshape). by apply Hlt.
Qed.

(** The fixed-noise branch cuts the first [CMDelayCut] columns and then
    asks for all [nORs * nDs] entries. *)
Lemma ObservedDeaths_observed_fixed a m ds idx x :
  deaths_noise a = Some x →
  all_observed_deaths m = Some idx →
  shape2 (nORs m) (nDs ds) (data (NewDeaths ds)) →
  0 < nORs m → 0 < nDs ds →
  ObservedDeaths_observed a m ds = Raise ValueError.
Proof.
  intros Ha Hidx Hshape HR HD. unfold ObservedDeaths_observed.
  rewrite Hidx, Ha. unfold reshape_flat.
  rewrite (length_concat_shape _ _ _ (shape2_drop_cols _ _ CMDelayCut _ Hshape)).
  rewrite decide_False; [done |]. unfold CMDelayCut. nia.
Qed.

(** ** C8: a fixed dispersion for the deaths likelihood *)

(** On every non-empty well-formed dataset the fixed-noise branch of
    [ObservedDeaths] raises. *)
Lemma fixed_deaths_noise_raises a θ ds x :
  wf_dataset ds → 0 < nRs ds → 0 < nDs ds → deaths_noise a = Some x →
  ∃ m ds', init CMCombined_Final ds = Ok (m, ds')
    ∧ ObservedDeaths a θ m ds' = Raise ValueError.
Proof.
  intros Hwf HR HD Ha.
  pose proof (channel_shaped_wf cases ds Hwf) as Hc.
  pose proof (channel_shaped_wf deaths ds Hwf) as Hd.
  destruct (CMCombined_init_spec CMCombined_Final ds Hc Hd)
    as (mkc & mkd & Hmkc & Hmkd & Hinit).
  eexists _, _. split; [exact Hinit |].
  unfold ObservedDeaths. simpl.
  erewrite ObservedDeaths_observed_fixed; [done | done | done | | |].
  - by destruct Hwf as (_ & _ & [? _] & _).
  - done.
  - done.
Qed.

(** C8: the code at a failing input.  One region, forty days, nothing
    masked: the constructor lists the days 31 to 39 for deaths; with a
    fixed [deaths_noise] the node [ObservedDeaths] is not declared, the
    reshape of the column-cut array raises [ValueError], and so does
    [build_model], which has declared [ObservedCases] by then; with the
    learned dispersion the same model selects the nine observed counts. *)
Theorem C8_fixed_deaths_noise :
  ∃ m ds', init CMCombined_Final (plain_dataset 1 40) = Ok (m, ds')
    ∧ all_observed_deaths m = Some (mkIndexArray int64 (seq 31 9))
    ∧ (∀ θ x, ObservedDeaths (fixed_deaths_noise x) θ m ds' = Raise ValueError)
    ∧ ObservedDeaths_observed default_args m ds' = Ok (replicate 9 (Fin 1))
    ∧ (∀ θ x, build_model (fixed_deaths_noise x) θ m ds' = Raise ValueError).
Proof.
  eexists _, _. split; [apply CMCombined_Final_plain |].
  split; [reflexivity |]. split; [|split].
  - intros θ x. reflexivity.
  - reflexivity.
  - intros θ x. reflexivity.
Qed.

(** ** C6: a region without observable deaths *)

Example CMCombined_Final_all_masked :
  init CMCombined_Final all_masked_dataset
  = Ok (new_model CMCombined_Final all_masked_dataset None
          (Some (mkIndexArray int64 [31; 32]))
          (Some (mkIndexArray float64_t [])) None None,
        set_mask cases all_masked_dataset
          [replicate 31 true ++ [false; false] ++ replicate 7 true]).
Proof. vm_compute. reflexivity. Qed.

Lemma not_in_likelihood_unobservable ds r d :
  cell (mask (NewDeaths ds)) r d = Some true
  ∨ cell (data (Deaths ds)) r d = Some NaN →
  ¬ in_likelihood deaths ds r d.
Proof.
  intros [Hm | Hx] (Hm' & _ & [q Hq] & _); simpl in *; congruence.
Qed.

(** A region of which every day is masked upstream in [NewDeaths] or has
    a NaN cumulative [Deaths] contributes no index to
    [all_observed_deaths], and the constructor completes. *)
Lemma unobservable_region_unobserved ds r :
  wf_dataset ds → r < nRs ds →
  (∀ d, d < nDs ds →
     cell (mask (NewDeaths ds)) r d = Some true
     ∨ cell (data (Deaths ds)) r d = Some NaN) →
  region_unobserved ds r.
Proof.
  intros Hwf Hr Hreg.
  pose proof (channel_shaped_wf cases ds Hwf) as Hc.
  pose proof (channel_shaped_wf deaths ds Hwf) as Hd.
  destruct (CMCombined_init_spec CMCombined_Final ds Hc Hd)
    as (mkc & mkd & Hmkc & Hmkd & Hinit).
  eexists _, _, _. split; [exact Hinit |]. split; [reflexivity |].
  intros d Hdd. simpl.
  rewrite (elem_of_observed_cell deaths false) by done.
  rewrite <- (in_likelihood_included deaths).
  by apply not_in_likelihood_unobservable, Hreg.
Qed.

(** C6: the code at a failing input.  One region, forty days, every
    deaths entry NaN and masked.  The constructor completes and the region
    contributes no index to [all_observed_deaths], as the claim says; but
    the list is then empty, [np.array([])] is a float64 array, and
    [build_model], having declared [ObservedCases] over the days 31 and 32,
    raises [IndexError] where it selects the observed deaths with it. *)
Theorem C6_all_masked_region_raises :
  ∃ m ds', init CMCombined_Final all_masked_dataset = Ok (m, ds')
    ∧ region_unobserved all_masked_dataset 0
    ∧ all_observed_active m = Some (mkIndexArray int64 [31; 32])
    ∧ all_observed_deaths m = Some (mkIndexArray float64_t [])
    ∧ (∀ θ, ∃ lk, ObservedCases default_args θ m ds' = Ok lk)
    ∧ (∀ θ, ObservedDeaths default_args θ m ds' = Raise IndexError)
    ∧ (∀ θ, build_model default_args θ m ds' = Raise IndexError).
Proof.
  eexists _, _. split; [apply CMCombined_Final_all_masked |].
  split; [|split; [reflexivity |split; [reflexivity |split; [|split]]]].
  - apply unobservable_region_unobserved.
    + apply (bool_decide_unpack _). vm_compute. exact I.
    + vm_compute. lia.
    + intros d Hd. left. exact (lookup_replicate_2 40 true d Hd).
  - intros θ. eexists. reflexivity.
  - intros θ. reflexivity.
  - intros θ. reflexivity.
Qed.

(** ** C4: short and long testing delays *)

Lemma elem_of_nonzero (b : list bool) i : i ∈ nonzero b ↔ b !! i = Some true.
Proof.
  unfold nonzero. rewrite list_elem_of_filter, elem_of_seq. split; [by intros [? _] |].
  intros Hi. split; [done |]. apply lookup_lt_Some in Hi. lia.
Qed.

(** No region is in both subsets. *)
Lemma short_long_disjoint (sums : list Q) r :
  r ∈ nonzero ((λ s, QMicromega.Qlt_bool 1 s) <$> sums) →
  r ∉ nonzero ((λ s, QMicromega.Qlt_bool s 1) <$> sums).
Proof.
  rewrite !elem_of_nonzero, !list_lookup_fmap.
  destruct (sums !! r) as [s|]; [|done]. simpl.
  intros [= Hgt] [= Hlt].
  apply QMicromega.Qlt_bool_iff in Hgt. apply QMicromega.Qlt_bool_iff in Hlt.
  exact (Qlt_irrefl 1 (Qlt_trans _ _ _ Hgt Hlt)).
Qed.

(** A region is in neither subset exactly when its sum is 1. *)
Lemma short_long_gap (sums : list Q) r s :
  sums !! r = Some s →
  (r ∉ nonzero ((λ s, QMicromega.Qlt_bool 1 s) <$> sums))
  ∧ (r ∉ nonzero ((λ s, QMicromega.Qlt_bool s 1) <$> sums))
  ↔ Qeq s 1.
Proof.
  intros Hs. rewrite !elem_of_nonzero, !list_lookup_fmap, Hs. simpl. split.
  - intros [Hgt Hlt].
    destruct (Q_dec s 1) as [[Hlt' | Hgt'] | Heq]; [| | done].
    + apply QMicromega.Qlt_bool_iff in Hlt'. by rewrite Hlt' in Hlt.
    + apply QMicromega.Qlt_bool_iff in Hgt'. by rewrite Hgt' in Hgt.
  - intros Heq. split; intros [= Hb]; apply QMicromega.Qlt_bool_iff in Hb;
      rewrite Heq in Hb; by apply Qlt_irrefl in Hb.
Qed.

(** The two subsets a constructor computes never overlap. *)
Lemma DifDelays_short_long_disjoint ds :
  wf_dataset ds → "Symptomatic Testing"%string ∈ CMs ds →
  ∃ m ds' srs lrs,
    init CMCombined_Final_DifDelays ds = Ok (m, ds')
    ∧ short_rs m = Some srs ∧ long_rs m = Some lrs
    ∧ ∀ r, r ∈ srs → r ∉ lrs.
Proof.
  intros Hwf Hin.
  destruct (CMCombined_Final_DifDelays_init_spec ds Hwf Hin)
    as (ti & testing & mkc & mkd & _ & _ & _ & _ & Hinit).
  eexists _, _, _, _. split; [exact Hinit |]. split; [reflexivity |].
  split; [reflexivity |]. apply short_long_disjoint.
Qed.

(** C4: the code at a failing input.  Region 1 has "Symptomatic Testing"
    active on exactly one day: its sum is 1, which is neither [> 1] nor
    [< 1], and the region is in neither [short_rs] nor [long_rs]. *)
Theorem C4_one_day_region_in_neither :
  ∃ m ds', init CMCombined_Final_DifDelays testing_dataset = Ok (m, ds')
    ∧ nORs m = 3
    ∧ short_rs m = Some [0]
    ∧ long_rs m = Some [2].
Proof.
  eexists (new_model CMCombined_Final_DifDelays testing_dataset None
             (Some (mkIndexArray int64 [31; 32; 71; 72; 111; 112]))
             (Some (mkIndexArray int64 (seq 31 9 ++ seq 71 9 ++ seq 111 9)))
             (Some [0]) (Some [2])), _.
  split; [vm_compute; reflexivity |]. by repeat split.
Qed.

(** ** C10: the "Symptomatic Testing" plane of [ActiveCMs] *)

Lemma cell3_zero_plane (a : list (list (list Q))) i r j d :
  cell3 (zero_plane a i) r j d =
  if decide (j = i) then (λ _, 0%Q) <$> cell3 a r i d else cell3 a r j d.
Proof.
  unfold cell3, zero_plane. rewrite list_lookup_fmap.
  destruct (a !! r) as [reg|]; simpl; [|by case_decide].
  unfold cell. rewrite list_lookup_alter.
  destruct (decide (i = j)) as [-> | Hne].
  - rewrite decide_True by done. destruct (reg !! j) as [row|]; simpl; [|done].
    by rewrite list_lookup_fmap.
  - by rewrite decide_False by done.
Qed.

Lemma cell3_Some_shape {A : Type} n k m (a : list (list (list A))) r i d :
  shape3 n k m a → r < n → i < k → d < m → ∃ x, cell3 a r i d = Some x.
Proof.
  intros [Hn Hregs] Hr Hi Hd. unfold cell3.
  destruct (lookup_lt_is_Some_2 a r) as [reg Hreg]; [lia |].
  rewrite Hreg. simpl. rewrite list.Forall_lookup in Hregs.
  apply (cell_Some_shape k m reg i d); [by apply (Hregs r) | done | done].
Qed.

Lemma big_sum_ext n (f g : nat → R) :
  (∀ i, i < n → f i = g i) → big_sum n f = big_sum n g.
Proof.
  induction n as [|n IH]; intros Heq; [done |]. simpl.
  rewrite IH by (intros; apply Heq; lia). by rewrite Heq by lia.
Qed.

(** A zeroed plane contributes nothing, whatever its coefficient. *)
Lemma ActiveCMs_t_zeroed ds ti r d :
  (∀ q, cell3 (ActiveCMs ds) r ti d = Some q → q = 0%Q) →
  ActiveCMs_t ds r ti d = 0%R.
Proof.
  intros Hz. unfold ActiveCMs_t.
  destruct (cell3 (ActiveCMs ds) r ti d) as [q|]; [|done].
  rewrite (Hz q eq_refl). apply RMicromega.Q2R_0.
Qed.

Lemma GrowthReduction_zeroed θ θ' ds ti r d :
  (∀ r d, ActiveCMs_t ds r ti d = 0%R) →
  (∀ i, i ≠ ti → CM_Alpha θ i = CM_Alpha θ' i) →
  GrowthReduction θ ds r d = GrowthReduction θ' ds r d.
Proof.
  intros Hz Heq. unfold GrowthReduction. apply big_sum_ext. intros i _.
  unfold ActiveCMReduction. destruct (decide (i = ti)) as [-> | Hne].
  - rewrite Hz. lra.
  - by rewrite Heq.
Qed.

(** *** Constructors leave [ActiveCMs] alone, except for the zeroed plane *)

Lemma for_each_preserves {S : Type} (P : S → Prop) (body : nat → S → result S)
    (l : list nat) (s s' : S) :
  P s → (∀ i t t', P t → body i t = Ok t' → P t') →
  for_each l body s = Ok s' → P s'.
Proof.
  revert s. induction l as [|i l IH]; intros s Hs Hbody; simpl.
  - by intros [= <-].
  - destruct (body i s) as [t|e] eqn:E; [|done]. rewrite bind_Ok.
    apply IH; [by eapply Hbody | done].
Qed.

Lemma ActiveCMs_set_mask ch ds mk : ActiveCMs (set_mask ch ds mk) = ActiveCMs ds.
Proof. by destruct ch. Qed.

Lemma observe_cell_ActiveCMs ch trail remask r d st st' :
  observe_cell ch trail remask r d st = Ok st' → ActiveCMs (st'.2) = ActiveCMs (st.2).
Proof.
  destruct st as [obs ds]. unfold observe_cell.
  destruct (get2 (mask (New ch ds)) r d) as [m|]; [|done]. rewrite bind_Ok.
  destruct (if bool_decide (m = false) && bool_decide (CMDelayCut < d)
            then _ else _) as [c|]; [|done]. rewrite bind_Ok.
  destruct c; [by intros [= <-] |]. destruct remask; [|by intros [= <-]].
  destruct (set2 (mask (New ch ds)) r d true) as [mk|]; [|done]. rewrite bind_Ok.
  intros [= <-]. apply ActiveCMs_set_mask.
Qed.

Lemma observe_loop_ActiveCMs ch trail remask ds obs ds' :
  observe_loop ch trail remask ds = Ok (obs, ds') → ActiveCMs ds' = ActiveCMs ds.
Proof.
  unfold observe_loop, for_range. intros Hrun.
  refine (for_each_preserves (λ st, ActiveCMs (st.2) = ActiveCMs ds)
            _ _ ([], ds) (obs, ds') eq_refl _ Hrun).
  intros r t t' Ht Hrow.
  refine (for_each_preserves (λ st, ActiveCMs (st.2) = ActiveCMs ds)
            _ _ t t' Ht _ Hrow).
  intros d u u' Hu Hcell. apply observe_cell_ActiveCMs in Hcell. congruence.
Qed.

Lemma ICL_cell_ActiveCMs ch n r d day st st' :
  ICL_cell ch n r d day st = Ok st' → ActiveCMs (st'.2) = ActiveCMs (st.2).
Proof.
  destruct st as [obs ds]. unfold ICL_cell.
  destruct (get2 (mask (New ch ds)) r day) as [m|]; [|done]. rewrite bind_Ok.
  destruct (if bool_decide (m = false) then _ else _) as [c|]; [|done].
  rewrite bind_Ok. destruct c; [by intros [= <-] |].
  destruct (set2 (mask (New ch ds)) r day true) as [mk|]; [|done]. rewrite bind_Ok.
  intros [= <-]. apply ActiveCMs_set_mask.
Qed.

Lemma ICL_loop_ActiveCMs days ds oa od ds' :
  ICL_loop days ds = Ok (oa, od, ds') → ActiveCMs ds' = ActiveCMs ds.
Proof.
  unfold ICL_loop, for_range. intros Hrun.
  refine (for_each_preserves (λ st, ActiveCMs (st.2) = ActiveCMs ds)
            _ _ ([], [], ds) (oa, od, ds') eq_refl _ Hrun).
  intros r t t' Ht Hrow.
  refine (for_each_preserves (λ st, ActiveCMs (st.2) = ActiveCMs ds)
            _ _ t t' Ht _ Hrow).
  intros d [[oa1 od1] ds1] u' Hu. simpl in Hu.
  destruct (days !! d) as [day|]; [|done].
  destruct (ICL_cell cases (length days) r d day (oa1, ds1)) as [[oa2 ds2]|] eqn:E1;
    [|done]. rewrite bind_Ok.
  destruct (ICL_cell deaths (length days) r d day (od1, ds2)) as [[od2 ds3]|] eqn:E2;
    [|done]. rewrite bind_Ok. intros [= <-]. simpl.
  apply ICL_cell_ActiveCMs in E1, E2. simpl in *. congruence.
Qed.

Lemma CMCombined_init_ActiveCMs v ds m ds' :
  CMCombined_init v ds = Ok (m, ds') → ActiveCMs ds' = ActiveCMs ds.
Proof.
  unfold CMCombined_init.
  destruct (observe_loop cases true true ds) as [[oa ds1]|] eqn:E1; [|done].
  rewrite bind_Ok.
  destruct (observe_loop deaths false true ds1) as [[od ds2]|] eqn:E2; [|done].
  rewrite bind_Ok. intros [= _ <-].
  apply observe_loop_ActiveCMs in E1, E2. congruence.
Qed.

Lemma init_ActiveCMs v ds m ds' :
  v ≠ CMCombined_Final_DifDelays → init v ds = Ok (m, ds') →
  ActiveCMs ds' = ActiveCMs ds.
Proof.
  intros Hv Hinit. destruct v; try done; simpl in Hinit;
    try (by eapply CMCombined_init_ActiveCMs).
  - unfold CMDeath_Final_init in Hinit.
    destruct (observe_loop deaths false false ds) as [[obs ds1]|] eqn:E; [|done].
    rewrite bind_Ok in Hinit. injection Hinit as _ <-.
    by apply observe_loop_ActiveCMs in E.
  - unfold CMActive_Final_init in Hinit.
    destruct (observe_loop cases true true ds) as [[obs ds1]|] eqn:E; [|done].
    rewrite bind_Ok in Hinit. injection Hinit as _ <-.
    by apply observe_loop_ActiveCMs in E.
  - unfold CMCombined_Final_ICL_init in Hinit.
    destruct (ICL_loop (observed_days_indx ds) ds) as [[[oa od] ds1]|] eqn:E; [|done].
    rewrite bind_Ok in Hinit. injection Hinit as _ <-.
    by apply ICL_loop_ActiveCMs in E.
Qed.

Lemma DifDelays_init_ActiveCMs ds m ds' :
  CMCombined_Final_DifDelays_init ds = Ok (m, ds') →
  ∃ ti, index "Symptomatic Testing" (CMs ds) = Ok ti
    ∧ ActiveCMs ds' = zero_plane (ActiveCMs ds) ti.
Proof.
  unfold CMCombined_Final_DifDelays_init.
  destruct (index "Symptomatic Testing" (CMs ds)) as [ti|]; [|done]. rewrite bind_Ok.
  destruct (plane (ActiveCMs ds) ti) as [testing|]; [|done]. rewrite bind_Ok.
  destruct (observe_loop cases true true _) as [[oa ds1]|] eqn:E1; [|done].
  rewrite bind_Ok.
  destruct (observe_loop deaths false true ds1) as [[od ds2]|] eqn:E2; [|done].
  rewrite bind_Ok. intros [= _ <-]. exists ti. split; [done |].
  apply observe_loop_ActiveCMs in E1, E2. rewrite E2, E1. reflexivity.
Qed.

(** Whatever model is built next from a dataset object, a plane of
    [ActiveCMs] that was zero is zero afterwards. *)
Lemma init_keeps_zero v ds m ds' ti r d :
  init v ds = Ok (m, ds') →
  (∀ q, cell3 (ActiveCMs ds) r ti d = Some q → q = 0%Q) →
  ∀ q, cell3 (ActiveCMs ds') r ti d = Some q → q = 0%Q.
Proof.
  intros Hinit Hz. destruct (decide (v = CMCombined_Final_DifDelays)) as [-> | Hv].
  - destruct (DifDelays_init_ActiveCMs ds m ds' Hinit) as (tj & _ & ->).
    intros q. rewrite cell3_zero_plane. case_decide as Hj.
    + subst tj. destruct (cell3 (ActiveCMs ds) r ti d); [|done]. by intros [= <-].
    + apply Hz.
  - by rewrite (init_ActiveCMs v ds m ds' Hv Hinit).
Qed.

Lemma wf_set_mask ch ds mk :
  wf_dataset ds → shape2 (nRs ds) (nDs ds) mk → wf_dataset (set_mask ch ds mk).
Proof.
  intros (HA & [? ?] & [? ?] & HC & HD) Hmk.
  destruct ch; (split; [exact HA |]); (split; [by split |]); by split.
Qed.

Lemma wf_set_ActiveCMs ds a :
  wf_dataset ds → shape3 (nRs ds) (nCMs ds) (nDs ds) a →
  wf_dataset (set_ActiveCMs ds a).
Proof. intros (_ & H) Ha. by split. Qed.

(** In every class but the additive one, an NPI whose plane is zero is
    silent. *)
Lemma silent_in_of_zero v ti ds :
  v ≠ CMCombined_Additive →
  (∀ r d q, cell3 (ActiveCMs ds) r ti d = Some q → q = 0%Q) → silent_in v ti ds.
Proof.
  intros Hv Hz.
  assert (Ht : ∀ r d, ActiveCMs_t ds r ti d = 0%R).
  { intros r d. apply ActiveCMs_t_zeroed. apply Hz. }
  intros θ r d. split.
  - destruct v; try done; unfold ActiveCMReduction_of, ActiveCMReduction;
      rewrite Ht; lra.
  - intros θ' (Halpha & Hall & _).
    destruct v; try done; unfold GrowthReduction_of; apply big_sum_ext;
      intros i _; unfold ActiveCMReduction_of, ActiveCMReduction;
      (destruct (decide (i = ti)) as [-> | Hne];
        [rewrite Ht; lra | by rewrite ?Halpha, ?Hall by done]).
Qed.

(** In the additive class the term of an NPI whose plane is zero is its
    whole weight. *)
Lemma Additive_term_of_zero ti ds θ r d :
  (∀ q, cell3 (ActiveCMs ds) r ti d = Some q → q = 0%Q) →
  ActiveCMReduction_of CMCombined_Additive θ ds r ti d = CM_Beta θ ti.
Proof.
  intros Hz. unfold ActiveCMReduction_of.
  rewrite (ActiveCMs_t_zeroed ds ti r d Hz). lra.
Qed.

(** *** [short_rs] and [long_rs] on a plane of zeros and ones *)

Lemma binary_row_sum (row : list Q) :
  (∀ q, q ∈ row → q = 0%Q ∨ q = 1%Q) →
  Qeq (foldr Qplus 0%Q row)
      (inject_Z (Z.of_nat (length (filter (λ q, Qeq_bool q 1 = true) row)))).
Proof.
  induction row as [|q row IH]; intros Hbin; [reflexivity |].
  assert (IH' := IH (λ q' Hq', Hbin q' (list_elem_of_further _ _ _ Hq'))).
  simpl foldr. rewrite filter_cons.
  destruct (Hbin q (list_elem_of_here _ _)) as [-> | ->].
  - rewrite decide_False by done. rewrite IH'. apply Qplus_0_l.
  - rewrite decide_True by done. simpl length. rewrite IH'.
    rewrite Nat2Z.inj_succ, <- Z.add_1_l, inject_Z_plus. reflexivity.
Qed.

Lemma short_long_count ds ti testing r :
  wf_dataset ds → ti < nCMs ds → r < nRs ds →
  plane (ActiveCMs ds) ti = Ok testing →
  binary_plane ds ti →
  (r ∈ nonzero ((λ s, QMicromega.Qlt_bool 1 s) <$> sum_last testing)
   ↔ 1 < active_days ds r ti)
  ∧ (r ∈ nonzero ((λ s, QMicromega.Qlt_bool s 1) <$> sum_last testing)
     ↔ active_days ds r ti = 0).
Proof.
  intros (HA & _) Hti Hr Hplane Hbin.
  destruct (plane_Ok _ _ _ _ ti HA Hti) as (p & Hp & Hrows).
  rewrite Hplane in Hp. injection Hp as <-.
  destruct HA as [Hlen _].
  destruct (lookup_lt_is_Some_2 (ActiveCMs ds) r) as [reg Hreg]; [lia |].
  destruct (Forall2_lookup_l _ _ _ _ _ Hrows Hreg) as (row & Hrow & Hregrow).
  assert (Hsum : sum_last testing !! r = Some (foldr Qplus 0%Q row)).
  { unfold sum_last. by rewrite list_lookup_fmap, Hrow. }
  assert (Hdays : active_days ds r ti
                  = length (filter (λ q, Qeq_bool q 1 = true) row)).
  { unfold active_days. rewrite Hreg. simpl. by rewrite Hregrow. }
  assert (Hq : Qeq (foldr Qplus 0%Q row) (inject_Z (Z.of_nat (active_days ds r ti)))).
  { rewrite Hdays. apply binary_row_sum. intros q [d Hd]%list_elem_of_lookup.
    apply (Hbin r d). unfold cell3, cell. rewrite Hreg. simpl.
    by rewrite Hregrow. }
  rewrite !elem_of_nonzero, !list_lookup_fmap, !Hsum. simpl.
  split.
  - split.
    + intros [= Hlt]. apply QMicromega.Qlt_bool_iff in Hlt. rewrite Hq in Hlt.
      change 1%Q with (inject_Z 1) in Hlt. rewrite <- Zlt_Qlt in Hlt. lia.
    + intros Hlt. f_equal. apply QMicromega.Qlt_bool_iff. rewrite Hq.
      change 1%Q with (inject_Z 1). rewrite <- Zlt_Qlt. lia.
  - split.
    + intros [= Hlt]. apply QMicromega.Qlt_bool_iff in Hlt. rewrite Hq in Hlt.
      change 1%Q with (inject_Z 1) in Hlt. rewrite <- Zlt_Qlt in Hlt. lia.
    + intros Hz. f_equal. apply QMicromega.Qlt_bool_iff. rewrite Hq, Hz.
      reflexivity.
Qed.

(** What the constructor of [CMCombined_Final_DifDelays] leaves behind. *)
Lemma DifDelays_init_zeroes ds :
  wf_dataset ds → "Symptomatic Testing"%string ∈ CMs ds →
  ∃ m ds' ti testing,
    init CMCombined_Final_DifDelays ds = Ok (m, ds')
    ∧ index "Symptomatic Testing" (CMs ds) = Ok ti
    ∧ ti < nCMs ds
    ∧ plane (ActiveCMs ds) ti = Ok testing
    ∧ short_rs m = Some (nonzero ((λ s, QMicromega.Qlt_bool 1 s) <$> sum_last testing))
    ∧ long_rs m = Some (nonzero ((λ s, QMicromega.Qlt_bool s 1) <$> sum_last testing))
    ∧ wf_dataset ds'
    ∧ ActiveCMs ds' = zero_plane (ActiveCMs ds) ti
    ∧ ∀ r d q, cell3 (ActiveCMs ds') r ti d = Some q → q = 0%Q.
Proof.
  intros Hwf Hin.
  destruct (CMCombined_Final_DifDelays_init_spec ds Hwf Hin)
    as (ti & testing & mkc & mkd & Hti & Htesting & Hmkc & Hmkd & Hinit).
  pose proof Hwf as (HA & _).
  assert (Hlt : ti < nCMs ds).
  { destruct (index_Ok _ _ Hin) as (i & Hi & ?). rewrite Hti in Hi.
    by injection Hi as <-. }
  set (ds' := set_mask deaths (set_mask cases
                (set_ActiveCMs ds (zero_plane (ActiveCMs ds) ti)) mkc) mkd) in *.
  assert (HA' : ActiveCMs ds' = zero_plane (ActiveCMs ds) ti) by reflexivity.
  eexists _, ds', ti, testing. split; [exact Hinit |].
  repeat (split; [done |]). split; [|split; [done |]].
  - apply wf_set_mask; [apply wf_set_mask |]; [| apply Hmkc | apply Hmkd].
    apply wf_set_ActiveCMs; [done |]. by apply shape3_zero_plane.
  - intros r d q. rewrite HA', cell3_zero_plane, decide_True by done.
    destruct (cell3 (ActiveCMs ds) r ti d); [|done]. by intros [= <-].
Qed.

Lemma init_total v ds :
  wf_dataset ds →
  (v = CMCombined_Final_DifDelays → "Symptomatic Testing"%string ∈ CMs ds) →
  ∃ m ds', init v ds = Ok (m, ds').
Proof.
  intros Hwf HST.
  pose proof (channel_shaped_wf cases ds Hwf) as Hc.
  pose proof (channel_shaped_wf deaths ds Hwf) as Hd.
  destruct v.
  - eexists _, _. exact (CMDeath_Final_init_spec ds Hd).
  - destruct (CMActive_Final_init_spec ds Hc) as (? & _ & H). eexists _, _. exact H.
  - destruct (CMCombined_init_spec CMCombined_Final ds Hc Hd) as (? & ? & _ & _ & H).
    eexists _, _. exact H.
  - destruct (CMCombined_Final_DifDelays_init_spec ds Hwf (HST eq_refl))
      as (? & ? & ? & ? & _ & _ & _ & _ & H). eexists _, _. exact H.
  - destruct (CMCombined_init_spec CMCombined_Final_V3 ds Hc Hd) as (? & ? & _ & _ & H).
    eexists _, _. exact H.
  - destruct (CMCombined_init_spec CMCombined_Final_NoNoise ds Hc Hd)
      as (? & ? & _ & _ & H). eexists _, _. exact H.
  - destruct (CMCombined_init_spec CMCombined_Additive ds Hc Hd) as (? & ? & _ & _ & H).
    eexists _, _. exact H.
  - destruct (CMCombined_init_spec CMCombined_Final_DifEffects ds Hc Hd)
      as (? & ? & _ & _ & H). eexists _, _. exact H.
  - destruct (ICL_loop_inv ds Hwf) as ([[oa od] ds'] & Hrun & _).
    eexists _, _. simpl. unfold CMCombined_Final_ICL_init.
    by rewrite Hrun, bind_Ok.
Qed.

Section additive.
Local Open Scope R_scope.

(** C10 as stated fails for a later model of the additive class.  After
    [CMCombined_Final_DifDelays] has been built from the three-region
    dataset, a [CMCombined_Additive] model built from the same object has
    [ActiveCMReduction = CM_Beta * (1 - ActiveCMs)]: on the zeroed plane
    the term of "Symptomatic Testing" is its whole weight, one third in
    the draw with equal weights, and not zero. *)
Lemma C10_counterexample : ¬ silent_in_later_models testing_dataset.
Proof.
  intros (m & ds' & ti & Hinit & Hti & Hlater).
  assert (Hwf : wf_dataset testing_dataset)
    by (apply (bool_decide_unpack _); vm_compute; exact I).
  assert (Hin : "Symptomatic Testing"%string ∈ CMs testing_dataset)
    by apply list_elem_of_further, list_elem_of_here.
  destruct (DifDelays_init_zeroes testing_dataset Hwf Hin)
    as (m0 & ds0 & ti0 & testing & Hinit0 & Hti0 & _ & _ & _ & _ & Hwf0 & _ & Hz).
  rewrite Hinit0 in Hinit. injection Hinit as <- <-.
  rewrite Hti0 in Hti. injection Hti as <-.
  assert (ti0 = 1%nat) as -> by (vm_compute in Hti0; by injection Hti0 as <-).
  destruct (init_total CMCombined_Additive ds0 Hwf0) as (m2 & ds2 & Hinit2); [done |].
  destruct (Hlater _ _ _ Hinit2 thirds_draw 0%nat 0%nat) as [Hterm _].
  rewrite (Additive_term_of_zero 1 ds2 thirds_draw 0 0) in Hterm.
  - unfold CM_Beta in Hterm. simpl in Hterm. lra.
  - exact (init_keeps_zero _ ds0 m2 ds2 1 0 0 Hinit2 (Hz 0%nat 0%nat)).
Qed.

End additive.

(** C10, amended: constructing [CMCombined_Final_DifDelays] computes
    [short_rs] and [long_rs] from the "Symptomatic Testing" plane of the
    caller's [ActiveCMs] as it was (on a plane of zeros and ones: the
    regions with more than one day of testing, and those with none) and
    then overwrites that plane with zeros in the dataset object, leaving the
    other NPIs as they are.  In the built model the NPI's term of
    [GrowthReduction] is zero and the sum does not depend on its
    coefficient.  The same holds in every model built later from the same
    object, of any class but [CMCombined_Additive]; in a later
    [CMCombined_Additive] model the NPI's term is its whole weight
    [CM_Beta]. *)
Theorem C10_testing_plane_zeroed ds :
  wf_dataset ds → "Symptomatic Testing"%string ∈ CMs ds →
  ∃ m ds' ti srs lrs,
    init CMCombined_Final_DifDelays ds = Ok (m, ds')
    ∧ index "Symptomatic Testing" (CMs ds) = Ok ti
    ∧ short_rs m = Some srs ∧ long_rs m = Some lrs
    ∧ (binary_plane ds ti →
       ∀ r, r < nRs ds →
         (r ∈ srs ↔ 1 < active_days ds r ti) ∧ (r ∈ lrs ↔ active_days ds r ti = 0))
    ∧ (∀ r d, r < nRs ds → d < nDs ds → cell3 (ActiveCMs ds') r ti d = Some 0%Q)
    ∧ (∀ r i d, i ≠ ti → cell3 (ActiveCMs ds') r i d = cell3 (ActiveCMs ds) r i d)
    ∧ silent_in CMCombined_Final_DifDelays ti ds'
    ∧ ∀ v m2 ds2, init v ds' = Ok (m2, ds2) →
        (v ≠ CMCombined_Additive → silent_in v ti ds2)
        ∧ (v = CMCombined_Additive →
           ∀ θ r d, ActiveCMReduction_of v θ ds2 r ti d = CM_Beta θ ti).
Proof.
  intros Hwf Hin.
  destruct (DifDelays_init_zeroes ds Hwf Hin)
    as (m & ds' & ti & testing & Hinit & Hti & Hlt & Htesting & Hs & Hl & _ & HA' & Hz).
  pose proof Hwf as (HA & _).
  eexists m, ds', ti, _, _. split; [exact Hinit |]. split; [done |].
  split; [exact Hs |]. split; [exact Hl |].
  split; [|split; [|split; [|split]]].
  - intros Hbin r Hr. by apply short_long_count.
  - intros r d Hr Hd. rewrite HA', cell3_zero_plane, decide_True by done.
    by destruct (cell3_Some_shape _ _ _ _ r ti d HA Hr Hlt Hd) as [q ->].
  - intros r i d Hne. by rewrite HA', cell3_zero_plane, decide_False.
  - by apply silent_in_of_zero.
  - intros v m2 ds2 Hinit2.
    assert (Hz2 : ∀ r d q, cell3 (ActiveCMs ds2) r ti d = Some q → q = 0%Q).
    { intros r d. exact (init_keeps_zero v ds' m2 ds2 ti r d Hinit2 (Hz r d)). }
    split.
    + intros Hv. by apply silent_in_of_zero.
    + intros -> θ r d. apply Additive_term_of_zero. apply Hz2.
Qed.

Lemma C10_witness :
  ∃ m ds' ti srs lrs,
    init CMCombined_Final_DifDelays testing_dataset = Ok (m, ds')
    ∧ index "Symptomatic Testing" (CMs testing_dataset) = Ok ti
    ∧ short_rs m = Some srs ∧ long_rs m = Some lrs
    ∧ (binary_plane testing_dataset ti →
       ∀ r, r < nRs testing_dataset →
         (r ∈ srs ↔ 1 < active_days testing_dataset r ti)
         ∧ (r ∈ lrs ↔ active_days testing_dataset r ti = 0))
    ∧ (∀ r d, r < nRs testing_dataset → d < nDs testing_dataset →
         cell3 (ActiveCMs ds') r ti d = Some 0%Q)
    ∧ (∀ r i d, i ≠ ti →
         cell3 (ActiveCMs ds') r i d = cell3 (ActiveCMs testing_dataset) r i d)
    ∧ silent_in CMCombined_Final_DifDelays ti ds'
    ∧ ∀ v m2 ds2, init v ds' = Ok (m2, ds2) →
        (v ≠ CMCombined_Additive → silent_in v ti ds2)
        ∧ (v = CMCombined_Additive →
           ∀ θ r d, ActiveCMReduction_of v θ ds2 r ti d = CM_Beta θ ti).
Proof.
  apply (C10_testing_plane_zeroed testing_dataset).
  - apply (bool_decide_unpack _). vm_compute. exact I.
  - apply list_elem_of_further, list_elem_of_here.
Defined.

Section nodes.
Local Open Scope R_scope.

(** ** C2: the serial-interval transform *)

(** Moment matching: a Gamma law of shape [si_alpha] and rate [si_beta] has
    the given mean and variance. *)
Lemma si_moments a :
  serial_interval_mean a ≠ 0 → serial_interval_sigma a ≠ 0 →
  si_alpha a / si_beta a = serial_interval_mean a
  ∧ si_alpha a / si_beta a ^ 2 = serial_interval_sigma a ^ 2.
Proof. intros Hm Hs. unfold si_alpha, si_beta. split; field; done. Qed.

Lemma default_sigma_sq :
  serial_interval_sigma default_args ^ 2 = SI_ALPHA / SI_BETA ^ 2.
Proof.
  simpl. rewrite !Rmult_1_r. apply sqrt_sqrt. unfold SI_ALPHA, SI_BETA. lra.
Qed.

(** With the default arguments the transform uses the constants of the
    file. *)
Lemma si_default : si_alpha default_args = SI_ALPHA ∧ si_beta default_args = SI_BETA.
Proof.
  unfold si_alpha, si_beta. rewrite default_sigma_sq. simpl.
  unfold SI_ALPHA, SI_BETA. split; field; lra.
Qed.

(** C2: for every region and day [ExpectedGrowth] is
    [si_beta * (exp(ExpectedLogR / si_alpha) - 1)] with
    [si_alpha = mean^2 / sigma^2] and [si_beta = mean / sigma^2], which match
    the mean and the variance [sigma^2] of the serial interval; where
    [ExpectedLogR] is 0 the growth is 0. *)
Theorem C2_serial_interval_transform a θ ds r d :
  ExpectedGrowth a θ ds r d
  = serial_interval_mean a / serial_interval_sigma a ^ 2
    * (exp (ExpectedLogR a θ ds r d
            / (serial_interval_mean a ^ 2 / serial_interval_sigma a ^ 2)) - 1)
  ∧ (serial_interval_mean a ≠ 0 → serial_interval_sigma a ≠ 0 →
     si_alpha a / si_beta a = serial_interval_mean a
     ∧ si_alpha a / si_beta a ^ 2 = serial_interval_sigma a ^ 2)
  ∧ (ExpectedLogR a θ ds r d = 0 → ExpectedGrowth a θ ds r d = 0).
Proof.
  split; [reflexivity |]. split; [apply si_moments |].
  intros Hz. unfold ExpectedGrowth. rewrite Hz.
  unfold Rdiv. rewrite Rmult_0_l, exp_0. lra.
Qed.

Lemma C2_witness :
  ExpectedGrowth default_args unit_R_draw (plain_dataset 1 40) 0 31 = 0
  ∧ si_alpha default_args / si_beta default_args = serial_interval_mean default_args.
Proof.
  destruct (C2_serial_interval_transform default_args unit_R_draw
              (plain_dataset 1 40) 0 31) as (_ & Hmom & Hzero).
  split.
  - apply Hzero. unfold ExpectedLogR, RegionR, GrowthReduction, ActiveCMReduction.
    simpl. replace (3.25 + -2.25 * 1) with 1 by lra. rewrite ln_1. lra.
  - apply Hmom.
    + simpl. unfold SI_ALPHA, SI_BETA. lra.
    + intros Hs. pose proof default_sigma_sq as Hsq. rewrite Hs in Hsq.
      unfold SI_ALPHA, SI_BETA in Hsq. simpl in Hsq. lra.
Defined.

(** ** C5: [CMReduction] *)

(** C5 as stated fails for the additive class: its [CMReduction] is the
    vector of Dirichlet weights [AllBeta[1:]] and does not look at
    [CM_Alpha]. *)
Lemma C5_counterexample : ¬ CMReduction_rule CMCombined_Additive.
Proof.
  intros Hrule. specialize (Hrule zero_draw 0%nat).
  unfold CMReduction, CM_Beta in Hrule. simpl in Hrule.
  rewrite Ropp_0, exp_0 in Hrule. lra.
Qed.

(** C5, amended: in every class other than [CMCombined_Additive],
    [CMReduction] is [exp(-CM_Alpha)] for every NPI and every draw, and 1
    where [CM_Alpha] is 0; in [CMCombined_Additive] it is [AllBeta[1:]]. *)
Theorem C5_CMReduction v :
  (v ≠ CMCombined_Additive →
   CMReduction_rule v ∧ ∀ θ i, CM_Alpha θ i = 0 → CMReduction v θ i = 1)
  ∧ (v = CMCombined_Additive → ∀ θ i, CMReduction v θ i = AllBeta θ (S i)).
Proof.
  split.
  - intros Hv.
    assert (Hrule : CMReduction_rule v).
    { intros θ i. destruct v; try done; simpl; f_equal; lra. }
    split; [done |]. intros θ i Hz. by rewrite Hrule, Hz, Ropp_0, exp_0.
  - by intros ->.
Qed.

Lemma C5_witness :
  CMReduction_rule CMCombined_Final
  ∧ ∀ θ i, CM_Alpha θ i = 0 → CMReduction CMCombined_Final θ i = 1.
Proof. apply (proj1 (C5_CMReduction CMCombined_Final)). discriminate. Defined.

End nodes.

Section renewal.
Local Open Scope R_scope.

(** ** Sums *)



Lemma big_sum_scal n (x : R) (f : nat → R) :
  big_sum n (λ j, x * f j) = x * big_sum n f.
Proof. induction n as [|n IH]; simpl; [lra |]. rewrite IH. lra. Qed.

(** ** The tensor [infected] during the loop *)












End renewal.

Section unclamped.
Local Open Scope R_scope.

(** ** C7: no clamp on the infection curves *)

Lemma big_sum_app n m (f : nat → R) :
  big_sum (n + m) f = big_sum n f + big_sum m (λ j, f (n + j)%nat).
Proof.
  induction m as [|m IH]; [rewrite Nat.add_0_r; simpl; lra |].
  rewrite Nat.add_succ_r. simpl. rewrite IH. lra.
Qed.

Lemma big_sum_0 n (f : nat → R) : (∀ i, (i < n)%nat → f i = 0) → big_sum n f = 0.
Proof.
  induction n as [|n IH]; intros Hz; [done |]. simpl.
  rewrite IH by (intros; apply Hz; lia). rewrite Hz by lia. lra.
Qed.

(** *** The range of float64 *)

Lemma pow2_pos n : 0 < 2 ^ n.
Proof. apply pow_lt. lra. Qed.

Lemma pow2_ge_1 n : 1 <= 2 ^ n.
Proof. apply pow_R1_Rle. lra. Qed.

Lemma max_float_lt : Float64.max_float < 2 ^ 1024.
Proof.
  unfold Float64.max_float. change (2 ^ 1024) with (2 * 2 ^ 1023).
  pose proof (pow2_pos 1023) as Ha. pose proof (pow2_pos 52) as Hb.
  apply Rinv_0_lt_compat in Hb.
  set (a := 2 ^ 1023) in *. set (b := / 2 ^ 52) in *. nra.
Qed.

Lemma max_float_ge : 2 ^ 1023 <= Float64.max_float.
Proof.
  unfold Float64.max_float.
  pose proof (pow2_pos 1023) as Ha. pose proof (pow2_ge_1 52) as Hb.
  assert (/ 2 ^ 52 <= 1).
  { rewrite <- Rinv_1. apply Rinv_le_contravar; [lra | done]. }
  set (a := 2 ^ 1023) in *. set (b := / 2 ^ 52) in *. nra.
Qed.

Lemma min_half_le : Float64.min_half <= 1.
Proof.
  unfold Float64.min_half. rewrite <- Rinv_1.
  apply Rinv_le_contravar; [lra | apply pow2_ge_1].
Qed.

Lemma min_half_pos : 0 < Float64.min_half.
Proof. unfold Float64.min_half. apply Rinv_0_lt_compat, pow2_pos. Qed.

(** A number between 1 and 1024 in size is a float64 as it is. *)
Lemma round_mid x : 1 <= Rabs x <= 1024 → Float64.round x = Float64.finite x.
Proof.
  intros [Hlo Hhi]. unfold Float64.round.
  pose proof max_float_ge as Hmax. pose proof min_half_le as Hmin.
  assert (H10 : 2 ^ 10 <= 2 ^ 1023) by (apply Rle_pow; [lra | lia]).
  simpl in H10.
  assert (Hx : - 1024 <= x <= 1024).
  { unfold Rabs in Hhi. destruct (Rcase_abs x); lra. }
  repeat destruct (Rlt_dec _ _); try done; lra.
Qed.

Lemma round_0 : Float64.round 0 = Float64.finite 0.
Proof.
  unfold Float64.round.
  pose proof max_float_ge as Hmax. pose proof (pow2_pos 1023).
  repeat destruct (Rlt_dec _ _); try done; lra.
Qed.

Lemma exp_INR_mult n x : exp (INR n * x) = exp x ^ n.
Proof.
  induction n as [|n IH]; [by rewrite Rmult_0_l, exp_0 |].
  rewrite S_INR, Rmult_plus_distr_r, Rmult_1_l, exp_plus, IH. simpl. ring.
Qed.

Lemma five_fourths_pow : 2 ^ 1024 <= (5 / 4) ^ 3200.
Proof.
  assert (Hz : 2 ^ 1024 * 4 ^ 3200 <= 5 ^ 3200).
  { rewrite !pow_IZR, <- mult_IZR. apply IZR_le.
    apply Z.leb_le. vm_compute. reflexivity. }
  assert (H4 : 0 < 4 ^ 3200) by (apply pow_lt; lra).
  assert (H5 : (5 / 4) ^ 3200 * 4 ^ 3200 = 5 ^ 3200).
  { rewrite <- Rpow_mult_distr. f_equal. lra. }
  rewrite <- H5 in Hz. by apply Rmult_le_reg_r in Hz.
Qed.

(** From 800 on, [exp] is beyond the largest float64. *)
Lemma exp_overflow e : 800 <= e → Float64.max_float < exp e.
Proof.
  intros He.
  apply Rlt_le_trans with (2 ^ 1024); [apply max_float_lt |].
  apply Rle_trans with ((5 / 4) ^ 3200); [apply five_fourths_pow |].
  apply Rle_trans with (exp 800).
  - replace 800 with (INR 3200 * (1 / 4)).
    + rewrite exp_INR_mult. apply pow_incr. split; [lra |].
      left. pose proof (exp_ineq1 (1 / 4)). lra.
    + rewrite INR_IZR_INZ. change (Z.of_nat 3200) with 3200%Z. lra.
  - destruct He as [He | <-]; [left; by apply exp_increasing | lra].
Qed.

Lemma exp64_overflow e : 800 <= e → Float64.exp64 (Float64.finite e) = Float64.pos_inf.
Proof.
  intros He. simpl. unfold Float64.round.
  destruct (Rlt_dec _ _) as [|[]]; [done | by apply exp_overflow].
Qed.

(** *** Sums with a NaN term *)

Lemma add_nan_l a : Float64.add Float64.nan a = Float64.nan.
Proof. by destruct a. Qed.

Lemma add_nan_r a : Float64.add a Float64.nan = Float64.nan.
Proof. by destruct a. Qed.

Lemma sum_nan n f j : (j < n)%nat → f j = Float64.nan → Float64.sum n f = Float64.nan.
Proof.
  induction n as [|n IH]; [lia |]. intros Hj Hf. simpl.
  destruct (decide (j = n)) as [-> | Hne].
  - by rewrite Hf, add_nan_r.
  - rewrite IH by (done || lia). apply add_nan_l.
Qed.

Lemma sum_zero n : Float64.sum n (λ _, Float64.finite 0) = Float64.finite 0.
Proof.
  induction n as [|n IH]; [done |]. simpl. rewrite IH. simpl.
  rewrite Rplus_0_r. apply round_0.
Qed.

Lemma mul_inf_zero : Float64.mul Float64.pos_inf (Float64.finite 0) = Float64.nan.
Proof.
  simpl. unfold Float64.inf_times.
  repeat destruct (Rlt_dec _ _); try done; lra.
Qed.

(** An infinite entry meets the zero that heads the kernel: the output at
    its column is NaN. *)
Lemma conv_full_inf x k t :
  k ≠ [] → nth 0 k 0 = 0 → x t = Float64.pos_inf → Float64.conv_full x k t = Float64.nan.
Proof.
  intros Hk Hk0 Hx. unfold Float64.conv_full. apply (sum_nan _ _ 0%nat).
  - destruct k; [done |]. simpl. lia.
  - by rewrite Nat.sub_0_r, Hx, Hk0, mul_inf_zero.
Qed.

Lemma ExpectedCases_overflow isl growth r d e :
  Float64.add (isl r) (Float64.cumsum (growth r) d) = Float64.finite e → 800 <= e →
  Float64.InfectedCases isl growth r d = Float64.pos_inf
  ∧ Float64.ExpectedCases isl growth r d = Float64.nan.
Proof.
  intros He Hbig.
  assert (Hinf : Float64.InfectedCases isl growth r d = Float64.pos_inf).
  { unfold Float64.InfectedCases. rewrite He. by apply exp64_overflow. }
  split; [done |]. unfold Float64.ExpectedCases.
  apply conv_full_inf; [discriminate | unfold nth; simpl; lra | exact Hinf].
Qed.

Lemma ExpectedDeaths_overflow isl growth r d e :
  Float64.add (isl r) (Float64.cumsum (growth r) d) = Float64.finite e → 800 <= e →
  Float64.InfectedDeaths isl growth r d = Float64.pos_inf
  ∧ Float64.ExpectedDeaths isl growth r d = Float64.nan.
Proof.
  intros He Hbig.
  assert (Hinf : Float64.InfectedDeaths isl growth r d = Float64.pos_inf).
  { unfold Float64.InfectedDeaths. rewrite He. by apply exp64_overflow. }
  split; [done |]. unfold Float64.ExpectedDeaths.
  apply conv_full_inf; [discriminate | unfold nth; simpl; lra | exact Hinf].
Qed.

(** With no growth, the exponent is the initial size. *)
Lemma exponent_flat x d :
  1 <= Rabs x <= 1024 →
  Float64.add (Float64.finite x) (Float64.cumsum (λ _, Float64.finite 0) d)
  = Float64.finite x.
Proof.
  intros Hx. unfold Float64.cumsum. rewrite sum_zero. simpl.
  rewrite Rplus_0_r. by apply round_mid.
Qed.

Lemma mu_of_lookup x n idx k i :
  elems idx !! k = Some i →
  Float64.mu_of x n idx !! k = Some (x (i / n)%nat (i mod n)%nat).
Proof. intros Hk. unfold Float64.mu_of. by rewrite list_lookup_fmap, Hk. Qed.

(** C7 as stated fails: on the plain dataset, with every initial size at
    [800] and no growth, the first mean of the likelihood of the cases is
    NaN. *)
Lemma C7_counterexample : ¬ Float64.means_finite (plain_dataset 1 40).
Proof.
  intros Hfin.
  destruct (Hfin _ _ (λ _, 800) (λ _ _, 0) CMCombined_Final_plain) as [Hc _].
  specialize (Hc _ eq_refl).
  apply (Forall_lookup_1 _ _ 0%nat) with (x := Float64.nan) in Hc.
  - by destruct Hc.
  - erewrite mu_of_lookup by reflexivity.
    f_equal. eapply ExpectedCases_overflow; [| apply Rle_refl].
    apply exponent_flat. unfold Rabs. destruct (Rcase_abs 800); lra.
Qed.

(** C7, amended.  [InfectedCases] and [InfectedDeaths] are the float64
    exponential of [InitialSize_log + Growth.cumsum(axis=1)] as it is: at
    an index of the likelihood where that exponent is a finite number from
    [800] on, the infection count is [inf] and the mean
    [ExpectedCases.reshape(...)[all_observed_active]] (for the deaths,
    [ExpectedDeaths.reshape(...)[all_observed_deaths]]) is NaN. *)
Theorem C7_overflow_reaches_likelihood ds :
  wf_dataset ds →
  ∃ m ds' idxc idxd,
    init CMCombined_Final ds = Ok (m, ds')
    ∧ all_observed_active m = Some idxc
    ∧ all_observed_deaths m = Some idxd
    ∧ (∀ isl growth k i e,
         elems idxc !! k = Some i →
         Float64.add (isl (i / nDs ds')%nat)
                     (Float64.cumsum (growth (i / nDs ds')%nat) (i mod nDs ds'))
         = Float64.finite e →
         800 <= e →
         Float64.InfectedCases isl growth (i / nDs ds') (i mod nDs ds') = Float64.pos_inf
         ∧ Float64.mu_of (Float64.ExpectedCases isl growth) (nDs ds') idxc !! k
           = Some Float64.nan)
    ∧ (∀ isl growth k i e,
         elems idxd !! k = Some i →
         Float64.add (isl (i / nDs ds')%nat)
                     (Float64.cumsum (growth (i / nDs ds')%nat) (i mod nDs ds'))
         = Float64.finite e →
         800 <= e →
         Float64.InfectedDeaths isl growth (i / nDs ds') (i mod nDs ds') = Float64.pos_inf
         ∧ Float64.mu_of (Float64.ExpectedDeaths isl growth) (nDs ds') idxd !! k
           = Some Float64.nan).
Proof.
  intros Hwf.
  pose proof (channel_shaped_wf cases ds Hwf) as Hc.
  pose proof (channel_shaped_wf deaths ds Hwf) as Hd.
  destruct (CMCombined_init_spec CMCombined_Final ds Hc Hd) as (mkc & mkd & _ & _ & Hinit).
  eexists _, _, _, _. split; [exact Hinit |].
  split; [reflexivity |]. split; [reflexivity |]. split.
  - intros isl growth k i e Hk He Hbig.
    destruct (ExpectedCases_overflow isl growth _ _ e He Hbig) as [Hinf Hnan].
    split; [done |]. erewrite mu_of_lookup by exact Hk. by rewrite Hnan.
  - intros isl growth k i e Hk He Hbig.
    destruct (ExpectedDeaths_overflow isl growth _ _ e He Hbig) as [Hinf Hnan].
    split; [done |]. erewrite mu_of_lookup by exact Hk. by rewrite Hnan.
Qed.

Lemma C7_witness :
  ∃ m ds' idxc,
    init CMCombined_Final (plain_dataset 1 40) = Ok (m, ds')
    ∧ all_observed_active m = Some idxc
    ∧ Float64.mu_of (Float64.ExpectedCases (λ _, Float64.finite 800)
                                           (λ _ _, Float64.finite 0))
                    (nDs ds') idxc !! 0%nat
      = Some Float64.nan.
Proof.
  destruct (C7_overflow_reaches_likelihood (plain_dataset 1 40))
    as (m & ds' & idxc & idxd & Hinit & Hc & _ & Hcases & _).
  - apply (bool_decide_unpack _). vm_compute. exact I.
  - exists m, ds', idxc. split; [done |]. split; [done |].
    pose proof Hinit as Hplain. rewrite CMCombined_Final_plain in Hplain.
    injection Hplain as <- <-. injection Hc as <-.
    apply (Hcases _ _ 0%nat 31%nat 800); [reflexivity | | apply Rle_refl].
    apply exponent_flat. unfold Rabs. destruct (Rcase_abs 800); lra.
Defined.

End unclamped.

(** ** Flat indices into a reshaped array *)

Lemma concat_lookup_shape {A : Type} n m (a : list (list A)) i :
  shape2 n m a → i < n * m → concat a !! i = cell a (i / m) (i mod m).
Proof.
  intros [Hn Hrows]. revert n i Hn. induction Hrows as [|row a Hrow Hrows IH];
    intros n i Hn Hi; simpl in Hn; subst n; [simpl in Hi; lia |].
  assert (Hm : m ≠ 0) by (intros ->; lia).
  simpl concat. destruct (decide (i < m)) as [Hlt | Hge].
  - rewrite lookup_app_l by lia.
    rewrite Nat.div_small, Nat.mod_small by done. done.
  - rewrite lookup_app_r by lia. rewrite Hrow.
    rewrite (IH (length a) (i - m) eq_refl) by (simpl in Hi; lia).
    replace i with ((i - m) + 1 * m) at 3 4 by lia.
    rewrite Nat.div_add, Nat.Div0.mod_add by done.
    unfold cell. by rewrite Nat.add_1_r.
Qed.

Lemma cell_drop_cols {A : Type} k (a : list (list A)) r d :
  cell (drop_cols k a) r d = cell a r (k + d).
Proof.
  unfold cell, drop_cols. rewrite list_lookup_fmap.
  destruct (a !! r) as [row|]; [|done]. simpl. apply lookup_drop.
Qed.

Lemma filter_seq_increasing (P : nat → Prop) `{!∀ x, Decision (P x)} a n j k x y :
  filter P (seq a n) !! j = Some x → filter P (seq a n) !! k = Some y →
  j < k → x < y.
Proof.
  revert a j k. induction n as [|n IH]; intros a j k Hx Hy Hjk; [done |].
  simpl seq in Hx, Hy. rewrite filter_cons in Hx, Hy.
  destruct (decide (P a)); [|by eapply IH].
  destruct k as [|k]; [lia |]. simpl in Hy.
  destruct j as [|j].
  - injection Hx as <-.
    apply list_elem_of_lookup_2, list_elem_of_filter in Hy as [_ Hy].
    apply elem_of_seq in Hy. lia.
  - simpl in Hx. eapply IH; [exact Hx | exact Hy | lia].
Qed.

(** ** What every constructor returns on a well-formed dataset *)

Lemma ICL_init_spec ds :
  wf_dataset ds →
  ∃ mkc mkd,
    shape2 (nRs ds) (nDs ds) mkc ∧ shape2 (nRs ds) (nDs ds) mkd
    ∧ (∀ r day, r < nRs ds → day < nDs ds →
         cell mkc r day = masked_upto_ICL cases ds (nRs ds * nODs_of ds) r day)
    ∧ (∀ r day, r < nRs ds → day < nDs ds →
         cell mkd r day = masked_upto_ICL deaths ds (nRs ds * nODs_of ds) r day)
    ∧ init CMCombined_Final_ICL ds
      = Ok (new_model CMCombined_Final_ICL
              (set_mask deaths (set_mask cases ds mkc) mkd) None
              (Some (np_array (observed_upto_ICL cases ds (nRs ds * nODs_of ds))))
              (Some (np_array (observed_upto_ICL deaths ds (nRs ds * nODs_of ds))))
              None None,
            set_mask deaths (set_mask cases ds mkc) mkd).
Proof.
  intros Hwf.
  destruct (ICL_loop_inv ds Hwf)
    as ([[oa od] ds'] & Hrun & mkc & mkd & Hds & Hoa & Hod & Hsc & Hsd & Hcc & Hcd).
  simpl in Hds, Hoa, Hod. subst ds' oa od.
  exists mkc, mkd. repeat (split; [done |]).
  simpl. unfold CMCombined_Final_ICL_init. by rewrite Hrun, bind_Ok.
Qed.

Lemma init_lists v ds :
  wf_dataset ds →
  (v = CMCombined_Final_DifDelays → "Symptomatic Testing"%string ∈ CMs ds) →
  ∃ m ds', init v ds = Ok (m, ds')
    ∧ variant m = v
    ∧ nORs m = nRs ds ∧ nODs m = nODs_of ds
    ∧ nRs ds' = nRs ds ∧ nDs ds' = nDs ds
    ∧ (∀ ch, data (New ch ds') = data (New ch ds))
    ∧ ∀ ch, observed_index m ch
            = if builds v ch then Some (np_array (index_list v ch ds)) else None.
Proof.
  intros Hwf HST.
  pose proof (channel_shaped_wf cases ds Hwf) as Hc.
  pose proof (channel_shaped_wf deaths ds Hwf) as Hd.
  assert (Hcomb : combined v = true →
    ∃ m ds', init v ds = Ok (m, ds')
      ∧ variant m = v
      ∧ nORs m = nRs ds ∧ nODs m = nODs_of ds
      ∧ nRs ds' = nRs ds ∧ nDs ds' = nDs ds
      ∧ (∀ ch, data (New ch ds') = data (New ch ds))
      ∧ ∀ ch, observed_index m ch
              = if builds v ch then Some (np_array (index_list v ch ds)) else None).
  { intros Hv. destruct (CMCombined_init_spec v ds Hc Hd) as (mkc & mkd & _ & _ & Hinit).
    eexists _, _. split.
    { destruct v; try discriminate Hv; exact Hinit. }
    repeat split; try by intros [|].
    intros ch. destruct v; try discriminate Hv; by destruct ch. }
  destruct v; try (by apply Hcomb).
  - rewrite (CMDeath_Final_init_spec ds Hd : init CMDeath_Final ds = _).
    eexists _, _. split; [done |]. repeat split. by intros [|].
  - destruct (CMActive_Final_init_spec ds Hc) as (mkc & _ & Hinit).
    eexists _, _. split; [exact Hinit |]. repeat split; by intros [|].
  - destruct (CMCombined_Final_DifDelays_init_spec ds Hwf (HST eq_refl))
      as (ti & testing & mkc & mkd & _ & _ & _ & _ & Hinit).
    eexists _, _. split; [exact Hinit |]. repeat split; by intros [|].
  - destruct (ICL_init_spec ds Hwf) as (mkc & mkd & _ & _ & _ & _ & Hinit).
    eexists _, _. split; [exact Hinit |]. repeat split; by intros [|].
Qed.

Lemma shape2_data_New ch ds :
  wf_dataset ds → shape2 (nRs ds) (nDs ds) (data (New ch ds)).
Proof. intros (_ & [? _] & [? _] & _). by destruct ch. Qed.

Lemma elem_of_index_list v ch ds i :
  i ∈ index_list v ch ds → i < nRs ds * index_width v ds.
Proof.
  unfold index_list, index_width. case_decide.
  - unfold observed_upto_ICL. intros [_ Hi%elem_of_seq]%list_elem_of_filter. lia.
  - apply observed_upto_lt.
Qed.

Lemma index_list_increasing v ch ds j k i i' :
  index_list v ch ds !! j = Some i → index_list v ch ds !! k = Some i' →
  j < k → i < i'.
Proof.
  unfold index_list. case_decide; apply filter_seq_increasing.
Qed.

(** ** X1: the index lists as arrays *)

(** X1: on a well-formed dataset every constructor returns, and each index
    list it builds is strictly increasing (so it names no cell twice) and
    stays below the size of the flattened array it is used on:
    [nRs * nDs], and [nRs * nODs] in the ICL class. *)
Theorem X1_index_lists_increasing v ds :
  wf_dataset ds →
  (v = CMCombined_Final_DifDelays → "Symptomatic Testing"%string ∈ CMs ds) →
  ∃ m ds', init v ds = Ok (m, ds')
    ∧ ∀ ch idx, observed_index m ch = Some idx →
        (∀ j k i i', elems idx !! j = Some i → elems idx !! k = Some i' →
                     j < k → i < i')
        ∧ (∀ i, i ∈ elems idx → i < nRs ds * index_width v ds).
Proof.
  intros Hwf HST.
  destruct (init_lists v ds Hwf HST) as (m & ds' & Hinit & _ & _ & _ & _ & _ & _ & Hidx).
  exists m, ds'. split; [done |]. intros ch idx Hch. rewrite Hidx in Hch.
  destruct (builds v ch); [|done]. injection Hch as <-. simpl. split.
  - apply index_list_increasing.
  - apply elem_of_index_list.
Qed.

Lemma X1_witness :
  ∃ m ds', init CMCombined_Final (plain_dataset 1 40) = Ok (m, ds')
    ∧ ∀ ch idx, observed_index m ch = Some idx →
        (∀ j k i i', elems idx !! j = Some i → elems idx !! k = Some i' →
                     j < k → i < i')
        ∧ (∀ i, i ∈ elems idx
             → i < nRs (plain_dataset 1 40)
                   * index_width CMCombined_Final (plain_dataset 1 40)).
Proof.
  apply (X1_index_lists_increasing CMCombined_Final (plain_dataset 1 40)).
  - apply (bool_decide_unpack _). vm_compute. exact I.
  - discriminate.
Defined.

(** ** X2, X3: the counts a likelihood is given *)

Lemma observed_counts_spec v ch ds :
  wf_dataset ds →
  v ≠ CMCombined_Final_ICL →
  (v = CMCombined_Final_DifDelays → "Symptomatic Testing"%string ∈ CMs ds) →
  builds v ch = true →
  ∃ m ds', init v ds = Ok (m, ds')
    ∧ nDs ds' = nDs ds
    ∧ observed_index m ch = Some (np_array (index_list v ch ds))
    ∧ (index_list v ch ds ≠ [] →
       ∃ vals, observed_counts ch m ds' = Ok vals
         ∧ length vals = length (index_list v ch ds)
         ∧ ∀ k i, index_list v ch ds !! k = Some i →
             vals !! k = cell (data (New ch ds)) (i / nDs ds) (i mod nDs ds)
             ∧ in_likelihood ch ds (i / nDs ds) (i mod nDs ds)).
Proof.
  intros Hwf HICL HST Hb.
  destruct (init_lists v ds Hwf HST)
    as (m & ds' & Hinit & _ & HnORs & _ & _ & HnDs & Hdata & Hidx).
  specialize (Hidx ch). rewrite Hb in Hidx.
  exists m, ds'. split; [done |]. split; [done |]. split; [done |].
  intros Hne.
  pose proof (shape2_data_New ch ds Hwf) as Hshape.
  assert (Hw : index_width v ds = nDs ds) by (unfold index_width; by case_decide).
  destruct (take_idx_Ok (concat (data (New ch ds))) (index_list v ch ds) Hne)
    as (vals & Hvals & Hall).
  { intros i Hi%elem_of_index_list.
    rewrite (length_concat_shape _ _ _ Hshape). by rewrite Hw in Hi. }
  exists vals. split; [|split].
  - unfold observed_counts, reshape_flat. rewrite Hdata, HnORs, HnDs.
    rewrite decide_True by by apply length_concat_shape.
    by rewrite bind_Ok, Hidx.
  - symmetry. by eapply Forall2_length.
  - intros k i Hk.
    destruct (Forall2_lookup_l _ _ _ _ _ Hall Hk) as (x & Hx & Hflat).
    pose proof (list_elem_of_lookup_2 _ _ _ Hk) as Hin.
    pose proof (elem_of_index_list _ _ _ _ Hin) as Hlt. rewrite Hw in Hlt.
    split.
    + rewrite Hx, <- Hflat. by apply (concat_lookup_shape (nRs ds)).
    + unfold index_list in Hin. rewrite decide_False in Hin by done.
      apply elem_of_observed_upto in Hin as [_ Hin].
      by apply in_likelihood_included.
Qed.

Lemma init_unique v ds m ds' m2 ds2 :
  init v ds = Ok (m, ds') → init v ds = Ok (m2, ds2) → m2 = m ∧ ds2 = ds'.
Proof. intros H1 H2. rewrite H1 in H2. by injection H2 as <- <-. Qed.

Lemma observed_counts_empty v ch ds m ds' :
  wf_dataset ds →
  (v = CMCombined_Final_DifDelays → "Symptomatic Testing"%string ∈ CMs ds) →
  builds v ch = true →
  init v ds = Ok (m, ds') →
  index_list v ch ds = [] →
  (v ≠ CMCombined_Final_ICL → observed_counts ch m ds' = Raise IndexError)
  ∧ (v = CMCombined_Final_ICL → ICL_observed_counts ch m ds' = Raise IndexError).
Proof.
  intros Hwf HST Hb Hinit Hnil.
  destruct (init_lists v ds Hwf HST)
    as (m0 & ds0 & Hinit0 & _ & HnORs & HnODs & _ & HnDs & Hdata & Hidx).
  destruct (init_unique _ _ _ _ _ _ Hinit0 Hinit) as [-> ->].
  specialize (Hidx ch). rewrite Hb, Hnil in Hidx. split.
  - intros _. unfold observed_counts, reshape_flat. rewrite Hdata, HnORs, HnDs.
    rewrite decide_True
      by apply (length_concat_shape _ _ _ (shape2_data_New ch ds Hwf)).
    by rewrite bind_Ok, Hidx.
  - intros ->. unfold ICL_observed_counts, reshape_flat. rewrite Hdata, HnORs, HnODs.
    pose proof (shape2_drop_cols _ _ CMDelayCut _ (shape2_data_New ch ds Hwf)) as Hshape.
    rewrite <- nODs_of_eq in Hshape.
    rewrite decide_True by apply (length_concat_shape _ _ _ Hshape).
    by rewrite bind_Ok, Hidx.
Qed.

(** X2: in every class but the ICL one, on a well-formed dataset, the
    expression [New.data.reshape((nORs * nDs,))[idx]] evaluated after the
    constructor (the [observed=] of every likelihood of these classes but
    the one in the fixed [deaths_noise] branch of [CMCombined_Final])
    returns exactly when the index list is not empty.  Its [k]-th value is
    then the daily count of the cell [(i / nDs, i mod nDs)] that the
    [k]-th index [i] stands for, a cell that passes the inclusion test.
    With an empty index list [np.array([])] is a float64 array and the
    expression raises [IndexError]. *)
Theorem X2_observed_counts_aligned v ch ds :
  wf_dataset ds →
  v ≠ CMCombined_Final_ICL →
  (v = CMCombined_Final_DifDelays → "Symptomatic Testing"%string ∈ CMs ds) →
  builds v ch = true →
  ∃ m ds' idx, init v ds = Ok (m, ds')
    ∧ observed_index m ch = Some idx
    ∧ (elems idx ≠ [] →
       ∃ vals, observed_counts ch m ds' = Ok vals
         ∧ length vals = length (elems idx)
         ∧ ∀ k i, elems idx !! k = Some i →
             vals !! k = cell (data (New ch ds)) (i / nDs ds) (i mod nDs ds)
             ∧ in_likelihood ch ds (i / nDs ds) (i mod nDs ds))
    ∧ (elems idx = [] → observed_counts ch m ds' = Raise IndexError).
Proof.
  intros Hwf HICL HST Hb.
  destruct (observed_counts_spec v ch ds Hwf HICL HST Hb)
    as (m & ds' & Hinit & _ & Hidx & Hvals).
  exists m, ds', (np_array (index_list v ch ds)).
  split; [done |]. split; [done |]. split; [done |].
  intros Hnil. by apply (observed_counts_empty v ch ds m ds').
Qed.

Lemma X2_witness :
  ∃ m ds' idx, init CMCombined_Final (plain_dataset 1 40) = Ok (m, ds')
    ∧ observed_index m cases = Some idx
    ∧ (elems idx ≠ [] →
       ∃ vals, observed_counts cases m ds' = Ok vals
         ∧ length vals = length (elems idx)
         ∧ ∀ k i, elems idx !! k = Some i →
             vals !! k = cell (data (New cases (plain_dataset 1 40)))
                           (i / nDs (plain_dataset 1 40))
                           (i mod nDs (plain_dataset 1 40))
             ∧ in_likelihood cases (plain_dataset 1 40)
                 (i / nDs (plain_dataset 1 40)) (i mod nDs (plain_dataset 1 40)))
    ∧ (elems idx = [] → observed_counts cases m ds' = Raise IndexError).
Proof.
  apply (X2_observed_counts_aligned CMCombined_Final cases (plain_dataset 1 40)).
  - apply (bool_decide_unpack _). vm_compute. exact I.
  - discriminate.
  - discriminate.
  - reflexivity.
Defined.

(** X3: in the ICL class, on a well-formed dataset, each of the two
    [pm.Data] expressions
    [New.data[:, CMDelayCut:].reshape((nORs * nODs,))[idx]] returns exactly
    when its index list is not empty, and the [k]-th value is then the
    daily count of region [i / nODs] on day [CMDelayCut + i mod nODs], for
    the [k]-th index [i]: the cut of the first [CMDelayCut] columns matches
    the numbering of the index list.  With an empty index list the
    expression raises [IndexError]. *)
Theorem X3_ICL_observed_counts_aligned ch ds :
  wf_dataset ds →
  ∃ m ds' idx, init CMCombined_Final_ICL ds = Ok (m, ds')
    ∧ observed_index m ch = Some idx
    ∧ (elems idx ≠ [] →
       ∃ vals, ICL_observed_counts ch m ds' = Ok vals
         ∧ length vals = length (elems idx)
         ∧ ∀ k i, elems idx !! k = Some i →
             vals !! k = cell (data (New ch ds)) (i / nODs m)
                           (CMDelayCut + i mod nODs m)
             ∧ in_likelihood_ICL ch ds (i / nODs m) (CMDelayCut + i mod nODs m))
    ∧ (elems idx = [] → ICL_observed_counts ch m ds' = Raise IndexError).
Proof.
  intros Hwf.
  destruct (init_lists CMCombined_Final_ICL ds Hwf)
    as (m & ds' & Hinit & _ & HnORs & HnODs & _ & HnDs & Hdata & Hidx); [done |].
  specialize (Hidx ch).
  assert (Hb : builds CMCombined_Final_ICL ch = true) by by destruct ch.
  rewrite Hb in Hidx.
  exists m, ds', (np_array (index_list CMCombined_Final_ICL ch ds)).
  split; [done |]. split; [done |]. split; [|
    intros Hnil;
    by apply (observed_counts_empty CMCombined_Final_ICL ch ds m ds')].
  intros Hne.
  change (index_list CMCombined_Final_ICL ch ds ≠ []) in Hne.
  pose proof (shape2_drop_cols _ _ CMDelayCut _ (shape2_data_New ch ds Hwf)) as Hshape.
  rewrite <- nODs_of_eq in Hshape.
  assert (Hw : index_width CMCombined_Final_ICL ds = nODs_of ds) by done.
  destruct (take_idx_Ok (concat (drop_cols CMDelayCut (data (New ch ds))))
              (index_list CMCombined_Final_ICL ch ds) Hne)
    as (vals & Hvals & Hall).
  { intros i Hi%elem_of_index_list.
    rewrite (length_concat_shape _ _ _ Hshape). by rewrite Hw in Hi. }
  exists vals. split; [|split].
  - unfold ICL_observed_counts, reshape_flat. rewrite Hdata, HnORs, HnODs.
    rewrite decide_True by by apply length_concat_shape.
    by rewrite bind_Ok, Hidx.
  - symmetry. by eapply Forall2_length.
  - intros k i Hk. rewrite HnODs.
    change (index_list CMCombined_Final_ICL ch ds !! k = Some i) in Hk.
    destruct (Forall2_lookup_l _ _ _ _ _ Hall Hk) as (x & Hx & Hflat).
    pose proof (list_elem_of_lookup_2 _ _ _ Hk) as Hin.
    pose proof (elem_of_index_list _ _ _ _ Hin) as Hlt. rewrite Hw in Hlt.
    split.
    + rewrite Hx, <- Hflat, <- cell_drop_cols.
      by apply (concat_lookup_shape (nRs ds)).
    + change (i ∈ observed_upto_ICL ch ds (nRs ds * nODs_of ds)) in Hin.
      unfold observed_upto_ICL in Hin.
      apply list_elem_of_filter in Hin as [Hin _].
      by apply in_likelihood_ICL_included.
Qed.

Lemma X3_witness :
  ∃ m ds' idx, init CMCombined_Final_ICL (plain_dataset 1 40) = Ok (m, ds')
    ∧ observed_index m cases = Some idx
    ∧ (elems idx ≠ [] →
       ∃ vals, ICL_observed_counts cases m ds' = Ok vals
         ∧ length vals = length (elems idx)
         ∧ ∀ k i, elems idx !! k = Some i →
             vals !! k = cell (data (New cases (plain_dataset 1 40))) (i / nODs m)
                           (CMDelayCut + i mod nODs m)
             ∧ in_likelihood_ICL cases (plain_dataset 1 40) (i / nODs m)
                 (CMDelayCut + i mod nODs m))
    ∧ (elems idx = [] → ICL_observed_counts cases m ds' = Raise IndexError).
Proof.
  apply (X3_ICL_observed_counts_aligned cases (plain_dataset 1 40)).
  apply (bool_decide_unpack _). vm_compute. exact I.
Defined.

(** ** One dataset object under constructors of two classes *)

Lemma masked_upto_ICL_final ch ds r day :
  r < nRs ds → day < nDs ds →
  masked_upto_ICL ch ds (nRs ds * nODs_of ds) r day
  = (λ b : bool, if decide (CMDelayCut ≤ day)
                 then b || negb (included_ICL ch ds r day) else b)
      <$> cell (mask (New ch ds)) r day.
Proof.
  intros Hr Hday. pose proof (nODs_of_eq ds) as Hn. unfold masked_upto_ICL.
  destruct (cell (mask (New ch ds)) r day); [|done].
  cbv [fmap option_fmap option_map]. f_equal.
  assert (S r * nODs_of ds ≤ nRs ds * nODs_of ds)
    by (apply Nat.mul_le_mono_r; lia).
  repeat case_decide; try done; lia.
Qed.

(** On a mask as a re-masking constructor leaves it, the test of the ICL
    loop and the test of the other loops agree. *)
Lemma included_ICL_remasked ch ds mk r day :
  channel_shaped ch ds → remasked ch ds mk → r < nRs ds → day < nDs ds →
  included_ICL ch (set_mask ch ds mk) r day = included ch (trailing ch) ds r day.
Proof.
  intros [Hdata Hmask] [_ Hmk] Hr Hday.
  unfold included_ICL. rewrite New_set_mask, Cumulative_set_mask. cbn [mask].
  rewrite (Hmk r day Hr Hday). unfold included.
  destruct (cell_Some_shape _ _ _ r day Hmask Hr Hday) as [b ->].
  destruct (cell_Some_shape _ _ _ r day Hdata Hr Hday) as [x ->].
  cbv [fmap option_fmap option_map].
  destruct (trailing ch), b, x; simpl; try done;
    repeat (case_bool_decide; simpl in *; try done).
Qed.

(** On a mask as the ICL constructor leaves it, the test of the other
    loops gives what it gave before. *)
Lemma included_after_ICL ch trail ds mk r day :
  channel_shaped ch ds → r < nRs ds → day < nDs ds →
  cell mk r day = masked_upto_ICL ch ds (nRs ds * nODs_of ds) r day →
  included ch trail (set_mask ch ds mk) r day = included ch trail ds r day.
Proof.
  intros [Hdata Hmask] Hr Hday Hmk. rewrite masked_upto_ICL_final in Hmk by done.
  unfold included. rewrite New_set_mask, Cumulative_set_mask, nDs_set_mask.
  cbn [mask]. rewrite Hmk. unfold included_ICL.
  destruct (cell_Some_shape _ _ _ r day Hmask Hr Hday) as [b ->].
  destruct (cell_Some_shape _ _ _ r day Hdata Hr Hday) as [x ->].
  cbv [fmap option_fmap option_map].
  destruct b, x; case_decide; simpl; try done;
    repeat (case_bool_decide; simpl; try done).
Qed.

Lemma nODs_of_set_mask ch ds mk : nODs_of (set_mask ch ds mk) = nODs_of ds.
Proof. by rewrite !nODs_of_eq, nDs_set_mask. Qed.

(** The ICL loop on a dataset whose mask of channel [ch] a re-masking
    constructor has written: it changes no flag, and it lists the cells
    the re-masking constructor listed. *)
Lemma ICL_on_remasked ch ds mk :
  channel_shaped ch ds → remasked ch ds mk →
  (∀ r day, r < nRs ds → day < nDs ds →
     masked_upto_ICL ch (set_mask ch ds mk) (nRs ds * nODs_of ds) r day
     = cell mk r day)
  ∧ (∀ r d, r < nRs ds → d < nODs_of ds →
       (r * nODs_of ds + d
          ∈ observed_upto_ICL ch (set_mask ch ds mk) (nRs ds * nODs_of ds)
        ↔ in_likelihood ch ds r (CMDelayCut + d))).
Proof.
  intros Hsh Hmk. pose proof (nODs_of_eq ds) as Hn. split.
  - intros r day Hr Hday.
    pose proof (masked_upto_ICL_final ch (set_mask ch ds mk) r day) as Hf.
    rewrite nRs_set_mask, nDs_set_mask, nODs_of_set_mask in Hf.
    rewrite Hf by done. clear Hf.
    rewrite (included_ICL_remasked ch ds mk r day Hsh Hmk Hr Hday).
    rewrite New_set_mask. cbn [mask].
    destruct Hmk as [_ Hmk]. rewrite (Hmk r day Hr Hday).
    destruct Hsh as [_ Hmask].
    destruct (cell_Some_shape _ _ _ r day Hmask Hr Hday) as [b ->].
    cbv [fmap option_fmap option_map]. f_equal.
    case_decide; [|done]. by destruct b, (included ch (trailing ch) ds r day).
  - intros r d Hr Hd.
    pose proof (elem_of_observed_ICL ch (set_mask ch ds mk) r d) as He.
    rewrite nRs_set_mask, nODs_of_set_mask in He. rewrite (He Hr Hd). clear He.
    rewrite (included_ICL_remasked ch ds mk r (CMDelayCut + d) Hsh Hmk Hr)
      by (unfold CMDelayCut in *; lia).
    symmetry. apply in_likelihood_included.
Qed.

Lemma in_likelihood_set_mask_other ch ch' ds mk r d :
  ch ≠ ch' → in_likelihood ch' (set_mask ch ds mk) r d ↔ in_likelihood ch' ds r d.
Proof.
  intros Hne. by rewrite !in_likelihood_included, included_set_mask_other.
Qed.

(** ** X4: an ICL model built from a dataset another model was built from *)

(** X4: the constructors share the dataset object and write its masks, so
    the class built first decides what the ICL class sees.  After
    [CMCombined_Final] (or a class with the same constructor) has been
    built from a well-formed dataset, an ICL model built from the same
    object changes no mask and lists [r * nODs + d] exactly for the cells
    of day [CMDelayCut + d] that pass the test of the first class: day
    [CMDelayCut] itself and, for cases, the last seven days are no longer
    listed. *)
Theorem X4_ICL_after_remasking v ds :
  wf_dataset ds → combined v = true →
  ∃ m1 ds1 m2, init v ds = Ok (m1, ds1)
    ∧ init CMCombined_Final_ICL ds1 = Ok (m2, ds1)
    ∧ ∀ ch idx, observed_index m2 ch = Some idx →
        ∀ r d, r < nRs ds → d < nODs_of ds →
          (r * nODs_of ds + d ∈ elems idx
           ↔ in_likelihood ch ds r (CMDelayCut + d)).
Proof.
  intros Hwf Hv.
  pose proof (channel_shaped_wf cases ds Hwf) as Hc.
  pose proof (channel_shaped_wf deaths ds Hwf) as Hd.
  destruct (CMCombined_init_spec v ds Hc Hd) as (mkc & mkd & Hmkc & Hmkd & Hinit).
  set (ds1 := set_mask deaths (set_mask cases ds mkc) mkd) in *.
  assert (Hwf1 : wf_dataset ds1).
  { apply wf_set_mask; [apply wf_set_mask; [done | apply Hmkc] | apply Hmkd]. }
  assert (Hds1c : ds1 = set_mask cases (set_mask deaths ds mkd) mkc)
    by apply set_mask_comm.
  (* the two channels, each as the last mask written *)
  assert (Hcd : channel_shaped cases (set_mask deaths ds mkd))
    by by apply channel_shaped_set_mask_other.
  assert (Hdc : channel_shaped deaths (set_mask cases ds mkc))
    by by apply channel_shaped_set_mask_other.
  assert (Hmkc' : remasked cases (set_mask deaths ds mkd) mkc)
    by by apply remasked_other_2.
  assert (Hmkd' : remasked deaths (set_mask cases ds mkc) mkd)
    by by apply remasked_other_2.
  destruct (ICL_on_remasked cases _ mkc Hcd Hmkc') as [Hfixc Hlistc].
  destruct (ICL_on_remasked deaths _ mkd Hdc Hmkd') as [Hfixd Hlistd].
  rewrite <- Hds1c in Hfixc, Hlistc. fold ds1 in Hfixd, Hlistd.
  destruct (ICL_init_spec ds1 Hwf1) as (mkc2 & mkd2 & Hs2c & Hs2d & Hc2 & Hd2 & Hinit2).
  assert (mkc2 = mkc) as ->.
  { apply (shape2_ext (nRs ds) (nDs ds)); [exact Hs2c | apply Hmkc |].
    intros r d Hr Hdd. rewrite (Hc2 r d Hr Hdd). by apply Hfixc. }
  assert (mkd2 = mkd) as ->.
  { apply (shape2_ext (nRs ds) (nDs ds)); [exact Hs2d | apply Hmkd |].
    intros r d Hr Hdd. rewrite (Hd2 r d Hr Hdd). by apply Hfixd. }
  assert (Hback : set_mask deaths (set_mask cases ds1 mkc) mkd = ds1).
  { rewrite Hds1c at 1. rewrite set_mask_set_mask, <- set_mask_comm.
    by rewrite set_mask_set_mask. }
  rewrite Hback in Hinit2.
  eexists _, ds1, _. split.
  { destruct v; try discriminate Hv; exact Hinit. }
  split; [exact Hinit2 |].
  intros ch idx Hidx r d Hr Hdd. destruct ch; injection Hidx as <-.
  - rewrite <- (in_likelihood_set_mask_other deaths cases ds mkd) by done.
    by apply Hlistc.
  - rewrite <- (in_likelihood_set_mask_other cases deaths ds mkc) by done.
    by apply Hlistd.
Qed.

Lemma X4_witness :
  ∃ m1 ds1 m2, init CMCombined_Final (plain_dataset 1 40) = Ok (m1, ds1)
    ∧ init CMCombined_Final_ICL ds1 = Ok (m2, ds1)
    ∧ ∀ ch idx, observed_index m2 ch = Some idx →
        ∀ r d, r < nRs (plain_dataset 1 40) → d < nODs_of (plain_dataset 1 40) →
          (r * nODs_of (plain_dataset 1 40) + d ∈ elems idx
           ↔ in_likelihood ch (plain_dataset 1 40) r (CMDelayCut + d)).
Proof.
  apply (X4_ICL_after_remasking CMCombined_Final (plain_dataset 1 40)).
  - apply (bool_decide_unpack _). vm_compute. exact I.
  - reflexivity.
Defined.

(** ** X5: a re-masking class built after an ICL model *)

Lemma included_ICL_set_mask_other ch ch' ds mk r day :
  ch ≠ ch' → included_ICL ch' (set_mask ch ds mk) r day = included_ICL ch' ds r day.
Proof.
  intros Hne. unfold included_ICL.
  by rewrite New_set_mask_other, Cumulative_set_mask.
Qed.

Lemma masked_upto_ICL_set_mask_other ch ch' ds mk k r day :
  ch ≠ ch' →
  masked_upto_ICL ch' (set_mask ch ds mk) k r day = masked_upto_ICL ch' ds k r day.
Proof.
  intros Hne. unfold masked_upto_ICL.
  rewrite New_set_mask_other, nODs_of_set_mask by done.
  by rewrite included_ICL_set_mask_other.
Qed.

Lemma remasked_unique ch ds mk mk' :
  remasked ch ds mk → remasked ch ds mk' → mk = mk'.
Proof.
  intros [Hs Hc] [Hs' Hc']. apply (shape2_ext _ _ _ _ Hs Hs').
  intros r d Hr Hd. by rewrite Hc, Hc'.
Qed.

(** Re-masking a channel over the mask the ICL loop left gives the mask
    that re-masking the original gives. *)
Lemma remasked_after_ICL ch ds mk1 mk2 :
  channel_shaped ch ds →
  (∀ r day, r < nRs ds → day < nDs ds →
     cell mk1 r day = masked_upto_ICL ch ds (nRs ds * nODs_of ds) r day) →
  remasked ch (set_mask ch ds mk1) mk2 → remasked ch ds mk2.
Proof.
  intros Hsh Hmk1 [Hs2 Hmk2].
  rewrite nRs_set_mask, nDs_set_mask in Hs2. split; [exact Hs2 |].
  intros r d Hr Hd.
  specialize (Hmk2 r d). rewrite nRs_set_mask, nDs_set_mask in Hmk2.
  rewrite (Hmk2 Hr Hd).
  rewrite (included_after_ICL ch (trailing ch) ds mk1 r d Hsh Hr Hd (Hmk1 r d Hr Hd)).
  rewrite New_set_mask. cbn [mask].
  rewrite (Hmk1 r d Hr Hd), masked_upto_ICL_final by done.
  unfold included, included_ICL. destruct Hsh as [Hdata Hmask].
  destruct (cell_Some_shape _ _ _ r d Hmask Hr Hd) as [b ->].
  destruct (cell_Some_shape _ _ _ r d Hdata Hr Hd) as [x ->].
  cbv [fmap option_fmap option_map]. f_equal.
  destruct (trailing ch), b, x; case_decide; simpl; try done;
    repeat (case_bool_decide; simpl in *; try done); unfold CMDelayCut in *; lia.
Qed.

Lemma observed_upto_ext ch trail ds ds' :
  nRs ds' = nRs ds → nDs ds' = nDs ds →
  (∀ r d, r < nRs ds → d < nDs ds →
     included ch trail ds' r d = included ch trail ds r d) →
  observed_upto ch trail ds' (nRs ds' * nDs ds')
  = observed_upto ch trail ds (nRs ds * nDs ds).
Proof.
  intros HR HD Hinc. unfold observed_upto. rewrite HR, HD.
  apply list_filter_iff_elem. intros i Hi%elem_of_seq.
  assert (nDs ds ≠ 0) by (intros E; rewrite E in Hi; lia).
  rewrite Hinc; [done | |].
  - apply Nat.Div0.div_lt_upper_bound. lia.
  - by apply Nat.mod_upper_bound.
Qed.

(** X5: the other order does no harm.  A class with the constructor of
    [CMCombined_Final], built from a dataset object that an ICL model was
    built from before, gets the index lists it gets from the fresh
    dataset and leaves the object in the same state. *)
Theorem X5_remasking_after_ICL v ds :
  wf_dataset ds → combined v = true →
  ∃ m0 ds0 m1 ds1 m2,
    init v ds = Ok (m0, ds0)
    ∧ init CMCombined_Final_ICL ds = Ok (m1, ds1)
    ∧ init v ds1 = Ok (m2, ds0)
    ∧ ∀ ch, observed_index m2 ch = observed_index m0 ch.
Proof.
  intros Hwf Hv.
  pose proof (channel_shaped_wf cases ds Hwf) as Hc.
  pose proof (channel_shaped_wf deaths ds Hwf) as Hd.
  destruct (CMCombined_init_spec v ds Hc Hd) as (mkc0 & mkd0 & Hmkc0 & Hmkd0 & Hinit0).
  destruct (ICL_init_spec ds Hwf) as (mkc1 & mkd1 & Hs1c & Hs1d & Hc1 & Hd1 & Hinit1).
  set (ds1 := set_mask deaths (set_mask cases ds mkc1) mkd1) in *.
  assert (Hwf1 : wf_dataset ds1).
  { apply wf_set_mask; [by apply wf_set_mask | exact Hs1d]. }
  assert (Hds1c : ds1 = set_mask cases (set_mask deaths ds mkd1) mkc1)
    by apply set_mask_comm.
  destruct (CMCombined_init_spec v ds1 (channel_shaped_wf cases ds1 Hwf1)
              (channel_shaped_wf deaths ds1 Hwf1))
    as (mkc2 & mkd2 & Hmkc2 & Hmkd2 & Hinit2).
  (* the masks written the second time are the masks written from scratch *)
  assert (mkc2 = mkc0) as ->.
  { apply (remasked_unique cases ds); [|exact Hmkc0].
    apply (remasked_other deaths cases ds mkd1); [done |].
    apply (remasked_after_ICL cases _ mkc1).
    - by apply channel_shaped_set_mask_other.
    - intros r day Hr Hday. rewrite masked_upto_ICL_set_mask_other by done.
      by apply Hc1.
    - by rewrite <- Hds1c. }
  assert (mkd2 = mkd0) as ->.
  { apply (remasked_unique deaths ds); [|exact Hmkd0].
    apply (remasked_other cases deaths ds mkc1); [done |].
    apply (remasked_after_ICL deaths _ mkd1).
    - by apply channel_shaped_set_mask_other.
    - intros r day Hr Hday. rewrite masked_upto_ICL_set_mask_other by done.
      by apply Hd1.
    - exact Hmkd2. }
  assert (Hback : set_mask deaths (set_mask cases ds1 mkc0) mkd0
                  = set_mask deaths (set_mask cases ds mkc0) mkd0).
  { unfold ds1. rewrite <- (set_mask_comm (set_mask cases ds mkc1)).
    by rewrite !set_mask_set_mask. }
  assert (Hlists : ∀ ch,
    observed_upto ch (trailing ch) ds1 (nRs ds1 * nDs ds1)
    = observed_upto ch (trailing ch) ds (nRs ds * nDs ds)).
  { intros ch. apply observed_upto_ext; [done | done |].
    intros r d Hr Hdd. destruct ch.
    - rewrite Hds1c.
      rewrite (included_after_ICL cases _ (set_mask deaths ds mkd1) mkc1 r d);
        [by apply included_set_mask_other
        |by apply channel_shaped_set_mask_other | done | done |].
      rewrite masked_upto_ICL_set_mask_other by done. by apply Hc1.
    - unfold ds1.
      rewrite (included_after_ICL deaths _ (set_mask cases ds mkc1) mkd1 r d);
        [by apply included_set_mask_other
        |by apply channel_shaped_set_mask_other | done | done |].
      rewrite masked_upto_ICL_set_mask_other by done. by apply Hd1. }
  rewrite Hback in Hinit2.
  eexists _, _, _, ds1, _. split.
  { destruct v; try discriminate Hv; exact Hinit0. }
  split; [exact Hinit1 |]. split.
  { destruct v; try discriminate Hv; exact Hinit2. }
  intros ch. pose proof (Hlists cases) as Hlc. pose proof (Hlists deaths) as Hld.
  simpl in Hlc, Hld.
  destruct v; try discriminate Hv; destruct ch; simpl; by rewrite ?Hlc, ?Hld.
Qed.

Lemma X5_witness :
  ∃ m0 ds0 m1 ds1 m2,
    init CMCombined_Final (plain_dataset 1 40) = Ok (m0, ds0)
    ∧ init CMCombined_Final_ICL (plain_dataset 1 40) = Ok (m1, ds1)
    ∧ init CMCombined_Final ds1 = Ok (m2, ds0)
    ∧ ∀ ch, observed_index m2 ch = observed_index m0 ch.
Proof.
  apply (X5_remasking_after_ICL CMCombined_Final (plain_dataset 1 40)).
  - apply (bool_decide_unpack _). vm_compute. exact I.
  - reflexivity.
Defined.

Section growth.
Local Open Scope R_scope.

(** ** Sums and products over an axis *)

Lemma big_prod_exp n (f : nat → R) : big_prod n (λ i, exp (f i)) = exp (big_sum n f).
Proof.
  induction n as [|n IH]; simpl; [by rewrite exp_0 |].
  by rewrite IH, exp_plus.
Qed.

Lemma big_sum_le n (f g : nat → R) :
  (∀ i, (i < n)%nat → f i <= g i) → big_sum n f <= big_sum n g.
Proof.
  induction n as [|n IH]; intros Hle; simpl; [lra |].
  pose proof (Hle n (Nat.lt_succ_diag_r n)).
  assert (big_sum n f <= big_sum n g) by (apply IH; intros i Hi; apply Hle; lia).
  lra.
Qed.

Lemma big_sum_nonneg n (f : nat → R) :
  (∀ i, (i < n)%nat → 0 <= f i) → 0 <= big_sum n f.
Proof.
  intros Hf. rewrite <- (big_sum_0 n (λ _, 0)) by done. by apply big_sum_le.
Qed.

Lemma big_sum_pos n (f : nat → R) i :
  (∀ j, (j < n)%nat → 0 <= f j) → (i < n)%nat → 0 < f i → 0 < big_sum n f.
Proof.
  induction n as [|n IH]; intros Hf Hi Hpos; [lia |]. simpl.
  pose proof (Hf n (Nat.lt_succ_diag_r n)).
  assert (0 <= big_sum n f) by (apply big_sum_nonneg; intros j Hj; apply Hf; lia).
  destruct (decide (i = n)) as [-> | Hne]; [lra |].
  assert (0 < big_sum n f); [|lra].
  apply IH; [intros j Hj; apply Hf; lia | lia | done].
Qed.

(** ** X6: the effect of the NPIs on [R] is multiplicative *)

(** X6: where [RegionR] is positive, the reproduction number
    [exp(ExpectedLogR)] of a region and day is [RegionR] times, for each
    NPI, [CMReduction] raised to the value of its feature in [ActiveCMs]:
    an NPI that is on (feature 1) multiplies [R] by its [CMReduction], one
    that is off (feature 0) by 1. *)
Theorem X6_R_multiplicative a θ ds r d :
  0 < RegionR a θ r →
  exp (ExpectedLogR a θ ds r d)
  = RegionR a θ r
    * big_prod (nCMs ds)
        (λ i, Rpower (CMReduction CMCombined_Final θ i) (ActiveCMs_t ds r i d)).
Proof.
  intros HR. unfold ExpectedLogR, Rminus. rewrite exp_plus, exp_ln by done.
  f_equal. unfold Rpower, CMReduction. rewrite big_prod_exp. f_equal.
  unfold GrowthReduction, ActiveCMReduction.
  transitivity (big_sum (nCMs ds)
    (λ i, -1 * (CM_Alpha θ i * ActiveCMs_t ds r i d))).
  - rewrite big_sum_scal. ring.
  - apply big_sum_ext. intros i _. rewrite ln_exp. ring.
Qed.

Lemma X6_witness :
  exp (ExpectedLogR default_args zero_draw (plain_dataset 1 40) 0 31)
  = RegionR default_args zero_draw 0
    * big_prod (nCMs (plain_dataset 1 40))
        (λ i, Rpower (CMReduction CMCombined_Final zero_draw i)
                (ActiveCMs_t (plain_dataset 1 40) 0 i 31)).
Proof.
  apply (X6_R_multiplicative default_args zero_draw (plain_dataset 1 40) 0 31).
  unfold RegionR. simpl. lra.
Defined.

(** ** X7: growth and [R] *)





(** ** X8: more NPIs, less growth *)



End growth.

(** ** X9: when [CMCombined_Final.build_model] returns *)






(** ** X10: the rows of [ExpectedCases] in [CMCombined_Final_DifDelays] *)

Section rows.
Local Open Scope R_scope.







End rows.
